(** * A shallow embedding of the sprite tool's core

    The development follows four source units:
    - [components/AnimationModal.tsx]: strip slicing and stitching, the
      timeline edits and the playback tick ([Strip], [Timeline], [Playback]);
    - the pixel editor ([EditModal], module [Flood]): the bucket tool;
    - the playground ([GamePlayground], module [Runtime]): the per-frame
      physics and animation loop.

    JavaScript numbers that hold counts and indices are [nat] or [Z].
    The playback tick, whose test compares a rounded difference with a
    rounded quotient, is written over an interface of number operations
    with two instances: IEEE 754 binary64 (the Standard Library's
    [SpecFloat]), which is what the code runs on, and exact rationals [Q].
    Positions and velocities of the playground and the placement of the
    preview are exact rationals [Q].  A React state update is the returned
    record. *)

From Stdlib Require Import ZArith QArith Qabs Qminmax Lia Lqa.
From Stdlib Require Import Ascii String.
From Stdlib Require SpecFloat.
From stdpp Require Import base list strings.

#[local] Open Scope Z_scope.

(* ===================================================================== *)
(** ** JavaScript arrays *)
(* ===================================================================== *)

Module JsArray.
Section Elements.
Context {A : Type}.
(** The value a read outside the array yields. *)
Variable undefined : A.

(** [arr[i]] *)
Definition get (arr : list A) (i : Z) : A :=
  if i <? 0 then undefined
  else default undefined (arr !! Z.to_nat i).

(** [arr[i] = v]: a negative index names a property and leaves the
    elements alone, an index past the end extends the array. *)
Definition set (arr : list A) (i : Z) (v : A) : list A :=
  if i <? 0 then arr
  else if i <? Z.of_nat (length arr) then <[Z.to_nat i := v]> arr
  else arr ++ replicate (Z.to_nat i - length arr)%nat undefined ++ [v].

(** [arr.filter((x, i) => keep i x)], the index counted from [k]. *)
Fixpoint filter_from (k : nat) (keep : nat → A → bool) (arr : list A) : list A :=
  match arr with
  | [] => []
  | x :: rest =>
      if keep k x then x :: filter_from (S k) keep rest
      else filter_from (S k) keep rest
  end.

Definition filter (keep : nat → A → bool) (arr : list A) : list A :=
  filter_from 0 keep arr.
End Elements.
End JsArray.

(* ===================================================================== *)
(** ** Timeline editor (AnimationModal.tsx, "EDITOR ACTIONS") *)
(* ===================================================================== *)

Module Timeline.

(** The literal type [-1 | 1] of [moveFrame]'s second argument. *)
Inductive direction := Minus1 | Plus1.

Definition offset (d : direction) : Z :=
  match d with Minus1 => -1 | Plus1 => 1 end.

Definition opposite (d : direction) : direction :=
  match d with Minus1 => Plus1 | Plus1 => Minus1 end.

Section Frames.
Context {A : Type}.
Variable undefined : A.

(** The two pieces of component state the editor actions read and set. *)
Record state := State {
  frames : list A;
  selectedFrameIdx : Z
}.

Definition moveFrame (idx : Z) (dir : direction) (st : state) : state :=
  let newFrames := frames st in
  let targetIdx := idx + offset dir in
  if (targetIdx <? 0) || (targetIdx >=? Z.of_nat (length newFrames)) then st
  else
    let a := JsArray.get undefined newFrames targetIdx in
    let b := JsArray.get undefined newFrames idx in
    let newFrames := JsArray.set undefined newFrames idx a in
    let newFrames := JsArray.set undefined newFrames targetIdx b in
    State newFrames targetIdx.

Definition deleteFrame (idx : Z) (st : state) : state :=
  if (length (frames st) <=? 1)%nat then st
  else
    let newFrames :=
      JsArray.filter (λ i _, negb (Z.of_nat i =? idx)) (frames st) in
    State newFrames
      (if selectedFrameIdx st >=? Z.of_nat (length newFrames)
       then Z.of_nat (length newFrames) - 1
       else selectedFrameIdx st).

(** Any number of delete clicks, one after the other. *)
Definition deleteAll (idxs : list Z) (st : state) : state :=
  foldl (λ s i, deleteFrame i s) st idxs.
End Frames.

Arguments State {A} _ _.
Arguments frames {A} _.
Arguments selectedFrameIdx {A} _.
End Timeline.

(* ===================================================================== *)
(** ** Strip slicing and stitching (AnimationModal.tsx, [initEditor] and
       [handleSave]) *)
(* ===================================================================== *)

Module Strip.
Section Pixels.
(** A pixel sample, the fully transparent sample of a fresh or cleared
    canvas, and the canvas' default source-over compositing. *)
Context {Px : Type}.
Variable transparent : Px.
Variable over : Px → Px → Px.

(** An image or a canvas: its size and its samples.  A frame travels
    through the editor as a PNG data URL; encoding a canvas that has pixels
    and decoding it again is the identity here (for one that has none, see
    [decodes]). *)
Record bitmap := Bitmap {
  width : nat;
  height : nat;
  pixel : nat → nat → Px
}.

Definition inside (b : bitmap) (x y : nat) : bool :=
  (x <? width b)%nat && (y <? height b)%nat.

(** A read outside an image sees nothing. *)
Definition sample (b : bitmap) (x y : nat) : Px :=
  if inside b x y then pixel b x y else transparent.

Definition createCanvas (w h : nat) : bitmap :=
  Bitmap w h (λ _ _, transparent).

(** [ctx.clearRect(x0, y0, w, h)] *)
Definition clearRect (x0 y0 w h : nat) (canvas : bitmap) : bitmap :=
  Bitmap (width canvas) (height canvas)
    (λ x y,
       if (x0 <=? x)%nat && (x <? x0 + w)%nat && (y0 <=? y)%nat && (y <? y0 + h)%nat
       then transparent else pixel canvas x y).

(** [ctx.drawImage(img, sx, sy, sw, sh, dx, dy, sw, sh)]: the source
    rectangle, unscaled, composited onto the canvas at [(dx, dy)]. *)
Definition drawImageRect (img : bitmap) (sx sy sw sh dx dy : nat)
    (canvas : bitmap) : bitmap :=
  Bitmap (width canvas) (height canvas)
    (λ x y,
       if inside canvas x y
          && (dx <=? x)%nat && (x <? dx + sw)%nat
          && (dy <=? y)%nat && (y <? dy + sh)%nat
       then over (sample img (sx + (x - dx)) (sy + (y - dy))) (pixel canvas x y)
       else pixel canvas x y).

(** [ctx.drawImage(img, dx, dy)] *)
Definition drawImage (img : bitmap) (dx dy : nat) (canvas : bitmap) : bitmap :=
  drawImageRect img 0 0 (width img) (height img) dx dy canvas.

(** [f] is frame [i] of the strip [img] cut [fw] wide and [fh] high: the
    rectangle [i·fw, 0, fw, fh]. *)
Definition is_frame (img : bitmap) (fw fh i : nat) (f : bitmap) : Prop :=
  width f = fw ∧ height f = fh
  ∧ ∀ x y, (x < fw)%nat → (y < fh)%nat →
      pixel f x y = sample img (i * fw + x) y.

(** [asset.metadata?.frames || 1] *)
Definition frameCountOf (metaFrames : option nat) : nat :=
  match metaFrames with
  | Some (S n) => S n
  | Some O | None => 1
  end.

(** The body of the slicing loop for frame [i]: the state is the one
    scratch canvas and the frames pushed so far. *)
Definition sliceStep (img : bitmap) (frameWidth frameHeight : nat)
    (acc : bitmap * list bitmap) (i : nat) : bitmap * list bitmap :=
  let '(tempCanvas, newFrames) := acc in
  let tempCanvas := clearRect 0 0 frameWidth frameHeight tempCanvas in
  let tempCanvas :=
    drawImageRect img (i * frameWidth) 0 frameWidth frameHeight 0 0 tempCanvas in
  (tempCanvas, newFrames ++ [tempCanvas]).

Definition initEditor (img : bitmap) (metaFrames : option nat) : list bitmap :=
  let frameCount := frameCountOf metaFrames in
  let frameWidth := (width img / frameCount)%nat in
  let frameHeight := height img in
  let tempCanvas := createCanvas frameWidth frameHeight in
  snd (foldl (sliceStep img frameWidth frameHeight) (tempCanvas, [])
             (seq 0 frameCount)).

(** A frame is kept as the text [canvas.toDataURL()] returned.  For a
    canvas without pixels (width or height 0) that text is [data:,], which
    is no image: an [Image] given it as [src] never fires [onload]. *)
Definition decodes (frame : bitmap) : bool :=
  (0 <? width frame)%nat && (0 <? height frame)%nat.

(** How a save ends: by the early return, with an awaited [onload] that
    never fires (no [onerror] is set, so the promise stays pending and
    [onSave] is not reached), or with [onSave(asset.id, newUrl,
    frames.length)]. *)
Inductive saved :=
| Returned
| Pending
| Saved (strip : bitmap) (frameCount : nat).

(** Stitching draws frame [i] at [i * firstImg.width]; the draws are
    taken in index order.  The first frame is awaited alone, then every
    frame under [Promise.all]. *)
Definition stitchStep (firstWidth : nat) (canvas : bitmap)
    (entry : nat * bitmap) : bitmap :=
  drawImage (snd entry) (fst entry * firstWidth) 0 canvas.

Definition handleSave (frames : list bitmap) : saved :=
  match frames with
  | [] => Returned
  | firstImg :: _ =>
      if decodes firstImg then
        let totalWidth := (width firstImg * length frames)%nat in
        let height := height firstImg in
        let canvas := createCanvas totalWidth height in
        if forallb decodes frames then
          Saved (foldl (stitchStep (width firstImg)) canvas
                       (zip (seq 0 (length frames)) frames))
                (length frames)
        else Pending
      else Pending
  end.
End Pixels.

Arguments bitmap : clear implicits.
Arguments Bitmap {Px} _ _ _.
Arguments width {Px} _.
Arguments height {Px} _.
Arguments pixel {Px} _ _ _.
Arguments saved : clear implicits.
Arguments Returned {Px}.
Arguments Pending {Px}.
Arguments Saved {Px} _ _.
End Strip.

(* ===================================================================== *)
(** ** Number comparisons on rationals *)
(* ===================================================================== *)

(** [a < b] as the test a JavaScript [if] evaluates. *)
Definition Qltb (a b : Q) : bool := negb (Qle_bool b a).

(* ===================================================================== *)
(** ** Playback scheduler (AnimationModal.tsx, "ANIMATION LOOP") *)
(* ===================================================================== *)

Module Playback.

(** What the effect closes over: it is registered only while
    [frames.length] is not zero. *)
Record config := Config {
  framesLength : Z;
  fps : positive;
  isPlaying : bool;
  selectedFrameIdx : Z
}.

(** The arithmetic of one tick on JavaScript numbers: the truth test of
    [!x], an integer as a number, [a - b], [a / b] and [a > b]. *)
Class Number (T : Type) := {
  falsy : T → bool;
  ofPositive : positive → T;
  minus : T → T → T;
  divide : T → T → T;
  greater : T → T → bool
}.

(** The numbers the code runs on: IEEE 754 binary64, every operation
    rounded to nearest, ties to even.  [0], [-0] and [NaN] are falsy, and a
    comparison with [NaN] is false. *)
#[global] Instance binary64 : Number SpecFloat.spec_float := {|
  falsy x :=
    match x with
    | SpecFloat.S754_zero _ | SpecFloat.S754_nan => true
    | _ => false
    end;
  ofPositive p := SpecFloat.binary_normalize 53 1024 (Z.pos p) 0 false;
  minus := SpecFloat.SFsub 53 1024;
  divide := SpecFloat.SFdiv 53 1024;
  greater a b := SpecFloat.SFltb b a
|}.

(** The same operations without rounding, on rationals. *)
#[global] Instance exact : Number Q := {|
  falsy q := Qeq_bool q 0;
  ofPositive p := inject_Z (Z.pos p);
  minus := Qminus;
  divide := Qdiv;
  greater a b := Qltb b a
|}.

(** The two variables [animate] updates: the closure's [currentFrame]
    and [startTimeRef.current] ([None] is [undefined]). *)
Record loopState (T : Type) := LoopState {
  currentFrame : Z;
  startTime : option T
}.
Arguments LoopState {T} _ _.
Arguments currentFrame {T} _.
Arguments startTime {T} _.

(** [!startTimeRef.current]: [undefined] is falsy too. *)
Definition unset `{Number T} (t : option T) : bool :=
  match t with
  | None => true
  | Some x => falsy x
  end.

Definition animate `{Number T} (cfg : config) (st : loopState T) (time : T)
    : loopState T :=
  let start := if unset (startTime st) then time else default time (startTime st) in
  let deltaTime := minus time start in
  let interval := divide (ofPositive 1000) (ofPositive (fps cfg)) in
  if greater deltaTime interval then
    let currentFrame :=
      if isPlaying cfg then Z.rem (currentFrame st + 1) (framesLength cfg)
      else if selectedFrameIdx cfg <? framesLength cfg
           then selectedFrameIdx cfg else 0 in
    LoopState currentFrame (Some time)
  else LoopState (currentFrame st) (Some start).
End Playback.

(* ===================================================================== *)
(** ** Runtime preview (GamePlayground, "GAME LOOP") *)
(* ===================================================================== *)

Module Runtime.

Inductive moveState := idle | run | jump.

Record player := Player {
  x : Q;
  y : Q;
  vx : Q;
  vy : Q;
  width : Q;
  height : Q;
  state : moveState;
  facingRight : bool;
  grounded : bool;
  frameIndex : nat;
  frameTimer : nat
}.

(** Field assignments, [state.player.f = v]. *)
Definition set_x (v : Q) (p : player) : player :=
  Player v (y p) (vx p) (vy p) (width p) (height p) (state p) (facingRight p) (grounded p) (frameIndex p) (frameTimer p).
Definition set_y (v : Q) (p : player) : player :=
  Player (x p) v (vx p) (vy p) (width p) (height p) (state p) (facingRight p) (grounded p) (frameIndex p) (frameTimer p).
Definition set_vx (v : Q) (p : player) : player :=
  Player (x p) (y p) v (vy p) (width p) (height p) (state p) (facingRight p) (grounded p) (frameIndex p) (frameTimer p).
Definition set_vy (v : Q) (p : player) : player :=
  Player (x p) (y p) (vx p) v (width p) (height p) (state p) (facingRight p) (grounded p) (frameIndex p) (frameTimer p).
Definition set_state (v : moveState) (p : player) : player :=
  Player (x p) (y p) (vx p) (vy p) (width p) (height p) v (facingRight p) (grounded p) (frameIndex p) (frameTimer p).
Definition set_facingRight (v : bool) (p : player) : player :=
  Player (x p) (y p) (vx p) (vy p) (width p) (height p) (state p) v (grounded p) (frameIndex p) (frameTimer p).
Definition set_grounded (v : bool) (p : player) : player :=
  Player (x p) (y p) (vx p) (vy p) (width p) (height p) (state p) (facingRight p) v (frameIndex p) (frameTimer p).
Definition set_frameIndex (v : nat) (p : player) : player :=
  Player (x p) (y p) (vx p) (vy p) (width p) (height p) (state p) (facingRight p) (grounded p) v (frameTimer p).
Definition set_frameTimer (v : nat) (p : player) : player :=
  Player (x p) (y p) (vx p) (vy p) (width p) (height p) (state p) (facingRight p) (grounded p) (frameIndex p) v.

(** The shared input flags. *)
Record keys := Keys {
  left : bool;
  right : bool;
  up : bool;
  down : bool;
  space : bool
}.

(** A decoded image, by its size. *)
Record image := Image { imgWidth : Q; imgHeight : Q }.

Record assets := Assets {
  a_idle : option image;
  a_run : option image;
  a_jump : option image;
  a_tile : option image;
  a_bg : option image;
  a_enemy : option image
}.

Record meta := Meta {
  idleFrames : nat;
  runFrames : nat;
  jumpFrames : nat
}.

Record gameState := GameState {
  player_of : player;
  assets_of : assets;
  meta_of : meta
}.

(** The value of the [gameState] ref when the component mounts. *)
Definition initialState : gameState :=
  GameState
    (Player 100 0 0 0 32 32 idle true false 0 0)
    (Assets None None None None None None)
    (Meta 1 1 1).

(** [metadata?.frames || 1] *)
Definition framesOr1 (frames : option nat) : nat :=
  match frames with
  | Some (S n) => S n
  | Some O | None => 1
  end.

(** [loadGameAssets], after the name heuristics have picked the catalog
    entries: a character entry is its decoded image and its declared
    frame count, an entry without an image URL counts as absent. *)
Definition loadGameAssets
    (idleAsset runAsset jumpAsset : option (image * option nat))
    (tileAsset bgAsset enemyAsset : option image)
    (g : gameState) : gameState :=
  let p := player_of g in
  let p := set_vy 0 (set_vx 0 (set_y 200 (set_x 100 p))) in
  let a := assets_of g in
  let m := meta_of g in
  let '(idleImg, idleN) :=
    match idleAsset with
    | Some (img, n) => (Some img, framesOr1 n)
    | None => (a_idle a, idleFrames m)
    end in
  let '(runImg, runN) :=
    match runAsset with
    | Some (img, n) => (Some img, framesOr1 n)
    | None => (a_run a, runFrames m)
    end in
  let '(jumpImg, jumpN) :=
    match jumpAsset with
    | Some (img, n) => (Some img, framesOr1 n)
    | None => (a_jump a, jumpFrames m)
    end in
  let tileImg := match tileAsset with Some img => Some img | None => a_tile a end in
  let bgImg := match bgAsset with Some img => Some img | None => a_bg a end in
  let enemyImg := match enemyAsset with Some img => Some img | None => a_enemy a end in
(* Fallbacks if run/jump missing *)
let '(runImg, runN) :=
  match runImg with Some _ => (runImg, runN) | None => (idleImg, idleN) end in
let '(jumpImg, jumpN) :=
  match jumpImg with Some _ => (jumpImg, jumpN) | None => (idleImg, idleN) end in
GameState p (Assets idleImg runImg jumpImg tileImg bgImg enemyImg)
          (Meta idleN runN jumpN).

(** The canvas element is 800 by 450. *)
Definition canvasWidth : Q := 800.
Definition canvasHeight : Q := 450.

Definition friction : Q := 8 # 10.
Definition gravity : Q := 8 # 10.
Definition jumpForce : Q := - (15).
Definition floorY : Q := canvasHeight - 64.

(** *** The phases of one tick, in source order *)

Definition applyInput (k : keys) (p : player) : player :=
  let p := if right k then set_facingRight true (set_vx (vx p + 1) p) else p in
  let p := if left k then set_facingRight false (set_vx (vx p - 1) p) else p in
  p.

Definition applyPhysics (p : player) : player :=
  let p := set_vx (vx p * friction) p in
  let p := set_vy (vy p + gravity) p in
  let p := set_x (x p + vx p) p in
  let p := set_y (y p + vy p) p in
  p.

Definition floorCollision (p : player) : player :=
  if Qltb floorY (y p + height p)
  then set_grounded true (set_vy 0 (set_y (floorY - height p) p))
  else set_grounded false p.

Definition applyJump (k : keys) (p : player) : player :=
  if space k && grounded p
  then set_grounded false (set_vy jumpForce p)
  else p.

Definition stateMachine (p : player) : player :=
  if negb (grounded p) then set_state jump p
  else if Qltb (1 # 2) (Qabs (vx p)) then set_state run p
  else set_state idle p.

(** The platform's test: the player's box against the three tiles drawn
    at [300 .. 396], in a band of 10 below their top, while [vy > 0]. *)
Definition platformHit (p : player) : bool :=
  Qltb 300 (x p + 32) && Qltb (x p) 396
  && Qltb (floorY - 100) (y p + 32) && Qltb (y p + 32) (floorY - 90)
  && Qltb 0 (vy p).

(** The platform test sits in the branch that draws the tiles. *)
Definition platformCollision (tile : option image) (p : player) : player :=
  match tile with
  | Some _ =>
      if platformHit p
      then set_grounded true (set_vy 0 (set_y (floorY - 100 - 32) p))
      else p
  | None => p
  end.

(** [currentImg] and [totalFrames] for the player's state. *)
Definition activeSprite (a : assets) (m : meta) (s : moveState)
    : option image * nat :=
  match s with
  | run => (a_run a, runFrames m)
  | jump => (a_jump a, jumpFrames m)
  | idle => (a_idle a, idleFrames m)
  end.

Definition animatePlayer (currentImg : option image) (totalFrames : nat)
    (p : player) : player :=
  match currentImg with
  | Some _ =>
      let p := set_frameTimer (frameTimer p + 1) p in
      if (8 <? frameTimer p)%nat
      then set_frameTimer 0 (set_frameIndex ((frameIndex p + 1) mod totalFrames) p)
      else p
  | None => p
  end.

(** The player when the physics of a tick is done, before its animation
    step. *)
Definition settled (k : keys) (g : gameState) : player :=
  platformCollision (a_tile (assets_of g))
    (stateMachine (applyJump k (floorCollision
       (applyPhysics (applyInput k (player_of g)))))).

(** One call of [loop] with a canvas to draw on. *)
Definition loop (k : keys) (g : gameState) : gameState :=
  let p := player_of g in
  let p := applyInput k p in
  let p := applyPhysics p in
  let p := floorCollision p in
  let p := applyJump k p in
  let p := stateMachine p in
  let p := platformCollision (a_tile (assets_of g)) p in
  let '(currentImg, totalFrames) :=
    activeSprite (assets_of g) (meta_of g) (state p) in
  let p := animatePlayer currentImg totalFrames p in
  GameState p (assets_of g) (meta_of g).

(** The source rectangle of the player's [drawImage]: its left edge
    [frameIndex * frameW] and its width [frameW]. *)
Definition spriteSource (g : gameState) : option (Q * Q) :=
  let p := player_of g in
  let '(currentImg, totalFrames) :=
    activeSprite (assets_of g) (meta_of g) (state p) in
  match currentImg with
  | Some img =>
      let frameW := (imgWidth img / inject_Z (Z.of_nat totalFrames))%Q in
      Some ((inject_Z (Z.of_nat (frameIndex p)) * frameW)%Q, frameW)
  | None => None
  end.

(** Consecutive ticks, one input snapshot per tick. *)
Definition ticks (ks : list keys) (g : gameState) : gameState :=
  foldl (λ g k, loop k g) g ks.

Definition noKeys : keys := Keys false false false false false.
End Runtime.

(* ===================================================================== *)
(** ** Bucket tool (EditModal, [floodFill]) *)
(* ===================================================================== *)

Module Flood.

(** [ctx.getImageData(0, 0, width, height)]: the canvas size and the
    RGBA bytes, four per pixel, row by row. *)
Record imageData := ImageData {
  width : Z;
  height : Z;
  data : list Z
}.

Definition wellFormed (img : imageData) : Prop :=
  0 ≤ width img ∧ 0 ≤ height img
  ∧ length (data img) = Z.to_nat (width img * height img * 4).

(** The three channels [parseInt] reads from the two-digit hex fields of
    [fillColor]; each is a byte. *)
Record color := Color { red : Z; green : Z; blue : Z }.

Definition isColor (c : color) : Prop :=
  0 ≤ red c ≤ 255 ∧ 0 ≤ green c ≤ 255 ∧ 0 ≤ blue c ≤ 255.

(** [data[i]]: [undefined] outside the array. *)
Definition read (data : list Z) (i : Z) : option Z :=
  if i <? 0 then None else data !! Z.to_nat i.

(** The value a [Uint8ClampedArray] keeps of an integer. *)
Definition clamp8 (v : Z) : Z := Z.max 0 (Z.min 255 v).

(** [data[i] = v]: the array clamps the value and ignores a store
    outside it. *)
Definition write (data : list Z) (i : Z) (v : Z) : list Z :=
  if i <? 0 then data else <[Z.to_nat i := clamp8 v]> data.

Definition getPixel (width height px py : Z) : Z :=
  if (px <? 0) || (py <? 0) || (px >=? width) || (py >=? height) then -1
  else (py * width + px) * 4.

(** [a === b] on numbers that may be [undefined]. *)
Definition same (a b : option Z) : bool := bool_decide (a = b).

Section Loop.
Variables width height : Z.
Variables r g b a : Z.
Variables startR startG startB startA : option Z.

(** The condition of the [if] in the loop. *)
Definition isSource (data : list Z) (idx : Z) : bool :=
  negb (idx =? -1)
  && same (read data idx) startR && same (read data (idx + 1)) startG
  && same (read data (idx + 2)) startB && same (read data (idx + 3)) startA.

Definition paint (data : list Z) (idx : Z) : list Z :=
  let data := write data idx r in
  let data := write data (idx + 1) g in
  let data := write data (idx + 2) b in
  let data := write data (idx + 3) a in
  data.

(** [while (stack.length)]: the head of the list is the top of the
    stack; [None] when the iterations allowed run out. *)
Fixpoint fillLoop (fuel : nat) (data : list Z) (stack : list (Z * Z))
    : option (list Z) :=
  match stack with
  | [] => Some data
  | (cx, cy) :: stack =>
      match fuel with
      | O => None
      | S fuel =>
          let idx := getPixel width height cx cy in
          if isSource data idx
          then fillLoop fuel (paint data idx)
                 ((cx, cy - 1) :: (cx, cy + 1) :: (cx - 1, cy) :: (cx + 1, cy)
                  :: stack)
          else fillLoop fuel data stack
      end
  end.
End Loop.

(** The canvas contents after [floodFill(x, y, fillColor)].  The loop is
    given one iteration per byte of the buffer and one more, which is
    enough for it to empty its stack (see [floodFill_returns]). *)
Definition floodFill (img : imageData) (x y : Z) (fillColor : color)
    : option imageData :=
  let width := width img in
  let height := height img in
  let data := data img in
  let r := red fillColor in
  let g := green fillColor in
  let b := blue fillColor in
  let a := 255 in
  let startIdx := getPixel width height x y in
  let startR := read data startIdx in
  let startG := read data (startIdx + 1) in
  let startB := read data (startIdx + 2) in
  let startA := read data (startIdx + 3) in
  if same startR (Some r) && same startG (Some g)
     && same startB (Some b) && same startA (Some a)
  then Some img
  else
    match fillLoop width height r g b a startR startG startB startA
            (S (length data)) data [(x, y)] with
    | Some data => Some (ImageData width height data)
    | None => None
    end.

(** *** Vocabulary for the statements *)

Definition rgba : Type := option Z * option Z * option Z * option Z.

(** The four bytes at byte index [i]. *)
Definition quad (d : list Z) (i : Z) : rgba :=
  (read d i, read d (i + 1), read d (i + 2), read d (i + 3)).

(** How many of the first [n] pixels pass the loop's test. *)
Fixpoint sources (startR startG startB startA : option Z) (d : list Z)
    (n : nat) : nat :=
  match n with
  | O => 0
  | S m =>
      ((if isSource startR startG startB startA d (Z.of_nat m * 4) then 1 else 0)
       + sources startR startG startB startA d m)%nat
  end.

Definition inBounds (img : imageData) (px py : Z) : Prop :=
  0 ≤ px < width img ∧ 0 ≤ py < height img.

(** The four bytes of pixel [(px, py)]. *)
Definition pixelAt (img : imageData) (px py : Z) : rgba :=
  let idx := getPixel (width img) (height img) px py in
  (read (data img) idx, read (data img) (idx + 1),
   read (data img) (idx + 2), read (data img) (idx + 3)).

(** The fill color as the loop stores it: fully opaque. *)
Definition opaque (c : color) : rgba :=
  (Some (red c), Some (green c), Some (blue c), Some 255).

Definition adjacent (p q : Z * Z) : Prop :=
  q = (p.1, p.2 - 1) ∨ q = (p.1, p.2 + 1) ∨ q = (p.1 - 1, p.2) ∨ q = (p.1 + 1, p.2).

(** The pixels 4-connected to [(x, y)] through pixels of [(x, y)]'s color. *)
Inductive region (img : imageData) (x y : Z) : Z → Z → Prop :=
  | region_start :
      inBounds img x y → region img x y x y
  | region_step cx cy nx ny :
      region img x y cx cy → adjacent (cx, cy) (nx, ny) →
      inBounds img nx ny → pixelAt img nx ny = pixelAt img x y →
      region img x y nx ny.

(** The color at [(cx, cy)] in a buffer [d] of [img0]'s size. *)
Definition col (img0 : imageData) (d : list Z) (cx cy : Z) : rgba :=
  pixelAt (ImageData (width img0) (height img0) d) cx cy.

(** What holds of the buffer [d] and the stack at the head of the loop of
    [floodFill img0 x y fc]: painted pixels are region pixels with the fill
    color, stack entries of the start color are region pixels, a painted
    pixel's region neighbours are painted or stacked, and so is the start. *)
Record inv (img0 : imageData) (x y : Z) (fc : color) (d : list Z)
    (stack : list (Z * Z)) : Prop := Inv {
  inv_len : length d = length (data img0);
  inv_painted : ∀ cx cy, inBounds img0 cx cy →
    col img0 d cx cy = pixelAt img0 cx cy
    ∨ (region img0 x y cx cy ∧ col img0 d cx cy = opaque fc);
  inv_stack : ∀ cx cy, (cx, cy) ∈ stack → inBounds img0 cx cy →
    pixelAt img0 cx cy = pixelAt img0 x y → region img0 x y cx cy;
  inv_frontier : ∀ cx cy nx ny,
    region img0 x y cx cy → col img0 d cx cy = opaque fc →
    adjacent (cx, cy) (nx, ny) → region img0 x y nx ny →
    col img0 d nx ny = opaque fc ∨ (nx, ny) ∈ stack;
  inv_start : col img0 d x y = opaque fc ∨ (x, y) ∈ stack
}.

(** An image from its rows of pixels. *)
Definition bytes (p : Z * Z * Z * Z) : list Z :=
  let '(r, g, b, a) := p in [r; g; b; a].

Definition ofRows (width height : Z) (rows : list (list (Z * Z * Z * Z)))
    : imageData :=
  ImageData width height (concat (map bytes (concat rows))).

(** The 3×3 checkerboard with [A] in the corners and the centre. *)
Definition checkerboard (A B : Z * Z * Z * Z) : imageData :=
  ofRows 3 3 [[A; B; A]; [B; A; B]; [A; B; A]].
End Flood.

(* ===================================================================== *)
(** ** Two playground sessions *)
(* ===================================================================== *)

Module Scenario.
Import Runtime.

(** A catalog with a one-frame idle sprite and a four-frame jump strip,
    no run sprite (so the idle one stands in), as [loadGameAssets] leaves
    the state; [hero] has no tile bitmap, [heroTiled] has one. *)
Definition hero : gameState :=
  loadGameAssets (Some (Image 32 32, Some 1%nat)) None
                 (Some (Image 128 32, Some 4%nat))
                 None None None initialState.

Definition heroTiled : gameState :=
  loadGameAssets (Some (Image 32 32, Some 1%nat)) None
                 (Some (Image 128 32, Some 4%nat))
                 (Some (Image 32 32)) None None initialState.

Definition holdRight : keys := Keys false true false false false.
Definition holdRightJump : keys := Keys false true false false true.

(** Run to the right, jump on tick 46, keep running: on tick 74 the fall
    crosses the platform band. *)
Definition leap : list keys :=
  replicate 45 holdRight ++ [holdRightJump] ++ replicate 28 holdRight.
End Scenario.

(* ===================================================================== *)
(** ** Timeline editor: the remaining controls (AnimationModal.tsx) *)
(* ===================================================================== *)

Module Editor.
Section Frames.
Context {A : Type}.
Variable undefined : A.

(** [arr.splice(start, 0, item)]: a negative start counts from the end,
    and the start is clamped into the array. *)
Definition spliceInsert (arr : list A) (start : Z) (item : A) : list A :=
  let len := Z.of_nat (length arr) in
  let from := if start <? 0 then Z.max (len + start) 0 else Z.min start len in
  take (Z.to_nat from) arr ++ item :: drop (Z.to_nat from) arr.

Definition duplicateFrame (idx : Z) (st : Timeline.state (A:=A))
    : Timeline.state (A:=A) :=
  let newFrames := Timeline.frames st in
  let newFrames :=
    spliceInsert newFrames (idx + 1) (JsArray.get undefined newFrames idx) in
  Timeline.State newFrames (idx + 1).

(** The component state the controls below the preview read and set. *)
Record session := Session {
  timeline : Timeline.state (A:=A);
  isPlaying : bool;
  fps : positive
}.

(** One user action: a click on a frame thumbnail, one of the buttons on
    the selected thumbnail, the play button, the speed slider. *)
Inductive action :=
  | ClickFrame (idx : Z)
  | Move (idx : Z) (dir : Timeline.direction)
  | Delete (idx : Z)
  | Duplicate (idx : Z)
  | TogglePlay
  | SetFps (value : positive).

Definition act (a : action) (s : session) : session :=
  match a with
  | ClickFrame idx =>
      Session (Timeline.State (Timeline.frames (timeline s)) idx) false (fps s)
  | Move idx dir =>
      Session (Timeline.moveFrame undefined idx dir (timeline s)) (isPlaying s) (fps s)
  | Delete idx =>
      Session (Timeline.deleteFrame idx (timeline s)) (isPlaying s) (fps s)
  | Duplicate idx =>
      Session (duplicateFrame idx (timeline s)) (isPlaying s) (fps s)
  | TogglePlay => Session (timeline s) (negb (isPlaying s)) (fps s)
  | SetFps value => Session (timeline s) (isPlaying s) value
  end.

(** The index an action carries, if any: the controls are rendered per
    thumbnail, so it is the index of a frame. *)
Definition target (a : action) : option Z :=
  match a with
  | ClickFrame idx | Move idx _ | Delete idx | Duplicate idx => Some idx
  | TogglePlay | SetFps _ => None
  end.

Definition onFrame (a : action) (s : session) : Prop :=
  match target a with
  | Some idx => 0 ≤ idx < Z.of_nat (length (Timeline.frames (timeline s)))
  | None => True
  end.

(** A run of actions, each aimed at a frame of the timeline it finds. *)
Inductive run : session → list action → session → Prop :=
  | run_nil s : run s [] s
  | run_cons s a rest s' :
      onFrame a s → run (act a s) rest s' → run s (a :: rest) s'.

(** At least one frame, and the selection names one of them. *)
Definition sound (s : session) : Prop :=
  (1 ≤ length (Timeline.frames (timeline s)))%nat
  ∧ 0 ≤ Timeline.selectedFrameIdx (timeline s)
      < Z.of_nat (length (Timeline.frames (timeline s))).
End Frames.

Arguments session : clear implicits.
Arguments Session {A} _ _ _.
Arguments timeline {A} _.
Arguments isPlaying {A} _.
Arguments fps {A} _.
Arguments action : clear implicits.
Arguments sound {A} _.
End Editor.

(* ===================================================================== *)
(** ** Playback over many ticks, and where the frame is drawn
       (AnimationModal.tsx, "ANIMATION LOOP") *)
(* ===================================================================== *)

Module Preview.

(** The test [deltaTime > interval] of one tick. *)
Definition due `{Playback.Number T} (cfg : Playback.config)
    (st : Playback.loopState T) (time : T) : bool :=
  let start :=
    if Playback.unset (Playback.startTime st) then time
    else default time (Playback.startTime st) in
  Playback.greater (Playback.minus time start)
    (Playback.divide (Playback.ofPositive 1000)
       (Playback.ofPositive (Playback.fps cfg))).

(** The display callbacks at the given times, one after the other, under
    one registration of the effect. *)
Definition play `{Playback.Number T} (cfg : Playback.config) (times : list T)
    (st : Playback.loopState T) : Playback.loopState T :=
  foldl (Playback.animate cfg) st times.

(** How many of these callbacks passed the test. *)
Fixpoint advances `{Playback.Number T} (cfg : Playback.config) (times : list T)
    (st : Playback.loopState T) : nat :=
  match times with
  | [] => 0
  | time :: rest =>
      ((if due cfg st time then 1 else 0)
       + advances cfg rest (Playback.animate cfg st time))%nat
  end.

(** The rectangle [ctx.drawImage(img, drawX, drawY, drawW, drawH)] is given. *)
Record placement := Placement {
  drawX : Q;
  drawY : Q;
  drawW : Q;
  drawH : Q
}.

(** "Calculate containment scale": the frame [imgW] by [imgH] on a canvas
    [canvasW] by [canvasH]. *)
Definition place (canvasW canvasH imgW imgH : Q) : placement :=
  let scale := (Qmin (canvasW / imgW) (canvasH / imgH) * (8 # 10))%Q in
  let drawW := (imgW * scale)%Q in
  let drawH := (imgH * scale)%Q in
  let drawX := ((canvasW - drawW) / 2)%Q in
  let drawY := ((canvasH - drawH) / 2)%Q in
  Placement drawX drawY drawW drawH.
End Preview.

(* ===================================================================== *)
(** ** Pixel editor: colors as text, the palette and the tools (EditModal) *)
(* ===================================================================== *)

Module Pixel.

(** *** Numbers and text *)

(** [ToInt32], the range of the bit operators. *)
Definition toInt32 (v : Z) : Z := (v + 2 ^ 31) mod 2 ^ 32 - 2 ^ 31.

(** [v << k] *)
Definition shl (v k : Z) : Z := toInt32 (v * 2 ^ k).

Definition hexChar (d : Z) : ascii :=
  match d with
  | 0 => "0" | 1 => "1" | 2 => "2" | 3 => "3" | 4 => "4" | 5 => "5" | 6 => "6"
  | 7 => "7" | 8 => "8" | 9 => "9" | 10 => "a" | 11 => "b" | 12 => "c"
  | 13 => "d" | 14 => "e" | _ => "f"
  end%char.

(** The digits of [n > 0] in base 16 in front of [acc]; [fuel + 1] digits
    at most. *)
Fixpoint hexDigits (fuel : nat) (n : Z) (acc : string) : string :=
  let acc := String (hexChar (n mod 16)) acc in
  match fuel with
  | O => acc
  | S fuel => if n / 16 =? 0 then acc else hexDigits fuel (n / 16) acc
  end.

(** [n.toString(16)] for an integer: [log2 n] bounds the digits needed. *)
Definition toString16 (n : Z) : string :=
  if n <? 0 then String "-" (hexDigits (Z.to_nat (Z.log2 (- n))) (- n) "")
  else hexDigits (Z.to_nat (Z.log2 n)) n "".

(** [s.slice(from, to)] for indices inside [0 ≤ from ≤ to]. *)
Definition slice (from to : nat) (s : string) : string :=
  String.substring from (to - from) s.

(** [s.slice(from)] *)
Definition sliceFrom (from : nat) (s : string) : string :=
  String.substring from (String.length s - from) s.

(** The template [`#${((1 << 24) + (r << 16) + (g << 8) + b).toString(16).slice(1)}`]. *)
Definition colorHex (r g b : Z) : string :=
  String "#" (sliceFrom 1 (toString16 (shl 1 24 + shl r 16 + shl g 8 + b))).

Definition hexValue (c : ascii) : option Z :=
  let n := Z.of_nat (nat_of_ascii c) in
  if (48 <=? n) && (n <=? 57) then Some (n - 48)
  else if (97 <=? n) && (n <=? 102) then Some (n - 87)
  else if (65 <=? n) && (n <=? 70) then Some (n - 55)
  else None.

(** White space [parseInt] skips, among the characters a [string] holds. *)
Definition isSpace (c : ascii) : bool :=
  let n := nat_of_ascii c in
  ((9 <=? n) && (n <=? 13) || (n =? 32) || (n =? 160))%nat.

Fixpoint skipSpace (s : string) : string :=
  match s with
  | String c rest => if isSpace c then skipSpace rest else s
  | EmptyString => s
  end.

(** The value of the longest prefix of hex digits, after the digits read
    so far; [seen] tells whether there was any. *)
Fixpoint digitsValue (s : string) (seen : bool) (acc : Z) : option Z :=
  match s with
  | String c rest =>
      match hexValue c with
      | Some d => digitsValue rest true (acc * 16 + d)
      | None => if seen then Some acc else None
      end
  | EmptyString => if seen then Some acc else None
  end.

(** [parseInt(s, 16)]; [None] is [NaN]. *)
Definition parseInt16 (s : string) : option Z :=
  let s := skipSpace s in
  let '(sign, s) :=
    match s with
    | String "-" rest => (-1, rest)
    | String "+" rest => (1, rest)
    | _ => (1, s)
    end in
  let s :=
    match s with
    | String "0" (String "x" rest) | String "0" (String "X" rest) => rest
    | _ => s
    end in
  match digitsValue s false 0 with
  | Some v => Some (sign * v)
  | None => None
  end.

(** "Hex to RGBA" in [floodFill]: the three channels of a color text, when
    all three are numbers. *)
Definition parseColor (fillColor : string) : option Flood.color :=
  match parseInt16 (slice 1 3 fillColor), parseInt16 (slice 3 5 fillColor),
        parseInt16 (slice 5 7 fillColor) with
  | Some r, Some g, Some b => Some (Flood.Color r g b)
  | _, _, _ => None
  end.

(** A fill style of the form [#rrggbb], the form the editor's color always
    has; [None] for any other text, which is not modelled. *)
Definition fillStyleColor (style : string) : option Flood.color :=
  match style with
  | String "#" digits =>
      if (String.length digits =? 6)%nat
         && forallb (λ c, bool_decide (is_Some (hexValue c))) (list_ascii_of_string digits)
      then parseColor style else None
  | _ => None
  end.

(** *** The palette *)

(** The color text of every pixel with [a > 0], in scan order; a trailing
    short group has no alpha and is skipped. *)
Fixpoint paletteKeys (data : list Z) : list string :=
  match data with
  | r :: g :: b :: a :: rest =>
      (if 0 <? a then [colorHex r g b] else []) ++ paletteKeys rest
  | _ => []
  end.

(** [colorSet.add(hex)]: a [Set] keeps insertion order. *)
Definition setAdd (colorSet : list string) (hex : string) : list string :=
  if decide (hex ∈ colorSet) then colorSet else colorSet ++ [hex].

Definition colorSetOf (keys : list string) : list string :=
  foldl setAdd [] keys.

(** The palette [extractPalette] stores. *)
Definition extractPalette (img : Flood.imageData) : list string :=
  take 20 (colorSetOf (paletteKeys (Flood.data img))).

(** *** The tools *)

Inductive Tool := brush | eraser | bucket | picker.

(** The editor state the mouse handlers read and set, with the canvas. *)
Record editor := Editor {
  tool : Tool;
  color : string;
  isDrawing : bool;
  canvas : Flood.imageData
}.

(** [ctx.getImageData(x, y, 1, 1).data]: outside the canvas it is
    transparent black. *)
Definition pixelData (img : Flood.imageData) (x y : Z) : list Z :=
  let idx := Flood.getPixel (Flood.width img) (Flood.height img) x y in
  if idx =? -1 then [0; 0; 0; 0]
  else map (λ k, default 0 (Flood.read (Flood.data img) (idx + k))) [0; 1; 2; 3].

(** One pixel set to the given bytes: [fillRect(x, y, 1, 1)] with an
    opaque fill style and [clearRect(x, y, 1, 1)]; outside the canvas
    nothing is drawn. *)
Definition setPixel (img : Flood.imageData) (x y : Z) (r g b a : Z)
    : Flood.imageData :=
  let idx := Flood.getPixel (Flood.width img) (Flood.height img) x y in
  if idx =? -1 then img
  else Flood.ImageData (Flood.width img) (Flood.height img)
         (Flood.paint r g b a (Flood.data img) idx).

(** [drawPixel(x, y)].  [None] stands for what is not modelled: a color
    text whose channels are not numbers. *)
Definition drawPixel (x y : Z) (ed : editor) : option editor :=
  match tool ed with
  | picker =>
      match pixelData (canvas ed) x y with
      | r :: g :: b :: _ =>
          Some (Editor brush (colorHex r g b) (isDrawing ed) (canvas ed))
      | _ => None
      end
  | bucket =>
      match parseColor (color ed) with
      | Some c =>
          match Flood.floodFill (canvas ed) x y c with
          | Some img => Some (Editor (tool ed) (color ed) (isDrawing ed) img)
          | None => None
          end
      | None => None
      end
  | eraser =>
      Some (Editor (tool ed) (color ed) (isDrawing ed)
              (setPixel (canvas ed) x y 0 0 0 0))
  | brush =>
      match fillStyleColor (color ed) with
      | Some c =>
          Some (Editor (tool ed) (color ed) (isDrawing ed)
                  (setPixel (canvas ed) x y
                     (Flood.red c) (Flood.green c) (Flood.blue c) 255))
      | None => None
      end
  end.

(** The mouse handlers, at the canvas pixel the pointer is over. *)
Definition handleMouseDown (x y : Z) (ed : editor) : option editor :=
  drawPixel x y (Editor (tool ed) (color ed) true (canvas ed)).

Definition handleMouseMove (x y : Z) (ed : editor) : option editor :=
  if negb (isDrawing ed) then Some ed
  else match tool ed with
       | bucket | picker => Some ed
       | _ => drawPixel x y ed
       end.

Definition handleMouseUp (ed : editor) : editor :=
  Editor (tool ed) (color ed) false (canvas ed).

(** The mouse moves of a drag, in order. *)
Fixpoint moves (points : list (Z * Z)) (ed : editor) : option editor :=
  match points with
  | [] => Some ed
  | (x, y) :: rest =>
      match handleMouseMove x y ed with
      | Some ed => moves rest ed
      | None => None
      end
  end.

(** A whole gesture: button down at [start], the moves, button up. *)
Definition gesture (start : Z * Z) (points : list (Z * Z)) (ed : editor)
    : option editor :=
  match handleMouseDown start.1 start.2 ed with
  | Some ed =>
      match moves points ed with
      | Some ed => Some (handleMouseUp ed)
      | None => None
      end
  | None => None
  end.

(** Every byte of the buffer is a byte. *)
Definition bytesOnly (img : Flood.imageData) : Prop :=
  Forall (λ v, 0 ≤ v ≤ 255) (Flood.data img).
End Pixel.

(* ===================================================================== *)
(** ** The catalog update both editors call on save ([handleSaveAsset]) *)
(* ===================================================================== *)

Module Catalog.

Inductive category := Characters | Environment | UI.
Inductive status := pending | generating | done | error.

Record metadata := Metadata {
  metaWidth : option Z;
  metaHeight : option Z;
  frames : option nat
}.

Record gameAsset := GameAsset {
  id : string;
  assetCategory : category;
  group : option string;
  name : string;
  filename : string;
  description : string;
  assetStatus : status;
  imageUrl : option string;
  assetMetadata : option metadata
}.

Record plan := Plan {
  theme : string;
  paletteDescription : string;
  designDocs : string;
  assets : list gameAsset;
  masterStyleImage : option string
}.

(** [a.metadata?.frames] *)
Definition framesOf (a : gameAsset) : option nat :=
  match assetMetadata a with
  | Some m => frames m
  | None => None
  end.

(** The object [{ ...a.metadata, frames: f }]. *)
Definition withFrames (m : option metadata) (f : option nat) : metadata :=
  match m with
  | Some m => Metadata (metaWidth m) (metaHeight m) f
  | None => Metadata None None f
  end.

(** The updater passed to [setPlan]; [newFrameCount] is [None] when the
    caller gives two arguments. *)
Definition handleSaveAsset (assetId newImageUrl : string)
    (newFrameCount : option nat) (prev : option plan) : option plan :=
  match prev with
  | None => None
  | Some prev =>
      let found := List.find (λ a, bool_decide (id a = assetId)) (assets prev) in
      let foundUrl := match found with Some a => imageUrl a | None => None end in
      let isMaster := bool_decide (foundUrl = masterStyleImage prev) in
      Some (Plan (theme prev) (paletteDescription prev) (designDocs prev)
              (map (λ a,
                      if bool_decide (id a = assetId)
                      then GameAsset (id a) (assetCategory a) (group a) (name a)
                             (filename a) (description a) done (Some newImageUrl)
                             (Some (withFrames (assetMetadata a)
                                      (match newFrameCount with
                                       | Some n => Some n
                                       | None => framesOf a
                                       end)))
                      else a)
                   (assets prev))
              (if isMaster then Some newImageUrl else masterStyleImage prev))
  end.
End Catalog.

(* ===================================================================== *)
(** * Properties *)
(* ===================================================================== *)

(** ** Timeline *)

Section TimelineFacts.
Context {A : Type}.
Variable undefined : A.
Implicit Types (l : list A) (st : Timeline.state (A:=A)).

Lemma filter_from_length k keep l :
  (length (JsArray.filter_from k keep l) ≤ length l)%nat.
Proof.
  revert k; induction l as [|x l IH]; intros k; simpl; [lia|].
  destruct (keep k x); simpl; specialize (IH (S k)); lia.
Qed.

(** Dropping the one index [k + i] is [delete i]. *)
Lemma filter_from_delete k (i : nat) l :
  JsArray.filter_from k (λ j _, negb (Z.of_nat j =? Z.of_nat (k + i))) l
  = delete i l.
Proof.
  revert k i; induction l as [|x l IH]; intros k i; simpl; [by destruct i|].
  destruct i as [|i].
  - replace (Z.of_nat k =? Z.of_nat (k + 0)) with true
      by (symmetry; apply Z.eqb_eq; lia).
    simpl. clear IH. revert k.
    assert (∀ m k, (k < m)%nat →
      JsArray.filter_from m (λ j _, negb (Z.of_nat j =? Z.of_nat (k + 0))) l = l)
      as Hkeep.
    { induction l as [|y l IHl]; intros m k Hm; simpl; [done|].
      replace (Z.of_nat m =? Z.of_nat (k + 0)) with false
        by (symmetry; apply Z.eqb_neq; lia).
      simpl. f_equal. apply IHl. lia. }
    intros k. apply Hkeep. lia.
  - replace (Z.of_nat k =? Z.of_nat (k + S i)) with false
      by (symmetry; apply Z.eqb_neq; lia).
    simpl. f_equal.
    replace (k + S i)%nat with (S k + i)%nat by lia. apply IH.
Qed.

(** An index outside the array removes nothing. *)
Lemma filter_from_outside k (idx : Z) l :
  (idx < Z.of_nat k ∨ Z.of_nat (k + length l) ≤ idx) →
  JsArray.filter_from k (λ j _, negb (Z.of_nat j =? idx)) l = l.
Proof.
  revert k; induction l as [|x l IH]; intros k Hout; simpl; [done|].
  simpl in Hout.
  replace (Z.of_nat k =? idx) with false by (symmetry; apply Z.eqb_neq; lia).
  simpl. f_equal. apply IH. lia.
Qed.

Lemma filter_delete (idx : Z) l :
  0 ≤ idx →
  JsArray.filter (λ j _, negb (Z.of_nat j =? idx)) l = delete (Z.to_nat idx) l.
Proof.
  intros Hidx. unfold JsArray.filter.
  rewrite <- (filter_from_delete 0 (Z.to_nat idx) l).
  replace (Z.of_nat (0 + Z.to_nat idx)) with idx by lia. done.
Qed.

Lemma deleteFrame_length idx st :
  (1 ≤ length (Timeline.frames st))%nat →
  (1 ≤ length (Timeline.frames (Timeline.deleteFrame idx st)))%nat.
Proof.
  intros Hlen. unfold Timeline.deleteFrame.
  destruct (length (Timeline.frames st) <=? 1)%nat eqn:Hle; [done|].
  apply Nat.leb_gt in Hle. simpl. unfold JsArray.filter.
  destruct (decide (0 ≤ idx < Z.of_nat (length (Timeline.frames st)))) as [Hin|Hout].
  - fold (JsArray.filter (λ j _, negb (Z.of_nat j =? idx)) (Timeline.frames st)).
    rewrite filter_delete by lia. rewrite length_delete.
    + lia.
    + apply lookup_lt_is_Some. lia.
  - rewrite filter_from_outside; simpl; lia.
Qed.
End TimelineFacts.

Section TimelineMoves.
Context {A : Type}.
Variable undefined : A.
Implicit Types (l : list A) (st : Timeline.state (A:=A)).

Lemma get_in_range l (i : nat) x :
  l !! i = Some x → JsArray.get undefined l (Z.of_nat i) = x.
Proof.
  intros Hx. unfold JsArray.get.
  destruct (Z.of_nat i <? 0) eqn:Hneg; [apply Z.ltb_lt in Hneg; lia|].
  by rewrite Nat2Z.id, Hx.
Qed.

Lemma set_in_range l (i : nat) v :
  (i < length l)%nat → JsArray.set undefined l (Z.of_nat i) v = <[i := v]> l.
Proof.
  intros Hi. unfold JsArray.set.
  destruct (Z.of_nat i <? 0) eqn:Hneg; [apply Z.ltb_lt in Hneg; lia|].
  destruct (Z.of_nat i <? Z.of_nat (length l)) eqn:Hlt.
  - by rewrite Nat2Z.id.
  - apply Z.ltb_ge in Hlt. lia.
Qed.

(** With both indices inside the array the destructuring assignment of
    [moveFrame] is two in-place updates. *)
Lemma moveFrame_inside (i t : nat) dir st x y :
  Z.of_nat t = Z.of_nat i + Timeline.offset dir →
  Timeline.frames st !! i = Some x →
  Timeline.frames st !! t = Some y →
  Timeline.moveFrame undefined (Z.of_nat i) dir st
  = Timeline.State (<[t := x]> (<[i := y]> (Timeline.frames st))) (Z.of_nat t).
Proof.
  intros Ht Hx Hy. unfold Timeline.moveFrame. rewrite <- Ht.
  pose proof (lookup_lt_Some _ _ _ Hx) as Hi.
  pose proof (lookup_lt_Some _ _ _ Hy) as Htl.
  destruct (Z.of_nat t <? 0) eqn:E1; [apply Z.ltb_lt in E1; lia|].
  destruct (Z.of_nat t >=? Z.of_nat (length (Timeline.frames st))) eqn:E2;
    [apply Z.geb_le in E2; lia|].
  simpl.
  rewrite (get_in_range _ _ _ Hx), (get_in_range _ _ _ Hy).
  rewrite (set_in_range (Timeline.frames st) i) by done.
  rewrite set_in_range by (rewrite length_insert; done).
  done.
Qed.

Lemma swap_back l (i t : nat) x y :
  l !! i = Some x → l !! t = Some y →
  <[i := x]> (<[t := y]> (<[t := x]> (<[i := y]> l))) = l.
Proof.
  intros Hx Hy.
  pose proof (lookup_lt_Some _ _ _ Hx) as Hi.
  pose proof (lookup_lt_Some _ _ _ Hy) as Ht.
  apply list_eq. intros j.
  destruct (decide (j = i)) as [->|Hji].
  - rewrite list_lookup_insert_eq by (rewrite !length_insert; done). done.
  - rewrite list_lookup_insert_ne by done.
    destruct (decide (j = t)) as [->|Hjt].
    + rewrite list_lookup_insert_eq by (rewrite !length_insert; done). done.
    + rewrite !list_lookup_insert_ne by done. done.
Qed.
End TimelineMoves.

(** C7.  [deleteFrame] leaves a one-frame timeline as it is, so no run of
    delete clicks on a timeline of at least one frame empties it; on a
    longer timeline it removes element [idx], and a selection that was in
    range is in range afterwards, being set to the last index when the
    shorter timeline no longer reaches it. *)
Theorem deleteFrame_keeps_one_frame {A : Type} (idxs : list Z) (idx : Z)
    (st : Timeline.state (A:=A)) :
  (1 ≤ length (Timeline.frames st))%nat →
  (length (Timeline.frames st) = 1%nat → Timeline.deleteFrame idx st = st)
  ∧ (1 ≤ length (Timeline.frames (Timeline.deleteAll idxs st)))%nat
  ∧ ((2 ≤ length (Timeline.frames st))%nat →
     0 ≤ idx < Z.of_nat (length (Timeline.frames st)) →
     let st' := Timeline.deleteFrame idx st in
     let n' := Z.of_nat (length (Timeline.frames st')) in
     Timeline.frames st' = delete (Z.to_nat idx) (Timeline.frames st)
     ∧ n' = Z.of_nat (length (Timeline.frames st)) - 1
     ∧ (n' ≤ Timeline.selectedFrameIdx st → Timeline.selectedFrameIdx st' = n' - 1)
     ∧ (Timeline.selectedFrameIdx st < n' →
        Timeline.selectedFrameIdx st' = Timeline.selectedFrameIdx st)).
Proof.
  intros Hlen. split; [|split].
  - intros H1. unfold Timeline.deleteFrame. by rewrite H1.
  - revert st Hlen. induction idxs as [|i idxs IH]; intros st Hlen; [done|].
    unfold Timeline.deleteAll. simpl. apply IH. by apply deleteFrame_length.
  - intros H2 Hidx. unfold Timeline.deleteFrame.
    destruct (length (Timeline.frames st) <=? 1)%nat eqn:Hle;
      [apply Nat.leb_le in Hle; lia|].
    cbn zeta. simpl Timeline.frames. simpl Timeline.selectedFrameIdx.
    assert (JsArray.filter (λ i _, negb (Z.of_nat i =? idx)) (Timeline.frames st)
            = delete (Z.to_nat idx) (Timeline.frames st)) as Hdel.
    { apply filter_delete. lia. }
    rewrite Hdel.
    assert (length (delete (Z.to_nat idx) (Timeline.frames st))
            = (length (Timeline.frames st) - 1)%nat) as Hn.
    { rewrite length_delete; [lia|]. apply lookup_lt_is_Some. lia. }
    rewrite Hn. repeat split.
    + lia.
    + intros Hsel.
      destruct (Timeline.selectedFrameIdx st
                >=? Z.of_nat (length (Timeline.frames st) - 1)) eqn:E; [done|].
      rewrite Z.geb_leb in E. apply Z.leb_gt in E. lia.
    + intros Hsel.
      destruct (Timeline.selectedFrameIdx st
                >=? Z.of_nat (length (Timeline.frames st) - 1)) eqn:E; [|done].
      rewrite Z.geb_leb in E. apply Z.leb_le in E. lia.
Qed.

Lemma deleteFrame_keeps_one_frame_witness :
  let clicks : list Z := [0; 0; 7; 0; 1] in
  let st := Timeline.State [10; 20; 30]%nat 2 in
  (1 ≤ length (Timeline.frames (Timeline.deleteAll clicks st)))%nat.
Proof.
  apply (deleteFrame_keeps_one_frame [0; 0; 7; 0; 1] 0
           (Timeline.State [10; 20; 30]%nat 2)).
  simpl. lia.
Defined.

(** C8.  [moveFrame idx dir] does nothing when [idx + dir] is outside the
    timeline; when [idx] and [idx + dir] are both inside it exchanges the two
    elements, keeps the others and selects [idx + dir]; moving back from
    there in the opposite direction restores the frames and selects [idx]. *)
Theorem moveFrame_swaps_and_undoes {A : Type} (undefined : A) (idx : Z)
    (dir : Timeline.direction) (st : Timeline.state (A:=A)) :
  let n := Z.of_nat (length (Timeline.frames st)) in
  let target := idx + Timeline.offset dir in
  let st' := Timeline.moveFrame undefined idx dir st in
  (¬ (0 ≤ target < n) → st' = st)
  ∧ (0 ≤ idx < n → 0 ≤ target < n →
     Timeline.frames st' !! Z.to_nat target = Timeline.frames st !! Z.to_nat idx
     ∧ Timeline.frames st' !! Z.to_nat idx = Timeline.frames st !! Z.to_nat target
     ∧ (∀ j : nat, j ≠ Z.to_nat idx → j ≠ Z.to_nat target →
          Timeline.frames st' !! j = Timeline.frames st !! j)
     ∧ length (Timeline.frames st') = length (Timeline.frames st)
     ∧ Timeline.selectedFrameIdx st' = target
     ∧ Timeline.moveFrame undefined target (Timeline.opposite dir) st'
       = Timeline.State (Timeline.frames st) idx).
Proof.
  intros n target st'. split.
  - intros Hout. subst st'. unfold Timeline.moveFrame.
    fold target. fold n.
    destruct (target <? 0) eqn:E1; [done|].
    destruct (target >=? n) eqn:E2; [done|].
    apply Z.ltb_ge in E1. rewrite Z.geb_leb in E2. apply Z.leb_gt in E2. lia.
  - intros Hidx Htgt.
    destruct (lookup_lt_is_Some_2 (Timeline.frames st) (Z.to_nat idx)) as [x Hx];
      [subst n; lia|].
    destruct (lookup_lt_is_Some_2 (Timeline.frames st) (Z.to_nat target)) as [y Hy];
      [subst n; lia|].
    pose proof (lookup_lt_Some _ _ _ Hx) as Hi.
    pose proof (lookup_lt_Some _ _ _ Hy) as Ht.
    assert (Z.to_nat idx ≠ Z.to_nat target) as Hne
      by (subst target; destruct dir; simpl in *; lia).
    assert (st' = Timeline.State
              (<[Z.to_nat target := x]> (<[Z.to_nat idx := y]> (Timeline.frames st)))
              target) as Hst'.
    { subst st'. replace idx with (Z.of_nat (Z.to_nat idx)) at 1 by lia.
      rewrite (moveFrame_inside undefined _ (Z.to_nat target) dir st x y); try done.
      - f_equal. lia.
      - subst target. lia. }
    rewrite Hst'. simpl. repeat split.
    + rewrite list_lookup_insert_eq by (rewrite length_insert; done). done.
    + rewrite list_lookup_insert_ne by done.
      rewrite list_lookup_insert_eq by done. done.
    + intros j Hji Hjt. rewrite !list_lookup_insert_ne by done. done.
    + by rewrite !length_insert.
    + replace target with (Z.of_nat (Z.to_nat target)) at 1 by lia.
      rewrite (moveFrame_inside undefined _ (Z.to_nat idx) (Timeline.opposite dir) _ x y).
      * simpl. f_equal; [|lia]. by apply swap_back.
      * subst target. destruct dir; simpl in *; lia.
      * simpl. rewrite list_lookup_insert_eq by (rewrite length_insert; done). done.
      * simpl. rewrite list_lookup_insert_ne by done.
        rewrite list_lookup_insert_eq by done. done.
Qed.

Lemma moveFrame_swaps_and_undoes_witness :
  let st := Timeline.State [10; 20; 30]%nat 1 in
  Timeline.moveFrame 0%nat 2 Timeline.Minus1 (Timeline.moveFrame 0%nat 1 Timeline.Plus1 st)
  = st.
Proof.
  intros st.
  destruct (moveFrame_swaps_and_undoes 0%nat 1 Timeline.Plus1 st) as [_ Hin].
  destruct Hin as (_ & _ & _ & _ & _ & Hback); [simpl; lia | simpl; lia |].
  exact Hback.
Defined.

(** ** Slicing and stitching *)

Section StripFacts.
Context {Px : Type}.
Variable transparent : Px.
Variable over : Px → Px → Px.
Hypothesis over_transparent : ∀ p, over p transparent = p.

Variable img : Strip.bitmap Px.
Variables fw fh : nat.

#[local] Abbreviation is_frame := (Strip.is_frame transparent img fw fh).

Lemma sliceStep_frame c acc i :
  Strip.width c = fw → Strip.height c = fh →
  ∃ c', Strip.sliceStep transparent over img fw fh (c, acc) i = (c', acc ++ [c'])
        ∧ is_frame i c'.
Proof.
  intros Hw Hh. eexists. split; [reflexivity|].
  split; [exact Hw|]. split; [exact Hh|].
  intros x y Hx Hy. simpl. unfold Strip.inside. simpl. rewrite Hw, Hh.
  destruct (x <? fw)%nat eqn:E1; [|apply Nat.ltb_ge in E1; lia].
  destruct (y <? fh)%nat eqn:E2; [|apply Nat.ltb_ge in E2; lia].
  simpl. rewrite over_transparent, !Nat.sub_0_r. done.
Qed.

Lemma slice_loop n : ∀ k c acc,
  Strip.width c = fw → Strip.height c = fh →
  let r := foldl (Strip.sliceStep transparent over img fw fh) (c, acc) (seq k n) in
  length (snd r) = (length acc + n)%nat
  ∧ (∀ j, (j < length acc)%nat → snd r !! j = acc !! j)
  ∧ (∀ i, (i < n)%nat →
       ∃ f, snd r !! (length acc + i)%nat = Some f ∧ is_frame (k + i) f).
Proof.
  induction n as [|n IH]; intros k c acc Hw Hh; cbn [seq foldl].
  - simpl. split; [lia|]. split; [done|]. intros i Hi. lia.
  - destruct (sliceStep_frame c acc k Hw Hh) as (c' & Hstep & Hc').
    rewrite Hstep.
    destruct Hc' as (Hw' & Hh' & Hpx).
    destruct (IH (S k) c' (acc ++ [c']) Hw' Hh') as (Hlen & Hold & Hnew).
    rewrite length_app in Hlen, Hold, Hnew. simpl in Hlen, Hold, Hnew.
    split; [lia|]. split.
    + intros j Hj. rewrite Hold by lia. by rewrite lookup_app_l.
    + intros [|i] Hi.
      * exists c'. rewrite Nat.add_0_r. split.
        -- rewrite Hold by lia. rewrite lookup_app_r by lia.
           by rewrite Nat.sub_diag.
        -- rewrite Nat.add_0_r. done.
      * destruct (Hnew i) as (f & Hf & Hfr); [lia|].
        exists f. split.
        -- rewrite <- Hf. f_equal. lia.
        -- by replace (k + S i)%nat with (S k + i)%nat by lia.
Qed.

(** One stitched frame changes only its own columns. *)
Lemma stitchStep_pixel c i (f : Strip.bitmap Px) X y :
  Strip.width f = fw → Strip.height f = fh →
  let c' := Strip.stitchStep transparent over fw c (i, f) in
  Strip.width c' = Strip.width c ∧ Strip.height c' = Strip.height c
  ∧ ((X < i * fw ∨ i * fw + fw ≤ X)%nat → Strip.pixel c' X y = Strip.pixel c X y)
  ∧ (∀ x, X = (i * fw + x)%nat → (x < fw)%nat → (y < fh)%nat →
       Strip.inside c X y = true →
       Strip.pixel c' X y = over (Strip.pixel f x y) (Strip.pixel c X y)).
Proof.
  intros Hw Hh. simpl. rewrite Hw, Hh. repeat split.
  - intros Hout.
    destruct (Strip.inside c X y); simpl; [|done].
    destruct (i * fw <=? X)%nat eqn:E1; simpl; [|done].
    destruct (X <? i * fw + fw)%nat eqn:E2; simpl; [|done].
    apply Nat.leb_le in E1. apply Nat.ltb_lt in E2. lia.
  - intros x -> Hx Hy Hin. rewrite Hin. simpl.
    destruct (i * fw <=? i * fw + x)%nat eqn:E1; [|apply Nat.leb_gt in E1; lia].
    destruct (i * fw + x <? i * fw + fw)%nat eqn:E2; [|apply Nat.ltb_ge in E2; lia].
    destruct (y <? 0 + fh)%nat eqn:E3; [|apply Nat.ltb_ge in E3; lia].
    simpl. unfold Strip.sample, Strip.inside. rewrite Hw, Hh.
    replace (i * fw + x - i * fw)%nat with x by lia. rewrite Nat.sub_0_r.
    destruct (x <? fw)%nat eqn:E4; [|apply Nat.ltb_ge in E4; lia].
    destruct (y <? fh)%nat eqn:E5; [|apply Nat.ltb_ge in E5; lia].
    done.
Qed.

Lemma stitch_loop (fs : list (Strip.bitmap Px)) : ∀ k c,
  (∀ i f, fs !! i = Some f → Strip.width f = fw ∧ Strip.height f = fh) →
  let r := foldl (Strip.stitchStep transparent over fw) c
                 (zip (seq k (length fs)) fs) in
  Strip.width r = Strip.width c ∧ Strip.height r = Strip.height c
  ∧ (∀ X y, (X < k * fw)%nat → Strip.pixel r X y = Strip.pixel c X y)
  ∧ (∀ i f x y, fs !! i = Some f → (x < fw)%nat → (y < fh)%nat →
       Strip.inside c ((k + i) * fw + x) y = true →
       Strip.pixel r ((k + i) * fw + x) y
       = over (Strip.pixel f x y) (Strip.pixel c ((k + i) * fw + x) y)).
Proof.
  induction fs as [|f0 fs IH]; intros k c Hdim; cbn [length seq zip zip_with foldl].
  - repeat split; try done.
  - destruct (Hdim 0%nat f0 eq_refl) as [Hw0 Hh0].
    set (c1 := Strip.stitchStep transparent over fw c (k, f0)).
    assert (∀ i f, fs !! i = Some f → Strip.width f = fw ∧ Strip.height f = fh)
      as Hdim' by (intros i f Hf; apply (Hdim (S i) f Hf)).
    destruct (IH (S k) c1 Hdim') as (Hw & Hh & Hlow & Hhit).
    pose proof (λ X y, stitchStep_pixel c k f0 X y Hw0 Hh0) as Hstep.
    fold c1 in Hstep. cbv zeta in Hstep.
    destruct (Hstep 0%nat 0%nat) as (Hw1 & Hh1 & _ & _).
    split; [congruence|]. split; [congruence|]. split.
    + intros X y HX. rewrite Hlow by lia.
      destruct (Hstep X y) as (_ & _ & Hout & _). apply Hout. lia.
    + intros [|i] f x y Hf Hx Hy Hin.
      * simpl in Hf. injection Hf as <-. rewrite Nat.add_0_r in *.
        rewrite Hlow by lia.
        destruct (Hstep (k * fw + x)%nat y) as (_ & _ & _ & Hdraw).
        by apply (Hdraw x).
      * simpl in Hf.
        replace ((k + S i) * fw + x)%nat with ((S k + i) * fw + x)%nat in * by lia.
        rewrite (Hhit i f x y Hf Hx Hy).
        -- destruct (Hstep ((S k + i) * fw + x)%nat y) as (_ & _ & Hout & _).
           rewrite Hout by lia. done.
        -- unfold Strip.inside in *. by rewrite Hw1, Hh1.
Qed.

(** A frame decodes exactly when it has pixels. *)
Lemma decodes_iff (f : Strip.bitmap Px) :
  Strip.decodes f = true ↔ (1 ≤ Strip.width f ∧ 1 ≤ Strip.height f)%nat.
Proof.
  unfold Strip.decodes. rewrite andb_true_iff, !Nat.ltb_lt. lia.
Qed.

(** When every frame decodes, the save reaches [onSave]. *)
Lemma handleSave_decoded (f0 : Strip.bitmap Px) (rest : list (Strip.bitmap Px)) :
  Forall (λ f, (1 ≤ Strip.width f ∧ 1 ≤ Strip.height f)%nat) (f0 :: rest) →
  Strip.handleSave transparent over (f0 :: rest)
  = Strip.Saved
      (foldl (Strip.stitchStep transparent over (Strip.width f0))
         (Strip.createCanvas transparent
            (Strip.width f0 * length (f0 :: rest)) (Strip.height f0))
         (zip (seq 0 (length (f0 :: rest))) (f0 :: rest)))
      (length (f0 :: rest)).
Proof.
  intros Hall. unfold Strip.handleSave.
  assert (forallb Strip.decodes (f0 :: rest) = true) as Hdec.
  { apply forallb_forall. intros f Hf. apply decodes_iff.
    rewrite Forall_forall in Hall. apply Hall. by apply list_elem_of_In. }
  rewrite Hdec. simpl in Hdec. apply andb_true_iff in Hdec as [-> _]. done.
Qed.

(** When some frame does not decode, the save stays pending. *)
Lemma handleSave_pending (f0 : Strip.bitmap Px) (rest : list (Strip.bitmap Px)) :
  Exists (λ f, Strip.width f = 0 ∨ Strip.height f = 0)%nat (f0 :: rest) →
  Strip.handleSave transparent over (f0 :: rest) = Strip.Pending.
Proof.
  intros Hsome. unfold Strip.handleSave.
  destruct (Strip.decodes f0) eqn:E0; [|done].
  destruct (forallb Strip.decodes (f0 :: rest)) eqn:Hdec; [|done].
  exfalso. rewrite forallb_forall in Hdec.
  apply Exists_exists in Hsome as (f & Hf & Hzero).
  specialize (Hdec f (proj1 (list_elem_of_In _ _) Hf)).
  apply decodes_iff in Hdec. lia.
Qed.
End StripFacts.

(** C6, as the code has it.  For a declared frame count of at least one,
    slicing a strip of width [W] yields exactly [frameCount] frames, each
    [floor (W / frameCount)] wide and as high as the strip, frame [i] holding
    the strip's rectangle [i·frameWidth, 0, frameWidth, height]; and when the
    strip is at least [frameCount] wide and one pixel high, so that the
    frames have pixels, stitching these frames yields a bitmap
    [frameWidth·frameCount] wide and as high as the strip, in which frame [i]
    occupies the columns from [i·frameWidth], one frame directly after the
    other. *)
Theorem slice_then_stitch {Px : Type} (transparent : Px) (over : Px → Px → Px)
    (img : Strip.bitmap Px) (frameCount : nat) :
  (∀ p, over p transparent = p) →
  (1 ≤ frameCount)%nat →
  let frameWidth := (Strip.width img / frameCount)%nat in
  let frames := Strip.initEditor transparent over img (Some frameCount) in
  length frames = frameCount
  ∧ (∀ i f, frames !! i = Some f →
       Strip.width f = frameWidth ∧ Strip.height f = Strip.height img
       ∧ ∀ x y, (x < frameWidth)%nat → (y < Strip.height img)%nat →
           Strip.pixel f x y = Strip.pixel img (i * frameWidth + x) y)
  ∧ ((frameCount ≤ Strip.width img)%nat → (1 ≤ Strip.height img)%nat →
     ∃ out, Strip.handleSave transparent over frames = Strip.Saved out frameCount
      ∧ Strip.width out = (frameWidth * frameCount)%nat
      ∧ Strip.height out = Strip.height img
      ∧ ∀ i f x y, frames !! i = Some f →
          (x < frameWidth)%nat → (y < Strip.height img)%nat →
          Strip.pixel out (i * frameWidth + x) y = Strip.pixel f x y).
Proof.
  intros Hover Hfc frameWidth frames.
  assert (Strip.frameCountOf (Some frameCount) = frameCount) as Hcount
    by (destruct frameCount; [lia|done]).
  assert (frameWidth * frameCount ≤ Strip.width img)%nat as Hfit.
  { subst frameWidth. rewrite Nat.mul_comm. apply Nat.Div0.mul_div_le. }
  destruct (slice_loop transparent over Hover img frameWidth (Strip.height img)
              frameCount 0%nat
              (Strip.createCanvas transparent frameWidth (Strip.height img)) []
              eq_refl eq_refl) as (Hlen & _ & Hnew).
  simpl in Hlen, Hnew.
  assert (frames = snd (foldl
            (Strip.sliceStep transparent over img frameWidth (Strip.height img))
            (Strip.createCanvas transparent frameWidth (Strip.height img), [])
            (seq 0 frameCount))) as Hframes.
  { subst frames. unfold Strip.initEditor. rewrite Hcount. done. }
  rewrite <- Hframes in Hlen, Hnew.
  assert (∀ i f, frames !! i = Some f →
            Strip.is_frame transparent img frameWidth (Strip.height img) i f) as Hall.
  { intros i f Hf. pose proof (lookup_lt_Some _ _ _ Hf) as Hi.
    destruct (Hnew i) as (f' & Hf' & Hfr); [lia|]. congruence. }
  split; [exact Hlen|]. split.
  - intros i f Hf. destruct (Hall i f Hf) as (Hw & Hh & Hpx).
    split; [exact Hw|]. split; [exact Hh|].
    intros x y Hx Hy. rewrite Hpx by done.
    pose proof (lookup_lt_Some _ _ _ Hf) as Hi.
    unfold Strip.sample, Strip.inside.
    destruct (i * frameWidth + x <? Strip.width img)%nat eqn:E1; [|apply Nat.ltb_ge in E1; nia].
    destruct (y <? Strip.height img)%nat eqn:E2; [|apply Nat.ltb_ge in E2; lia].
    done.
  - intros Hwide Hhigh.
    assert (1 ≤ frameWidth)%nat as Hfw.
    { subst frameWidth. apply Nat.div_le_lower_bound; lia. }
    destruct frames as [|f0 rest] eqn:Hfs; [simpl in Hlen; lia|].
    destruct (Hall 0%nat f0 eq_refl) as (Hw0 & Hh0 & _).
    assert (∀ i f, (f0 :: rest) !! i = Some f →
              Strip.width f = frameWidth ∧ Strip.height f = Strip.height img) as Hdim.
    { intros i f Hf. destruct (Hall i f Hf) as (Hw & Hh & _). done. }
    assert (Forall (λ f, (1 ≤ Strip.width f ∧ 1 ≤ Strip.height f)%nat) (f0 :: rest))
      as Hdec.
    { apply Forall_lookup. intros i f Hf. destruct (Hdim i f Hf) as [-> ->]. lia. }
    destruct (stitch_loop transparent over frameWidth (Strip.height img) (f0 :: rest) 0%nat
                (Strip.createCanvas transparent
                   (frameWidth * length (f0 :: rest)) (Strip.height img)) Hdim)
      as (Hw & Hh & _ & Hhit).
    eexists. split.
    { rewrite (handleSave_decoded transparent over f0 rest Hdec).
      rewrite Hw0, Hh0, Hlen. rewrite <- Hlen at 1 2. reflexivity. }
    rewrite Hlen. rewrite Hlen in Hw, Hh, Hhit.
    split; [exact Hw|]. split; [exact Hh|].
    intros i f x y Hf Hx Hy.
    pose proof (lookup_lt_Some _ _ _ Hf) as Hi. rewrite Hlen in Hi.
    specialize (Hhit i f x y Hf Hx Hy). simpl in Hhit.
    rewrite Hover in Hhit. apply Hhit.
    unfold Strip.inside. simpl.
    destruct (i * frameWidth + x <? frameWidth * frameCount)%nat eqn:E1;
      [|apply Nat.ltb_ge in E1; nia].
    destruct (y <? Strip.height img)%nat eqn:E2; [|apply Nat.ltb_ge in E2; lia].
    done.
Qed.

Lemma slice_then_stitch_witness :
  let over := λ p q : nat, match p with O => q | _ => p end in
  let img := Strip.Bitmap 7 2 (λ x y, 1 + x + 10 * y)%nat in
  let frames := Strip.initEditor 0%nat over img (Some 3%nat) in
  length frames = 3%nat
  ∧ ∃ out, Strip.handleSave 0%nat over frames = Strip.Saved out 3%nat
      ∧ Strip.width out = 6%nat ∧ Strip.height out = 2%nat.
Proof.
  intros over img frames.
  destruct (slice_then_stitch 0%nat over img 3) as (Hlen & _ & Hstitch).
  - intros [|p]; reflexivity.
  - lia.
  - destruct Hstitch as (out & Hsave & Hw & Hh & _); [simpl; lia | simpl; lia |].
    split; [exact Hlen|]. exists out. split; [exact Hsave|]. split; [exact Hw|exact Hh].
Defined.

(** C6, as stated, fails for a strip narrower than its frame count: a strip
    2 wide declared as 3 frames is sliced into three frames of width
    [floor (2 / 3) = 0], which have no pixels, and stitching them produces no
    bitmap at all: the save stays pending on the first frame. *)
Lemma narrow_strip_is_never_stitched :
  let over := λ p q : nat, match p with O => q | _ => p end in
  let img := Strip.Bitmap 2 1 (λ x y, 1 + x)%nat in
  let frames := Strip.initEditor 0%nat over img (Some 3%nat) in
  length frames = 3%nat
  ∧ Forall (λ f, Strip.width f = (2 / 3)%nat) frames
  ∧ Strip.handleSave 0%nat over frames = Strip.Pending
  ∧ ¬ ∃ out, Strip.handleSave 0%nat over frames = Strip.Saved out 3%nat.
Proof.
  intros over img frames.
  assert (Strip.handleSave 0%nat over frames = Strip.Pending) as Hpending
    by reflexivity.
  split; [reflexivity|]. split; [by repeat constructor|]. split; [exact Hpending|].
  intros [out Hsaved]. rewrite Hpending in Hsaved. discriminate Hsaved.
Qed.

(** ** Playback *)

Lemma Qltb_lt (a b : Q) : Qltb a b = true ↔ (a < b)%Q.
Proof.
  unfold Qltb. rewrite negb_true_iff. split.
  - intros Hle. apply Qnot_le_lt. intros Hba.
    apply Qle_bool_iff in Hba. congruence.
  - intros Hlt. destruct (Qle_bool b a) eqn:E; [|done].
    apply Qle_bool_iff in E. exfalso. by apply (Qlt_not_le a b).
Qed.

Lemma Qltb_ge (a b : Q) : Qltb a b = false ↔ (b <= a)%Q.
Proof.
  unfold Qltb. rewrite negb_false_iff. apply Qle_bool_iff.
Qed.

Lemma unset_false (s : Q) : ¬ (s == 0)%Q → Playback.unset (Some s) = false.
Proof.
  intros Hs. simpl. destruct (Qeq_bool s 0) eqn:E; [|done].
  apply Qeq_bool_iff in E. done.
Qed.

(** The tick, once a reference time is recorded, in any arithmetic. *)
Lemma animate_recorded `{Playback.Number T} (cfg : Playback.config)
    (st : Playback.loopState T) (time s : T) :
  Playback.startTime st = Some s → Playback.falsy s = false →
  Playback.animate cfg st time
  = if Playback.greater (Playback.minus time s)
         (Playback.divide (Playback.ofPositive 1000)
            (Playback.ofPositive (Playback.fps cfg)))
    then Playback.LoopState
           (if Playback.isPlaying cfg
            then Z.rem (Playback.currentFrame st + 1) (Playback.framesLength cfg)
            else if Playback.selectedFrameIdx cfg <? Playback.framesLength cfg
                 then Playback.selectedFrameIdx cfg else 0)
           (Some time)
    else st.
Proof.
  intros Hs Hnz. unfold Playback.animate. rewrite Hs.
  cbn [Playback.unset default]. rewrite Hnz.
  destruct (Playback.greater _ _); [done|].
  destruct st as [cur start]. cbn [Playback.currentFrame Playback.startTime] in *.
  by rewrite Hs.
Qed.

(** The same in exact arithmetic. *)
Lemma animate_started cfg (st : Playback.loopState Q) time s :
  Playback.startTime st = Some s → ¬ (s == 0)%Q →
  Playback.animate cfg st time
  = if Qltb (1000 / inject_Z (Z.pos (Playback.fps cfg))) (time - s)
    then Playback.LoopState
           (if Playback.isPlaying cfg
            then Z.rem (Playback.currentFrame st + 1) (Playback.framesLength cfg)
            else if Playback.selectedFrameIdx cfg <? Playback.framesLength cfg
                 then Playback.selectedFrameIdx cfg else 0)
           (Some time)
    else st.
Proof.
  intros Hs Hnz. exact (animate_recorded cfg st time s Hs (unset_false s Hnz)).
Qed.

(** In doubles, 1000 / 8 is 125 with no rounding, and 125 is not above
    itself. *)
Lemma interval_at_8_fps :
  SpecFloat.SFdiv 53 1024 (Playback.ofPositive 1000) (Playback.ofPositive 8)
  = Playback.ofPositive 125.
Proof. vm_compute. reflexivity. Qed.

Lemma ms125_not_above_itself :
  SpecFloat.SFltb (Playback.ofPositive 125) (Playback.ofPositive 125) = false.
Proof. vm_compute. reflexivity. Qed.

(** C2, as the code has it, on the doubles the code computes with.  A tick
    measures the time since the recorded reference time as the double
    [time - reference]; when that double is strictly more than the double
    [1000 / fps] it records the tick's time and sets the index: while
    playing to the next index modulo the number of frames, while paused to
    the selection, or to 0 when the selection is not below the number of
    frames.  Otherwise the tick changes nothing.  At 8 fps the threshold is
    the double 125: a tick whose measured time is exactly 125 ms leaves the
    index, one whose measured time is above 125 ms advances it by one,
    however late it comes. *)
Theorem animate_advances_past_interval (cfg : Playback.config)
    (st : Playback.loopState SpecFloat.spec_float)
    (time s : SpecFloat.spec_float) :
  Playback.startTime st = Some s → Playback.falsy s = false →
  let elapsed := SpecFloat.SFsub 53 1024 time s in
  let interval :=
    SpecFloat.SFdiv 53 1024 (Playback.ofPositive 1000)
      (Playback.ofPositive (Playback.fps cfg)) in
  let st' := Playback.animate cfg st time in
  (SpecFloat.SFltb interval elapsed = true →
     Playback.startTime st' = Some time
     ∧ (Playback.isPlaying cfg = true →
        Playback.currentFrame st'
        = Z.rem (Playback.currentFrame st + 1) (Playback.framesLength cfg))
     ∧ (Playback.isPlaying cfg = false →
        Playback.currentFrame st'
        = if Playback.selectedFrameIdx cfg <? Playback.framesLength cfg
          then Playback.selectedFrameIdx cfg else 0))
  ∧ (SpecFloat.SFltb interval elapsed = false → st' = st)
  ∧ (Playback.fps cfg = 8%positive → Playback.isPlaying cfg = true →
     interval = Playback.ofPositive 125
     ∧ (SpecFloat.SFltb (Playback.ofPositive 125) elapsed = true →
        Playback.currentFrame st'
        = Z.rem (Playback.currentFrame st + 1) (Playback.framesLength cfg))
     ∧ (elapsed = Playback.ofPositive 125 → st' = st)).
Proof.
  intros Hs Hnz elapsed interval st'.
  assert (st' = if SpecFloat.SFltb interval elapsed
                then Playback.LoopState
                       (if Playback.isPlaying cfg
                        then Z.rem (Playback.currentFrame st + 1) (Playback.framesLength cfg)
                        else if Playback.selectedFrameIdx cfg <? Playback.framesLength cfg
                             then Playback.selectedFrameIdx cfg else 0)
                       (Some time)
                else st) as Hst'
    by (subst st'; exact (animate_recorded cfg st time s Hs Hnz)).
  split; [|split].
  - intros E. rewrite Hst', E. cbn [Playback.startTime Playback.currentFrame].
    split; [done|]. split; intros ->; done.
  - intros E. by rewrite Hst', E.
  - intros Hfps Hplay.
    assert (interval = Playback.ofPositive 125) as Hint
      by (subst interval; rewrite Hfps; exact interval_at_8_fps).
    split; [exact Hint|]. split.
    + intros E. rewrite Hst', Hint, E, Hplay. done.
    + intros E. rewrite Hst', Hint, E, ms125_not_above_itself. done.
Qed.

Lemma animate_advances_past_interval_witness :
  let cfg := Playback.Config 4 8 true 2 in
  let st : Playback.loopState SpecFloat.spec_float :=
    Playback.LoopState 3 (Some (Playback.ofPositive 1000)) in
  Playback.currentFrame (Playback.animate cfg st (Playback.ofPositive 1126)) = 0
  ∧ Playback.animate cfg st (Playback.ofPositive 1125) = st.
Proof.
  intros cfg st. split.
  - destruct (animate_advances_past_interval cfg st (Playback.ofPositive 1126)
                (Playback.ofPositive 1000)) as (_ & _ & Hfps);
      [reflexivity | reflexivity | ].
    destruct (Hfps eq_refl eq_refl) as (_ & Hadv & _). apply Hadv.
    vm_compute. reflexivity.
  - destruct (animate_advances_past_interval cfg st (Playback.ofPositive 1125)
                (Playback.ofPositive 1000)) as (_ & _ & Hfps);
      [reflexivity | reflexivity | ].
    destruct (Hfps eq_refl eq_refl) as (_ & _ & Hkeep). apply Hkeep.
    vm_compute. reflexivity.
Defined.

(** C2, as stated, fails at the threshold itself: at 8 fps and playing, a
    tick exactly 125 ms after the reference time (1000 ms and 1125 ms, whose
    difference and 1000 / 8 are both the double 125, with no rounding) has
    [elapsed ≥ 1000 / fps] and yet neither advances the index nor moves the
    reference time. *)
Lemma animate_at_exact_interval_keeps_frame :
  let cfg := Playback.Config 4 8 true 2 in
  let st : Playback.loopState SpecFloat.spec_float :=
    Playback.LoopState 0 (Some (Playback.ofPositive 1000)) in
  let time := Playback.ofPositive 1125 in
  let elapsed := SpecFloat.SFsub 53 1024 time (Playback.ofPositive 1000) in
  let interval :=
    SpecFloat.SFdiv 53 1024 (Playback.ofPositive 1000) (Playback.ofPositive 8) in
  let st' := Playback.animate cfg st time in
  elapsed = Playback.ofPositive 125
  ∧ interval = Playback.ofPositive 125
  ∧ SpecFloat.SFleb interval elapsed = true
  ∧ Playback.currentFrame st' = 0
  ∧ Playback.currentFrame st' ≠ Z.rem (0 + 1) 4
  ∧ Playback.startTime st' = Some (Playback.ofPositive 1000).
Proof.
  vm_compute. repeat split; discriminate.
Qed.

(** The test compares the rounded difference with the rounded quotient.  At
    60 fps, with the reference time at [d], the double [1000 / 60], the tick
    at [d + d] measures exactly [d] and does not advance; at 8 fps, with the
    reference time at the double 0.001, the tick at the double 125.001
    measures exactly 125 and does not advance. *)
Lemma animate_compares_rounded_times :
  let d := SpecFloat.SFdiv 53 1024 (Playback.ofPositive 1000) (Playback.ofPositive 60) in
  let at60 := Playback.LoopState 0 (Some d) in
  let t0 := SpecFloat.SFdiv 53 1024 (Playback.ofPositive 1) (Playback.ofPositive 1000) in
  let t1 := SpecFloat.SFdiv 53 1024 (Playback.ofPositive 125001) (Playback.ofPositive 1000) in
  let at8 := Playback.LoopState 0 (Some t0) in
  SpecFloat.SFsub 53 1024 (SpecFloat.SFadd 53 1024 d d) d = d
  ∧ Playback.animate (Playback.Config 4 60 true 0) at60 (SpecFloat.SFadd 53 1024 d d)
    = at60
  ∧ SpecFloat.SFsub 53 1024 t1 t0 = Playback.ofPositive 125
  ∧ Playback.animate (Playback.Config 4 8 true 0) at8 t1 = at8.
Proof.
  vm_compute. repeat split.
Qed.

(** ** Runtime preview *)

Section RuntimeFacts.
Import Runtime.

(** The phases before the animation leave the animation fields alone, and
    the animation leaves everything else alone. *)
Lemma applyInput_anim k p :
  frameIndex (applyInput k p) = frameIndex p
  ∧ frameTimer (applyInput k p) = frameTimer p.
Proof. unfold applyInput. destruct (right k), (left k); done. Qed.

Lemma floorCollision_anim p :
  frameIndex (floorCollision p) = frameIndex p
  ∧ frameTimer (floorCollision p) = frameTimer p.
Proof. unfold floorCollision. destruct (Qltb _ _); done. Qed.

Lemma applyJump_anim k p :
  frameIndex (applyJump k p) = frameIndex p
  ∧ frameTimer (applyJump k p) = frameTimer p.
Proof. unfold applyJump. destruct (space k && grounded p); done. Qed.

Lemma stateMachine_anim p :
  frameIndex (stateMachine p) = frameIndex p
  ∧ frameTimer (stateMachine p) = frameTimer p.
Proof.
  unfold stateMachine. destruct (negb (grounded p)); [done|].
  destruct (Qltb _ _); done.
Qed.

Lemma stateMachine_motion p :
  x (stateMachine p) = x p ∧ y (stateMachine p) = y p
  ∧ vy (stateMachine p) = vy p ∧ grounded (stateMachine p) = grounded p.
Proof.
  unfold stateMachine. destruct (negb (grounded p)); [done|].
  destruct (Qltb _ _); done.
Qed.

Lemma platformCollision_anim tile p :
  frameIndex (platformCollision tile p) = frameIndex p
  ∧ frameTimer (platformCollision tile p) = frameTimer p
  ∧ state (platformCollision tile p) = state p.
Proof.
  unfold platformCollision. destruct tile; [|done].
  destruct (platformHit p); done.
Qed.

Lemma animatePlayer_motion img n p :
  y (animatePlayer img n p) = y p ∧ vy (animatePlayer img n p) = vy p
  ∧ grounded (animatePlayer img n p) = grounded p
  ∧ state (animatePlayer img n p) = state p.
Proof.
  unfold animatePlayer. destruct img; [|done]. simpl.
  destruct (8 <? _)%nat; done.
Qed.

Lemma loop_unfold k g :
  loop k g
  = GameState
      (animatePlayer
         (fst (activeSprite (assets_of g) (meta_of g) (state (settled k g))))
         (snd (activeSprite (assets_of g) (meta_of g) (state (settled k g))))
         (settled k g))
      (assets_of g) (meta_of g).
Proof.
  unfold loop, settled.
  destruct (activeSprite _ _ _) as [img n]. done.
Qed.

Lemma settled_anim k g :
  frameIndex (settled k g) = frameIndex (player_of g)
  ∧ frameTimer (settled k g) = frameTimer (player_of g).
Proof.
  unfold settled.
  destruct (platformCollision_anim (a_tile (assets_of g))
              (stateMachine (applyJump k (floorCollision
                 (applyPhysics (applyInput k (player_of g))))))) as (-> & -> & _).
  destruct (stateMachine_anim (applyJump k (floorCollision
              (applyPhysics (applyInput k (player_of g)))))) as [-> ->].
  destruct (applyJump_anim k (floorCollision
              (applyPhysics (applyInput k (player_of g))))) as [-> ->].
  destruct (floorCollision_anim (applyPhysics (applyInput k (player_of g))))
    as [-> ->].
  simpl. apply applyInput_anim.
Qed.

Lemma loop_assets k g :
  assets_of (loop k g) = assets_of g ∧ meta_of (loop k g) = meta_of g.
Proof. by rewrite loop_unfold. Qed.

Lemma loop_state k g :
  state (player_of (loop k g)) = state (settled k g).
Proof. rewrite loop_unfold. simpl. apply animatePlayer_motion. Qed.

(** The animation fields over one tick, when the active state's bitmap
    is loaded: the timer counts up to 8, the tick that finds it at 8
    advances the index and resets it. *)
Lemma loop_frame k g img :
  let p := player_of g in
  let p' := player_of (loop k g) in
  fst (activeSprite (assets_of g) (meta_of g) (state p')) = Some img →
  let totalFrames := snd (activeSprite (assets_of g) (meta_of g) (state p')) in
  ((frameTimer p < 8)%nat →
     frameIndex p' = frameIndex p ∧ frameTimer p' = S (frameTimer p))
  ∧ ((8 ≤ frameTimer p)%nat →
     frameIndex p' = ((frameIndex p + 1) mod totalFrames)%nat
     ∧ frameTimer p' = 0%nat).
Proof.
  intros p p'. subst p'. rewrite loop_state. rewrite loop_unfold. simpl.
  intros Himg. rewrite Himg.
  destruct (settled_anim k g) as [Hi Ht].
  unfold animatePlayer. simpl. rewrite Hi, Ht. fold p.
  split; intros Hlt.
  - destruct (8 <? frameTimer p + 1)%nat eqn:E.
    + apply Nat.ltb_lt in E. lia.
    + simpl. rewrite Hi. split; [done|lia].
  - destruct (8 <? frameTimer p + 1)%nat eqn:E.
    + simpl. done.
    + apply Nat.ltb_ge in E. lia.
Qed.

Lemma ticks_snoc ks k g : ticks (ks ++ [k]) g = loop k (ticks ks g).
Proof. unfold ticks. by rewrite foldl_app. Qed.

Lemma ticks_assets ks : ∀ g,
  assets_of (ticks ks g) = assets_of g ∧ meta_of (ticks ks g) = meta_of g.
Proof.
  induction ks as [|k ks IH]; intros g; [done|].
  change (ticks (k :: ks) g) with (ticks ks (loop k g)).
  destruct (IH (loop k g)) as [-> ->]. apply loop_assets.
Qed.

(** [n ≤ 9] ticks in one state whose bitmap is loaded, from a timer [t ≤ 8]:
    the index is untouched for the first [8 - t] ticks and advanced once
    from tick [9 - t] on. *)
Lemma ticks_frame s img ks g : ∀ n,
  (n ≤ 9)%nat → (n ≤ length ks)%nat →
  (frameTimer (player_of g) ≤ 8)%nat →
  (∀ m, (1 ≤ m ≤ n)%nat → state (player_of (ticks (take m ks) g)) = s) →
  fst (activeSprite (assets_of g) (meta_of g) s) = Some img →
  let p := player_of g in
  let pn := player_of (ticks (take n ks) g) in
  let totalFrames := snd (activeSprite (assets_of g) (meta_of g) s) in
  ((n + frameTimer p < 9)%nat →
     frameIndex pn = frameIndex p ∧ frameTimer pn = (frameTimer p + n)%nat)
  ∧ ((9 ≤ n + frameTimer p)%nat →
     frameIndex pn = ((frameIndex p + 1) mod totalFrames)%nat
     ∧ frameTimer pn = (n + frameTimer p - 9)%nat).
Proof.
  induction n as [|n IH]; intros Hn9 Hlen Ht Hstate Himg p pn totalFrames.
  - subst pn. rewrite take_0. simpl. fold p.
    split; [intros _; split; [done|lia]|]. subst p. lia.
  - destruct (lookup_lt_is_Some_2 ks n) as [k Hk]; [lia|].
    subst pn. rewrite (take_S_r _ _ _ Hk), ticks_snoc.
    set (gn := ticks (take n ks) g).
    assert (state (player_of (loop k gn)) = s) as Hs.
    { specialize (Hstate (S n)). rewrite (take_S_r _ _ _ Hk), ticks_snoc in Hstate.
      apply Hstate. lia. }
    destruct (ticks_assets (take n ks) g) as [Ha Hm]. fold gn in Ha, Hm.
    pose proof (loop_frame k gn img) as Hstep. cbv zeta in Hstep.
    rewrite Hs, Ha, Hm in Hstep. specialize (Hstep Himg).
    fold totalFrames in Hstep. destruct Hstep as [Hcount Hadv].
    assert (n ≤ 9)%nat as Hn9' by lia.
    assert (n ≤ length ks)%nat as Hlen' by lia.
    assert (∀ m, (1 ≤ m ≤ n)%nat → state (player_of (ticks (take m ks) g)) = s)
      as Hstate' by (intros m Hm'; apply Hstate; lia).
    specialize (IH Hn9' Hlen' Ht Hstate' Himg). cbv zeta in IH.
    fold gn p totalFrames in IH. destruct IH as [IHlow IHhigh].
    assert (frameTimer p ≤ 8)%nat as Ht' by done.
    split; intros Hcase.
    + destruct (IHlow ltac:(lia)) as [IHi IHt].
      destruct (Hcount ltac:(lia)) as [-> ->]. split; [done|lia].
    + destruct (decide (n + frameTimer p < 9)%nat) as [Hlow|Hhigh].
      * destruct (IHlow Hlow) as [IHi IHt].
        destruct (Hadv ltac:(lia)) as [-> ->]. rewrite IHi. split; [done|lia].
      * destruct (IHhigh ltac:(lia)) as [IHi IHt].
        destruct (Hcount ltac:(lia)) as [-> ->]. split; [done|lia].
Qed.
End RuntimeFacts.

Section Collisions.
Import Runtime.

Lemma platformHit_iff p :
  platformHit p = true
  ↔ (300 < x p + 32 ∧ x p < 396
     ∧ floorY - 100 < y p + 32 ∧ y p + 32 < floorY - 90)%Q
    ∧ (0 < vy p)%Q.
Proof.
  unfold platformHit. rewrite !andb_true_iff, !Qltb_lt. tauto.
Qed.

Lemma platformCollision_miss tile p :
  platformHit p = false → platformCollision tile p = p.
Proof. intros H. unfold platformCollision. rewrite H. by destruct tile. Qed.

Lemma platformHit_rising p : (vy p <= 0)%Q → platformHit p = false.
Proof.
  intros Hvy. destruct (platformHit p) eqn:E; [|done].
  apply platformHit_iff in E as [_ Hpos].
  exfalso. by apply (Qlt_not_le 0 (vy p)).
Qed.

(** The player after the collision phases, from the moved player [q]. *)
Lemma settled_motion k g :
  let q := applyPhysics (applyInput k (player_of g)) in
  let r := platformCollision (a_tile (assets_of g))
             (applyJump k (floorCollision q)) in
  let p' := player_of (loop k g) in
  platformHit (stateMachine (applyJump k (floorCollision q)))
  = platformHit (applyJump k (floorCollision q))
  ∧ y p' = y r ∧ vy p' = vy r ∧ grounded p' = grounded r.
Proof.
  intros q r p'. subst p'. rewrite loop_unfold. simpl.
  destruct (animatePlayer_motion
              (fst (activeSprite (assets_of g) (meta_of g) (state (settled k g))))
              (snd (activeSprite (assets_of g) (meta_of g) (state (settled k g))))
              (settled k g)) as (-> & -> & -> & _).
  unfold settled. fold q. set (j := applyJump k (floorCollision q)) in *.
  destruct (stateMachine_motion j) as (Hx & Hy & Hvy & Hg).
  assert (platformHit (stateMachine j) = platformHit j) as Hhit
    by (unfold platformHit; by rewrite Hx, Hy, Hvy).
  split; [exact Hhit|].
  subst r. unfold platformCollision. destruct (a_tile (assets_of g)); [|done].
  rewrite Hhit. destruct (platformHit j); simpl; [done|].
  by rewrite Hy, Hvy, Hg.
Qed.
End Collisions.

(** C9, as the code has it.  With [q] the player after the tick's movement:
    - floor: when [q]'s feet are below [floorY] the tick ends with the player
      standing on the floor line ([y = floorY − height]); it ends with
      [vy = 0] and [grounded] unless the jump key is held, in which case the
      same tick goes on to [vy = jumpForce] and not grounded;
    - platform: it exists only while the tile bitmap is loaded; then, with no
      floor contact, an overlap of [q] with the platform band while
      descending ends the tick with [y] on the platform top, [vy = 0] and
      [grounded];
    - otherwise (no tile bitmap, or not descending, or no overlap) the tick
      ends with [q]'s position and velocity and not grounded. *)
Theorem collision_resolution (k : Runtime.keys) (g : Runtime.gameState) :
  let q := Runtime.applyPhysics (Runtime.applyInput k (Runtime.player_of g)) in
  let p' := Runtime.player_of (Runtime.loop k g) in
  let overlap :=
    (300 < Runtime.x q + 32 ∧ Runtime.x q < 396
     ∧ Runtime.floorY - 100 < Runtime.y q + 32
     ∧ Runtime.y q + 32 < Runtime.floorY - 90)%Q in
  ((Runtime.floorY < Runtime.y q + Runtime.height q)%Q →
     Runtime.y p' = (Runtime.floorY - Runtime.height q)%Q
     ∧ (Runtime.space k = false →
        Runtime.vy p' = 0%Q ∧ Runtime.grounded p' = true)
     ∧ (Runtime.space k = true →
        Runtime.vy p' = Runtime.jumpForce ∧ Runtime.grounded p' = false))
  ∧ ((Runtime.y q + Runtime.height q <= Runtime.floorY)%Q →
     is_Some (Runtime.a_tile (Runtime.assets_of g)) →
     overlap → (0 < Runtime.vy q)%Q →
     Runtime.y p' = (Runtime.floorY - 100 - 32)%Q
     ∧ Runtime.vy p' = 0%Q ∧ Runtime.grounded p' = true)
  ∧ ((Runtime.y q + Runtime.height q <= Runtime.floorY)%Q →
     Runtime.a_tile (Runtime.assets_of g) = None
     ∨ (Runtime.vy q <= 0)%Q ∨ ¬ overlap →
     Runtime.y p' = Runtime.y q ∧ Runtime.vy p' = Runtime.vy q
     ∧ Runtime.grounded p' = false).
Proof.
  intros q p' overlap.
  destruct (settled_motion k g) as (_ & Hy & Hvy & Hg).
  fold q p' in Hy, Hvy, Hg. rewrite Hy, Hvy, Hg. clear Hy Hvy Hg.
  split; [|split].
  - intros Hfloor. apply Qltb_lt in Hfloor.
    unfold Runtime.floorCollision. rewrite Hfloor.
    unfold Runtime.applyJump. simpl Runtime.grounded. rewrite andb_true_r.
    destruct (Runtime.space k).
    + rewrite !platformCollision_miss by (by apply platformHit_rising).
      simpl. split; [done|]. split; [done|]. intros _. by split.
    + rewrite !platformCollision_miss by (by apply platformHit_rising).
      simpl. split; [done|]. split; [|done]. intros _. by split.
  - intros Hair [t Ht] Hover Hdown. apply Qltb_ge in Hair.
    unfold Runtime.floorCollision. rewrite Hair.
    unfold Runtime.applyJump. simpl Runtime.grounded. rewrite andb_false_r.
    rewrite Ht. unfold Runtime.platformCollision.
    assert (Runtime.platformHit (Runtime.set_grounded false q) = true) as ->
      by (apply platformHit_iff; simpl; done).
    done.
  - intros Hair Hmiss. apply Qltb_ge in Hair.
    unfold Runtime.floorCollision. rewrite Hair.
    unfold Runtime.applyJump. simpl Runtime.grounded. rewrite andb_false_r.
    destruct Hmiss as [Hnone | [Hup | Hout]].
    + rewrite Hnone. done.
    + rewrite platformCollision_miss by (by apply platformHit_rising). done.
    + rewrite platformCollision_miss; [done|].
      destruct (Runtime.platformHit _) eqn:E; [|done].
      apply platformHit_iff in E as [Hin _]. by destruct Hout.
Qed.

Lemma collision_resolution_witness :
  let g73 := Runtime.ticks (take 73 Scenario.leap) Scenario.heroTiled in
  let p' := Runtime.player_of (Runtime.loop Scenario.holdRight g73) in
  Runtime.y p' = (Runtime.floorY - 100 - 32)%Q
  ∧ Runtime.vy p' = 0%Q ∧ Runtime.grounded p' = true.
Proof.
  intros g73 p'.
  destruct (collision_resolution Scenario.holdRight g73) as (_ & Hplatform & _).
  apply Hplatform.
  - vm_compute. discriminate.
  - vm_compute. eauto.
  - vm_compute. repeat split.
  - vm_compute. reflexivity.
Defined.

(** C9, as stated, fails in two ways.  Without a tile bitmap the platform
    is not there: on tick 74 of [Scenario.leap] the moved player overlaps the
    platform band while descending and the tick ends still falling.  And on
    tick 46 the player touches the floor with the jump key held: the tick
    ends with [vy = −15] and not grounded. *)
Lemma platform_needs_tile_and_jump_overrides_floor :
  (let g73 := Runtime.ticks (take 73 Scenario.leap) Scenario.hero in
   let q := Runtime.applyPhysics
              (Runtime.applyInput Scenario.holdRight (Runtime.player_of g73)) in
   let p' := Runtime.player_of (Runtime.loop Scenario.holdRight g73) in
   (300 < Runtime.x q + 32 ∧ Runtime.x q < 396
    ∧ Runtime.floorY - 100 < Runtime.y q + 32
    ∧ Runtime.y q + 32 < Runtime.floorY - 90 ∧ 0 < Runtime.vy q)%Q
   ∧ ¬ (Runtime.vy p' == 0)%Q ∧ Runtime.grounded p' = false
   ∧ ¬ (Runtime.y p' == Runtime.floorY - 100 - 32)%Q)
  ∧ (let g45 := Runtime.ticks (take 45 Scenario.leap) Scenario.hero in
     let q := Runtime.applyPhysics
                (Runtime.applyInput Scenario.holdRightJump (Runtime.player_of g45)) in
     let p' := Runtime.player_of (Runtime.loop Scenario.holdRightJump g45) in
     (Runtime.floorY < Runtime.y q + Runtime.height q)%Q
     ∧ ¬ (Runtime.vy p' == 0)%Q ∧ Runtime.grounded p' = false).
Proof.
  vm_compute. repeat split; discriminate.
Qed.

(** C3, as the code has it.  While the active state's bitmap is loaded the
    timer goes up by one per tick and the tick that takes it past 8 advances
    the index and resets the timer: in any nine consecutive ticks with one
    active state, started with the timer at [t ≤ 8], the index is advanced
    exactly once, on tick [9 − t], to the next index modulo that state's
    frame count, and the timer ends where it started. *)
Theorem animation_advances_every_ninth_tick (s : Runtime.moveState)
    (img : Runtime.image) (ks : list Runtime.keys) (g : Runtime.gameState) :
  length ks = 9%nat →
  (Runtime.frameTimer (Runtime.player_of g) ≤ 8)%nat →
  (∀ m, (1 ≤ m ≤ 9)%nat →
     Runtime.state (Runtime.player_of (Runtime.ticks (take m ks) g)) = s) →
  fst (Runtime.activeSprite (Runtime.assets_of g) (Runtime.meta_of g) s) = Some img →
  let p := Runtime.player_of g in
  let t := Runtime.frameTimer p in
  let totalFrames :=
    snd (Runtime.activeSprite (Runtime.assets_of g) (Runtime.meta_of g) s) in
  let after m := Runtime.player_of (Runtime.ticks (take m ks) g) in
  (∀ m, (m < 9 - t)%nat → Runtime.frameIndex (after m) = Runtime.frameIndex p)
  ∧ (∀ m, (9 - t ≤ m ≤ 9)%nat →
       Runtime.frameIndex (after m)
       = ((Runtime.frameIndex p + 1) mod totalFrames)%nat)
  ∧ Runtime.frameIndex (Runtime.player_of (Runtime.ticks ks g))
    = ((Runtime.frameIndex p + 1) mod totalFrames)%nat
  ∧ Runtime.frameTimer (Runtime.player_of (Runtime.ticks ks g)) = t.
Proof.
  intros Hlen Ht Hstate Himg p t totalFrames after.
  assert (∀ m, (m ≤ 9)%nat →
            ((m + t < 9)%nat →
               Runtime.frameIndex (after m) = Runtime.frameIndex p
               ∧ Runtime.frameTimer (after m) = (t + m)%nat)
            ∧ ((9 ≤ m + t)%nat →
               Runtime.frameIndex (after m)
               = ((Runtime.frameIndex p + 1) mod totalFrames)%nat
               ∧ Runtime.frameTimer (after m) = (m + t - 9)%nat)) as Hrun.
  { intros m Hm. apply (ticks_frame s img ks g m); try done; try lia.
    intros m' Hm'. apply Hstate. lia. }
  assert (after 9%nat = Runtime.player_of (Runtime.ticks ks g)) as Hall
    by (subst after; cbv beta; rewrite take_ge by lia; done).
  split; [|split; [|split]].
  - intros m Hm. destruct (Hrun m ltac:(lia)) as [Hlow _].
    apply Hlow. subst t. lia.
  - intros m Hm. destruct (Hrun m ltac:(lia)) as [_ Hhigh].
    apply Hhigh. subst t. lia.
  - rewrite <- Hall. destruct (Hrun 9%nat ltac:(lia)) as [_ Hhigh].
    apply Hhigh. lia.
  - rewrite <- Hall. destruct (Hrun 9%nat ltac:(lia)) as [_ Hhigh].
    destruct Hhigh as [_ ->]; [lia|]. subst t. lia.
Qed.

Lemma animation_advances_every_ninth_tick_witness :
  let g9 := Runtime.ticks (replicate 9 Runtime.noKeys) Scenario.hero in
  let g18 := Runtime.ticks (replicate 9 Runtime.noKeys) g9 in
  Runtime.frameIndex (Runtime.player_of g18)
  = ((Runtime.frameIndex (Runtime.player_of g9) + 1) mod 4)%nat
  ∧ Runtime.frameTimer (Runtime.player_of g18)
    = Runtime.frameTimer (Runtime.player_of g9).
Proof.
  intros g9 g18.
  destruct (animation_advances_every_ninth_tick Runtime.jump
              (Runtime.Image 128 32) (replicate 9 Runtime.noKeys) g9)
    as (_ & _ & Hindex & Htimer).
  - reflexivity.
  - vm_compute. lia.
  - intros m Hm.
    destruct m as [|[|[|[|[|[|[|[|[|[|m]]]]]]]]]]; try lia; vm_compute; reflexivity.
  - vm_compute. reflexivity.
  - split; [exact Hindex | exact Htimer].
Defined.

(** C3, as stated, fails: the eight ticks 10 to 17 of a fall are all in the
    jump state, whose strip is loaded with four frames, and the index is 1
    before and after them, not 2. *)
Lemma eight_ticks_without_advance :
  let g9 := Runtime.ticks (replicate 9 Runtime.noKeys) Scenario.hero in
  let after m := Runtime.player_of (Runtime.ticks (replicate m Runtime.noKeys) g9) in
  map (λ m, Runtime.state (after m)) (seq 0 9) = replicate 9 Runtime.jump
  ∧ Runtime.activeSprite (Runtime.assets_of g9) (Runtime.meta_of g9) Runtime.jump
    = (Some (Runtime.Image 128 32), 4%nat)
  ∧ Runtime.frameIndex (after 0%nat) = 1%nat
  ∧ Runtime.frameIndex (after 8%nat) = 1%nat
  ∧ Runtime.frameIndex (after 8%nat)
    ≠ ((Runtime.frameIndex (after 0%nat) + 1) mod 4)%nat.
Proof.
  vm_compute. repeat split; discriminate.
Qed.

(** C1 at a state change.  Falling from the start position the player is
    in the jump state for 19 ticks and its index reaches 2 of the strip's 4
    frames; tick 20 lands, the state becomes idle with a frame count of 1,
    and the index that selects the source rectangle is still 2: the
    rectangle starts at x = 64 in a bitmap 32 wide.  The index stays
    outside [0, 1) until the timer next passes 8, on tick 27. *)
Theorem frame_index_survives_state_change :
  let after m := Runtime.ticks (replicate m Runtime.noKeys) Scenario.hero in
  let p19 := Runtime.player_of (after 19%nat) in
  let p20 := Runtime.player_of (after 20%nat) in
  Runtime.state p19 = Runtime.jump
  ∧ Runtime.frameIndex p19 = 2%nat
  ∧ Runtime.state p20 = Runtime.idle
  ∧ Runtime.activeSprite (Runtime.assets_of (after 20%nat))
      (Runtime.meta_of (after 20%nat)) (Runtime.state p20)
    = (Some (Runtime.Image 32 32), 1%nat)
  ∧ Runtime.frameIndex p20 = 2%nat
  ∧ ¬ (Runtime.frameIndex p20 < 1)%nat
  ∧ (∃ sx sw, Runtime.spriteSource (after 20%nat) = Some (sx, sw)
              ∧ (sx == 64)%Q ∧ (sw == 32)%Q)
  ∧ map (λ m, Runtime.frameIndex (Runtime.player_of (after m))) (seq 20 8)
    = [2; 2; 2; 2; 2; 2; 2; 0]%nat.
Proof.
  vm_compute. repeat split; try discriminate; try lia.
  eexists _, _. repeat split.
Qed.

(** ** Bucket tool *)

Section FloodBytes.
Import Flood.

Lemma read_write_eq (d : list Z) i v :
  0 ≤ i < Z.of_nat (length d) → read (write d i v) i = Some (clamp8 v).
Proof.
  intros Hi. unfold read, write.
  destruct (i <? 0) eqn:E; [apply Z.ltb_lt in E; lia|].
  apply list_lookup_insert_eq. lia.
Qed.

Lemma read_write_ne (d : list Z) i j v :
  i ≠ j → read (write d i v) j = read d j.
Proof.
  intros Hij. unfold read, write.
  destruct (j <? 0) eqn:Ej; [done|].
  destruct (i <? 0) eqn:Ei; [done|].
  apply Z.ltb_ge in Ei, Ej. apply list_lookup_insert_ne. lia.
Qed.

Lemma length_write (d : list Z) i v : length (write d i v) = length d.
Proof. unfold write. destruct (i <? 0); [done|]. apply length_insert. Qed.

Variables r g b a : Z.

Lemma length_paint d i : length (paint r g b a d i) = length d.
Proof. unfold paint. by rewrite !length_write. Qed.

Lemma quad_paint_same d i :
  0 ≤ i → i + 3 < Z.of_nat (length d) →
  quad (paint r g b a d i) i
  = (Some (clamp8 r), Some (clamp8 g), Some (clamp8 b), Some (clamp8 a)).
Proof.
  intros Hi Hlen. unfold quad, paint.
  rewrite (read_write_ne _ (i + 3) i) by lia.
  rewrite (read_write_ne _ (i + 2) i) by lia.
  rewrite (read_write_ne _ (i + 1) i) by lia.
  rewrite read_write_eq by lia.
  rewrite (read_write_ne _ (i + 3) (i + 1)) by lia.
  rewrite (read_write_ne _ (i + 2) (i + 1)) by lia.
  rewrite read_write_eq by (rewrite length_write; lia).
  rewrite (read_write_ne _ (i + 3) (i + 2)) by lia.
  rewrite read_write_eq by (rewrite !length_write; lia).
  rewrite read_write_eq by (rewrite !length_write; lia).
  done.
Qed.

Lemma quad_paint_other d i j :
  (i + 4 ≤ j ∨ j + 4 ≤ i) → quad (paint r g b a d i) j = quad d j.
Proof.
  intros Hfar. unfold quad, paint.
  rewrite !read_write_ne by lia. done.
Qed.

Variables startR startG startB startA : option Z.

Lemma isSource_iff d idx :
  isSource startR startG startB startA d idx = true
  ↔ idx ≠ -1 ∧ quad d idx = (startR, startG, startB, startA).
Proof.
  unfold isSource, same, quad.
  rewrite !andb_true_iff, negb_true_iff, Z.eqb_neq, !bool_decide_eq_true.
  split.
  - intros ((((H0 & ->) & ->) & ->) & ->). done.
  - intros [H0 Heq]. injection Heq as -> -> -> ->. done.
Qed.

#[local] Abbreviation sources := (Flood.sources startR startG startB startA).

Lemma isSource_ext d1 d2 i :
  quad d1 i = quad d2 i →
  isSource startR startG startB startA d1 i
  = isSource startR startG startB startA d2 i.
Proof.
  intros Hq. unfold quad in Hq. injection Hq as Ha Hb Hc Hd.
  unfold isSource. by rewrite Ha, Hb, Hc, Hd.
Qed.

Lemma sources_paint_above d (p n : nat) :
  (n ≤ p)%nat → sources (paint r g b a d (Z.of_nat p * 4)) n = sources d n.
Proof.
  intros Hp. induction n as [|n IH]; [done|]. simpl.
  rewrite IH by lia. f_equal.
  rewrite (isSource_ext _ d); [done|]. apply quad_paint_other. lia.
Qed.

Lemma sources_paint_below d (p n : nat) :
  (p < n)%nat →
  Z.of_nat p * 4 + 3 < Z.of_nat (length d) →
  (startR, startG, startB, startA)
  ≠ (Some (clamp8 r), Some (clamp8 g), Some (clamp8 b), Some (clamp8 a)) →
  isSource startR startG startB startA d (Z.of_nat p * 4) = true →
  (sources (paint r g b a d (Z.of_nat p * 4)) n + 1 = sources d n)%nat.
Proof.
  intros Hp Hlen Hne Hsrc. induction n as [|n IH]; [lia|]. simpl.
  destruct (decide (p = n)) as [->|Hpn].
  - rewrite sources_paint_above by lia. rewrite Hsrc.
    destruct (isSource _ _ _ _ (paint _ _ _ _ _ _) _) eqn:E; [|lia].
    apply isSource_iff in E as [_ E].
    rewrite quad_paint_same in E by lia. congruence.
  - rewrite <- IH by lia.
    assert (isSource startR startG startB startA
              (paint r g b a d (Z.of_nat p * 4)) (Z.of_nat n * 4)
            = isSource startR startG startB startA d (Z.of_nat n * 4)) as ->; [|lia].
    apply isSource_ext, quad_paint_other. lia.
Qed.
End FloodBytes.

Section FloodRegion.
Import Flood.

(** The buffer before the fill, the click position and the fill color:
    the start pixel is inside and is not already the opaque fill color. *)
Variable img0 : imageData.
Variables x y : Z.
Variable fc : color.
Hypothesis Hwf : wellFormed img0.
Hypothesis Hfc : isColor fc.
Hypothesis Hstart : inBounds img0 x y.
Hypothesis Hne : pixelAt img0 x y ≠ opaque fc.

#[local] Abbreviation w := (width img0).
#[local] Abbreviation h := (height img0).
#[local] Abbreviation d0 := (data img0).
#[local] Abbreviation inb := (inBounds img0).
#[local] Abbreviation Sc := (pixelAt img0 x y).
#[local] Abbreviation Tc := (opaque fc).
#[local] Abbreviation sR := (read d0 (getPixel w h x y)).
#[local] Abbreviation sG := (read d0 (getPixel w h x y + 1)).
#[local] Abbreviation sB := (read d0 (getPixel w h x y + 2)).
#[local] Abbreviation sA := (read d0 (getPixel w h x y + 3)).
#[local] Abbreviation test := (isSource sR sG sB sA).
#[local] Abbreviation fill := (paint (red fc) (green fc) (blue fc) 255).
#[local] Abbreviation reg := (region img0 x y).

#[local] Abbreviation col := (Flood.col img0).

Lemma col_quad d cx cy : col d cx cy = quad d (getPixel w h cx cy).
Proof. done. Qed.

Lemma getPixel_inside cx cy :
  inb cx cy →
  getPixel w h cx cy = (cy * w + cx) * 4 ∧ 0 ≤ cy * w + cx < w * h.
Proof.
  intros [Hx Hy]. unfold getPixel.
  destruct (cx <? 0) eqn:E1; [apply Z.ltb_lt in E1; lia|].
  destruct (cy <? 0) eqn:E2; [apply Z.ltb_lt in E2; lia|].
  destruct (cx >=? w) eqn:E3; [rewrite Z.geb_leb in E3; apply Z.leb_le in E3; lia|].
  destruct (cy >=? h) eqn:E4; [rewrite Z.geb_leb in E4; apply Z.leb_le in E4; lia|].
  simpl. split; [done|]. nia.
Qed.

Lemma getPixel_outside cx cy : ¬ inb cx cy → getPixel w h cx cy = -1.
Proof.
  intros Hout. unfold getPixel.
  destruct (cx <? 0) eqn:E1; [done|].
  destruct (cy <? 0) eqn:E2; [done|].
  destruct (cx >=? w) eqn:E3; [done|].
  destruct (cy >=? h) eqn:E4; [done|].
  apply Z.ltb_ge in E1, E2. rewrite Z.geb_leb in E3, E4.
  apply Z.leb_gt in E3, E4. destruct Hout. split; lia.
Qed.

Lemma pixel_index_inj cx cy cx' cy' :
  inb cx cy → inb cx' cy' → cy * w + cx = cy' * w + cx' → (cx, cy) = (cx', cy').
Proof.
  intros [Hx Hy] [Hx' Hy'] Heq.
  assert (cy = cy') as -> by nia.
  f_equal. lia.
Qed.

Lemma test_iff d cx cy :
  test d (getPixel w h cx cy) = true ↔ inb cx cy ∧ col d cx cy = Sc.
Proof.
  rewrite isSource_iff, col_quad. split.
  - intros [Hidx Hq]. split; [|done].
    destruct (decide (inb cx cy)) as [|Hout]; [done|].
    by apply getPixel_outside in Hout.
  - intros [Hin Hq]. split; [|done].
    destruct (getPixel_inside cx cy Hin) as [-> Hr]. lia.
Qed.

Lemma clamped_fill :
  (Some (clamp8 (red fc)), Some (clamp8 (green fc)),
   Some (clamp8 (blue fc)), Some (clamp8 255)) = Tc.
Proof.
  destruct Hfc as (Hr & Hg & Hb). unfold opaque, clamp8.
  repeat f_equal; lia.
Qed.

Lemma col_fill_same d cx cy :
  inb cx cy → length d = length d0 →
  col (fill d (getPixel w h cx cy)) cx cy = Tc.
Proof.
  intros Hin Hlen. rewrite col_quad.
  destruct (getPixel_inside cx cy Hin) as [-> Hr].
  destruct Hwf as (Hw & Hh & Hlen0).
  rewrite quad_paint_same; [|lia|rewrite Hlen, Hlen0; lia].
  apply clamped_fill.
Qed.

Lemma col_fill_other d cx cy cx' cy' :
  inb cx cy → inb cx' cy' → (cx, cy) ≠ (cx', cy') →
  col (fill d (getPixel w h cx cy)) cx' cy' = col d cx' cy'.
Proof.
  intros Hin Hin' Hdiff. rewrite !col_quad.
  destruct (getPixel_inside cx cy Hin) as [-> Hr].
  destruct (getPixel_inside cx' cy' Hin') as [-> Hr'].
  apply quad_paint_other.
  assert (cy * w + cx ≠ cy' * w + cx') as Hidx
    by (intros Heq; by apply Hdiff, pixel_index_inj).
  lia.
Qed.

Lemma region_inside cx cy : reg cx cy → inb cx cy ∧ pixelAt img0 cx cy = Sc.
Proof. intros Hr. destruct Hr; done. Qed.

#[local] Abbreviation inv := (Flood.inv img0 x y fc).
#[local] Abbreviation inv_len := (Flood.inv_len img0 x y fc).
#[local] Abbreviation inv_painted := (Flood.inv_painted img0 x y fc).
#[local] Abbreviation inv_stack := (Flood.inv_stack img0 x y fc).
#[local] Abbreviation inv_frontier := (Flood.inv_frontier img0 x y fc).
#[local] Abbreviation inv_start := (Flood.inv_start img0 x y fc).

Lemma inv_init : inv d0 [(x, y)].
Proof.
  split.
  - done.
  - intros cx cy _. left. reflexivity.
  - intros cx cy Hel _ _. apply list_elem_of_singleton in Hel.
    injection Hel as -> ->. by apply region_start.
  - intros cx cy nx ny Hr Hc. exfalso.
    destruct (region_inside _ _ Hr) as [_ Hs].
    apply Hne. rewrite <- Hs, <- Hc. reflexivity.
  - right. apply list_elem_of_singleton. done.
Qed.

(** A popped coordinate that fails the test is outside the region or
    already painted. *)
Lemma failed_test_painted d stack cx cy :
  inv d stack → test d (getPixel w h cx cy) = false → reg cx cy →
  col d cx cy = Tc.
Proof.
  intros Hinv Htest Hr.
  destruct (region_inside _ _ Hr) as [Hin Hs].
  destruct (inv_painted _ _ Hinv cx cy Hin) as [Hsame | [_ Hp]]; [|done].
  exfalso. apply not_true_iff_false in Htest. apply Htest.
  apply test_iff. split; [done|]. by rewrite Hsame.
Qed.

Lemma inv_skip d cx cy stack :
  inv d ((cx, cy) :: stack) → test d (getPixel w h cx cy) = false →
  inv d stack.
Proof.
  intros Hinv Htest. split.
  - apply (inv_len _ _ Hinv).
  - apply (inv_painted _ _ Hinv).
  - intros cx' cy' Hel. apply (inv_stack _ _ Hinv). by apply list_elem_of_further.
  - intros cx' cy' nx ny Hr Hc Hadj Hrn.
    destruct (inv_frontier _ _ Hinv cx' cy' nx ny Hr Hc Hadj Hrn) as [|Hel]; [by left|].
    apply elem_of_cons in Hel as [Heq|Hel]; [|by right].
    injection Heq as -> ->. left.
    by apply (failed_test_painted d ((cx, cy) :: stack)).
  - destruct (inv_start _ _ Hinv) as [|Hel]; [by left|].
    apply elem_of_cons in Hel as [Heq|Hel]; [|by right].
    injection Heq as <- <-. left.
    apply (failed_test_painted d ((x, y) :: stack)); [done..|].
    by apply region_start.
Qed.

Lemma inv_fill d cx cy stack :
  inv d ((cx, cy) :: stack) → test d (getPixel w h cx cy) = true →
  inv (fill d (getPixel w h cx cy))
      ((cx, cy - 1) :: (cx, cy + 1) :: (cx - 1, cy) :: (cx + 1, cy) :: stack).
Proof.
  intros Hinv Htest. apply test_iff in Htest as [Hin Hcol].
  assert (pixelAt img0 cx cy = Sc) as Hsrc.
  { destruct (inv_painted _ _ Hinv cx cy Hin) as [<-|[_ Hp]]; [done|].
    exfalso. apply Hne. by rewrite <- Hcol, Hp. }
  assert (reg cx cy) as Hreg
    by (apply (inv_stack _ _ Hinv); [apply list_elem_of_here|done..]).
  pose proof (col_fill_same d cx cy Hin (inv_len _ _ Hinv)) as Hnew.
  assert (∀ cx' cy', inb cx' cy' → col d cx' cy' = Tc →
            col (fill d (getPixel w h cx cy)) cx' cy' = Tc) as Hkeep.
  { intros cx' cy' Hin' Hc'.
    destruct (decide ((cx, cy) = (cx', cy'))) as [Heq|Hdiff].
    - injection Heq as <- <-. done.
    - by rewrite col_fill_other. }
  split.
  - rewrite length_paint. apply (inv_len _ _ Hinv).
  - intros cx' cy' Hin'.
    destruct (decide ((cx, cy) = (cx', cy'))) as [Heq|Hdiff].
    + injection Heq as <- <-. right. done.
    + rewrite col_fill_other by done. apply (inv_painted _ _ Hinv _ _ Hin').
  - intros nx ny Hel Hinn Hsn.
    rewrite !elem_of_cons in Hel.
    assert (adjacent (cx, cy) (nx, ny) ∨ (nx, ny) ∈ stack) as [Hadj|Hold].
    { unfold adjacent. simpl. tauto. }
    + by apply (region_step img0 x y cx cy).
    + apply (inv_stack _ _ Hinv); [by apply list_elem_of_further|done..].
  - intros cx' cy' nx ny Hr Hc Hadj Hrn.
    destruct (region_inside _ _ Hrn) as [Hinn _].
    destruct (region_inside _ _ Hr) as [Hin' _].
    destruct (decide ((cx, cy) = (cx', cy'))) as [Heq|Hdiff].
    + injection Heq as <- <-. right.
      unfold adjacent in Hadj. simpl in Hadj. rewrite !elem_of_cons. tauto.
    + rewrite col_fill_other in Hc by done.
      destruct (inv_frontier _ _ Hinv cx' cy' nx ny Hr Hc Hadj Hrn) as [Hp|Hel].
      * left. by apply Hkeep.
      * apply elem_of_cons in Hel as [Heq|Hel].
        -- injection Heq as -> ->. left. done.
        -- right. rewrite !elem_of_cons. tauto.
  - destruct (inv_start _ _ Hinv) as [Hp|Hel].
    + left. by apply Hkeep.
    + apply elem_of_cons in Hel as [Heq|Hel].
      * injection Heq as <- <-. left. done.
      * right. rewrite !elem_of_cons. tauto.
Qed.

Lemma inv_final d cx cy :
  inv d [] → inb cx cy →
  (reg cx cy → col d cx cy = Tc)
  ∧ (¬ reg cx cy → col d cx cy = pixelAt img0 cx cy).
Proof.
  intros Hinv Hin. split.
  - intros Hr. clear Hin. induction Hr as [Hs | px py nx ny Hr IH Hadj Hinn Hsn].
    + destruct (inv_start _ _ Hinv) as [|Hel]; [done|].
      by apply elem_of_nil in Hel.
    + destruct (inv_frontier _ _ Hinv px py nx ny Hr IH Hadj) as [|Hel]; [|done|].
      * by apply (region_step img0 x y px py).
      * by apply elem_of_nil in Hel.
  - intros Hnr. destruct (inv_painted _ _ Hinv cx cy Hin) as [|[Hr _]]; done.
Qed.

(** The loop's measure: four per pixel that still passes the test, one
    per stack entry.  Every iteration lowers it by one. *)
Lemma fillLoop_total fuel : ∀ d stack,
  inv d stack →
  (4 * sources sR sG sB sA d (Z.to_nat (w * h)) + length stack ≤ fuel)%nat →
  ∃ d', fillLoop w h (red fc) (green fc) (blue fc) 255 sR sG sB sA fuel d stack
        = Some d'
        ∧ inv d' [].
Proof.
  induction fuel as [|fuel IH]; intros d stack Hinv Hm.
  - destruct stack; [|simpl in Hm; lia]. by exists d.
  - destruct stack as [|[cx cy] stack]; [by exists d|].
    simpl in Hm. simpl.
    destruct (test d (getPixel w h cx cy)) eqn:Htest.
    + apply IH; [by apply inv_fill|].
      pose proof Htest as Hsrc. apply test_iff in Hsrc as [Hin _].
      destruct (getPixel_inside cx cy Hin) as [Hidx Hr].
      destruct Hwf as (Hw & Hh & Hlen0).
      rewrite Hidx in Htest |- *.
      replace (cy * w + cx) with (Z.of_nat (Z.to_nat (cy * w + cx))) in Htest |- * by lia.
      pose proof (sources_paint_below (red fc) (green fc) (blue fc) 255
                    sR sG sB sA d (Z.to_nat (cy * w + cx)) (Z.to_nat (w * h))) as Hdec.
      simpl. rewrite <- Hdec in Hm; [lia| lia | | | done].
      * rewrite (inv_len _ _ Hinv), Hlen0. lia.
      * rewrite clamped_fill. apply Hne.
    + apply IH; [by apply (inv_skip d cx cy)|lia].
Qed.

Lemma sources_le d n : (sources sR sG sB sA d n ≤ n)%nat.
Proof.
  induction n as [|n IH]; simpl; [lia|].
  destruct (test d (Z.of_nat n * 4)); lia.
Qed.

(** The fill proper: it returns, and the returned buffer differs from
    the old one exactly on the region, which has the fill color. *)
Lemma floodFill_filled :
  ∃ img', floodFill img0 x y fc = Some img'
    ∧ width img' = w ∧ height img' = h
    ∧ length (data img') = length d0
    ∧ ∀ cx cy, inb cx cy →
        (reg cx cy → pixelAt img' cx cy = Tc)
        ∧ (¬ reg cx cy → pixelAt img' cx cy = pixelAt img0 cx cy).
Proof.
  destruct (fillLoop_total (S (length d0)) d0 [(x, y)] inv_init) as (d' & Hrun & Hinv).
  { destruct Hwf as (Hw & Hh & Hlen0).
    pose proof (sources_le d0 (Z.to_nat (w * h))). simpl. rewrite Hlen0. lia. }
  exists (ImageData w h d'). split.
  - unfold floodFill.
    destruct (same sR (Some (red fc)) && same sG (Some (green fc))
              && same sB (Some (blue fc)) && same sA (Some 255)) eqn:Enoop.
    + exfalso. apply Hne. unfold same in Enoop.
      rewrite !andb_true_iff, !bool_decide_eq_true in Enoop.
      destruct Enoop as (((HR & HG) & HB) & HA).
      unfold pixelAt, opaque. by rewrite HR, HG, HB, HA.
    + by rewrite Hrun.
  - split; [done|]. split; [done|]. split; [apply (inv_len _ _ Hinv)|].
    intros cx cy Hin. apply (inv_final d' cx cy Hinv Hin).
Qed.
End FloodRegion.

Section FloodNoop.
Import Flood.

(** The early return. *)
Lemma floodFill_noop img x y fc :
  pixelAt img x y = opaque fc → floodFill img x y fc = Some img.
Proof.
  unfold pixelAt, opaque. intros Heq. injection Heq as HR HG HB HA.
  unfold floodFill. rewrite HR, HG, HB, HA. unfold same.
  by rewrite !bool_decide_eq_true_2.
Qed.
End FloodNoop.

Section Checkerboard.
Import Flood.
Variables A B : Z * Z * Z * Z.
Hypothesis HAB : A ≠ B.

Lemma checkerboard_wellFormed : wellFormed (checkerboard A B).
Proof.
  destruct A as [[[a1 a2] a3] a4], B as [[[b1 b2] b3] b4].
  unfold wellFormed. simpl. repeat split; lia.
Qed.

(** From the corner the two neighbours inside the board are [B]. *)
Lemma checkerboard_region cx cy :
  region (checkerboard A B) 0 0 cx cy → (cx, cy) = (0, 0).
Proof.
  intros Hr. induction Hr as [|px py nx ny Hr IH Hadj Hin Hsame]; [done|].
  injection IH as -> ->. exfalso.
  destruct Hin as [Hx Hy]. simpl in Hx, Hy.
  destruct A as [[[a1 a2] a3] a4], B as [[[b1 b2] b3] b4].
  unfold adjacent in Hadj. simpl in Hadj.
  destruct Hadj as [Hn | [Hn | [Hn | Hn]]]; injection Hn as -> ->; try lia;
    vm_compute in Hsame; apply HAB; congruence.
Qed.
End Checkerboard.

(** C4.  [floodFill] at a pixel inside the buffer returns.  When the
    pixel already has the fill color (the opaque one, all four bytes equal)
    the buffer is returned as it is.  Otherwise the returned buffer has the
    size of the old one, every pixel 4-connected to [(x, y)] through pixels
    of [(x, y)]'s exact color has the fill color, and every other pixel is
    what it was.  On the 3×3 checkerboard of [A] and [B], filling at
    [(0, 0)] gives that corner the fill color and leaves the other eight
    pixels, the diagonal [A]s among them, as they were. *)
Theorem floodFill_recolors_region (img : Flood.imageData) (x y : Z)
    (fc : Flood.color) :
  Flood.wellFormed img → Flood.isColor fc → Flood.inBounds img x y →
  (Flood.pixelAt img x y = Flood.opaque fc → Flood.floodFill img x y fc = Some img)
  ∧ (Flood.pixelAt img x y ≠ Flood.opaque fc →
     ∃ img', Flood.floodFill img x y fc = Some img'
       ∧ Flood.width img' = Flood.width img
       ∧ Flood.height img' = Flood.height img
       ∧ ∀ cx cy, Flood.inBounds img cx cy →
           (Flood.region img x y cx cy →
              Flood.pixelAt img' cx cy = Flood.opaque fc)
           ∧ (¬ Flood.region img x y cx cy →
              Flood.pixelAt img' cx cy = Flood.pixelAt img cx cy))
  ∧ (∀ A B, A ≠ B →
     ∃ img', Flood.floodFill (Flood.checkerboard A B) 0 0 fc = Some img'
       ∧ Flood.pixelAt img' 0 0 = Flood.opaque fc
       ∧ ∀ cx cy, Flood.inBounds (Flood.checkerboard A B) cx cy →
           (cx, cy) ≠ (0, 0) →
           Flood.pixelAt img' cx cy = Flood.pixelAt (Flood.checkerboard A B) cx cy).
Proof.
  intros Hwf Hfc Hin. split; [|split].
  - apply floodFill_noop.
  - intros Hne.
    destruct (floodFill_filled img x y fc Hwf Hfc Hin Hne)
      as (img' & Hrun & Hw & Hh & _ & Hpix).
    exists img'. done.
  - intros A B HAB.
    assert (Flood.inBounds (Flood.checkerboard A B) 0 0) as Hin0
      by (unfold Flood.inBounds; simpl; lia).
    destruct (decide (Flood.pixelAt (Flood.checkerboard A B) 0 0 = Flood.opaque fc))
      as [Hsame|Hne].
    + exists (Flood.checkerboard A B). split; [by apply floodFill_noop|]. done.
    + destruct (floodFill_filled _ 0 0 fc (checkerboard_wellFormed A B HAB) Hfc Hin0 Hne)
        as (img' & Hrun & _ & _ & _ & Hpix).
      exists img'. split; [done|]. split.
      * apply (Hpix 0 0 Hin0). by apply Flood.region_start.
      * intros cx cy Hinc Hother. apply (Hpix cx cy Hinc).
        intros Hr. apply Hother. by apply (checkerboard_region A B HAB).
Qed.

Lemma floodFill_recolors_region_witness :
  let A := (10, 20, 30, 255) in
  let B := (1, 2, 3, 255) in
  let fc := Flood.Color 7 8 9 in
  ∃ img', Flood.floodFill (Flood.checkerboard A B) 0 0 fc = Some img'
    ∧ Flood.pixelAt img' 0 0 = Flood.opaque fc
    ∧ Flood.pixelAt img' 2 2 = Flood.pixelAt (Flood.checkerboard A B) 2 2.
Proof.
  intros A B fc.
  destruct (floodFill_recolors_region (Flood.checkerboard A B) 0 0 fc)
    as (_ & Hfill & _).
  - unfold Flood.wellFormed. simpl. repeat split; lia.
  - unfold Flood.isColor. simpl. lia.
  - unfold Flood.inBounds. simpl. lia.
  - destruct Hfill as (img' & Hrun & _ & _ & Hpix); [by vm_compute|].
    exists img'. split; [exact Hrun|]. split.
    + apply (Hpix 0 0); [unfold Flood.inBounds; simpl; lia|].
      apply Flood.region_start. unfold Flood.inBounds. simpl. lia.
    + apply (Hpix 2 2); [unfold Flood.inBounds; simpl; lia|].
      intros Hr. apply (checkerboard_region A B) in Hr; [done|by vm_compute].
Defined.

(** C5.  Filling twice at the same pixel with the same color gives the
    buffer the first fill gave. *)
Theorem floodFill_idempotent (img : Flood.imageData) (x y : Z) (fc : Flood.color) :
  Flood.wellFormed img → Flood.isColor fc → Flood.inBounds img x y →
  ∃ img1, Flood.floodFill img x y fc = Some img1
    ∧ Flood.floodFill img1 x y fc = Some img1.
Proof.
  intros Hwf Hfc Hin.
  destruct (decide (Flood.pixelAt img x y = Flood.opaque fc)) as [Hsame|Hne].
  - exists img. split; by apply floodFill_noop.
  - destruct (floodFill_filled img x y fc Hwf Hfc Hin Hne)
      as (img1 & Hrun & _ & _ & _ & Hpix).
    exists img1. split; [done|]. apply floodFill_noop.
    apply (Hpix x y Hin). by apply Flood.region_start.
Qed.

Lemma floodFill_idempotent_witness :
  let img := Flood.checkerboard (10, 20, 30, 255) (10, 20, 30, 255) in
  ∃ img1, Flood.floodFill img 1 1 (Flood.Color 7 8 9) = Some img1
    ∧ Flood.floodFill img1 1 1 (Flood.Color 7 8 9) = Some img1.
Proof.
  intros img. apply (floodFill_idempotent img 1 1 (Flood.Color 7 8 9)).
  - unfold Flood.wellFormed. simpl. repeat split; lia.
  - unfold Flood.isColor. simpl. lia.
  - unfold Flood.inBounds. simpl. lia.
Defined.

(** C10.  The only color the fill writes is the fill color with alpha
    255: a pixel the fill changed has it.  The early return compares the
    start pixel with (r, g, b, 255), so on a start pixel with the fill
    color's RGB and another alpha the fill goes ahead, and the start pixel
    and its whole region end with alpha 255. *)
Theorem floodFill_writes_opaque (img : Flood.imageData) (x y : Z) (fc : Flood.color) :
  Flood.wellFormed img → Flood.isColor fc → Flood.inBounds img x y →
  ∃ img', Flood.floodFill img x y fc = Some img'
    ∧ (∀ cx cy, Flood.inBounds img cx cy →
         Flood.pixelAt img' cx cy ≠ Flood.pixelAt img cx cy →
         Flood.pixelAt img' cx cy = Flood.opaque fc)
    ∧ (∀ a0,
         Flood.pixelAt img x y
         = (Some (Flood.red fc), Some (Flood.green fc), Some (Flood.blue fc), a0) →
         a0 ≠ Some 255 →
         Flood.pixelAt img' x y = Flood.opaque fc
         ∧ ∀ cx cy, Flood.region img x y cx cy →
             Flood.pixelAt img' cx cy = Flood.opaque fc
             ∧ (Flood.pixelAt img' cx cy).2 = Some 255).
Proof.
  intros Hwf Hfc Hin.
  destruct (decide (Flood.pixelAt img x y = Flood.opaque fc)) as [Hsame|Hne].
  - exists img. split; [by apply floodFill_noop|]. split; [done|].
    intros a0 Ha0 Hne. exfalso. rewrite Hsame in Ha0.
    unfold Flood.opaque in Ha0. congruence.
  - destruct (floodFill_filled img x y fc Hwf Hfc Hin Hne)
      as (img' & Hrun & _ & _ & _ & Hpix).
    exists img'. split; [done|]. split.
    + intros cx cy Hinc Hchanged.
      destruct (decide (Flood.pixelAt img' cx cy = Flood.opaque fc)) as [|Hnot]; [done|].
      exfalso. apply Hchanged. apply (Hpix cx cy Hinc).
      intros Hr. by apply Hnot, (Hpix cx cy Hinc).
    + intros a0 _ _. split.
      * apply (Hpix x y Hin). by apply Flood.region_start.
      * intros cx cy Hr.
        destruct (region_inside img x y cx cy Hr) as [Hinc _].
        destruct (Hpix cx cy Hinc) as [Hfill _].
        rewrite (Hfill Hr). done.
Qed.

Lemma floodFill_writes_opaque_witness :
  let img := Flood.checkerboard (7, 8, 9, 128) (1, 2, 3, 255) in
  ∃ img', Flood.floodFill img 1 1 (Flood.Color 7 8 9) = Some img'
    ∧ Flood.pixelAt img' 1 1 = (Some 7, Some 8, Some 9, Some 255).
Proof.
  intros img.
  destruct (floodFill_writes_opaque img 1 1 (Flood.Color 7 8 9))
    as (img' & Hrun & _ & Htrans).
  - unfold Flood.wellFormed. simpl. repeat split; lia.
  - unfold Flood.isColor. simpl. lia.
  - unfold Flood.inBounds. simpl. lia.
  - exists img'. split; [exact Hrun|].
    destruct (Htrans (Some 128)) as [Hstart _];
      [reflexivity | discriminate | exact Hstart].
Defined.

(** ** Timeline editor: duplication and runs of actions *)

Section EditorFacts.
Context {A : Type}.
Variable undefined : A.
Implicit Types (l : list A) (st : Timeline.state (A:=A)).

(** Inside the array [splice] inserts right after [idx]. *)
Lemma duplicateFrame_inside (i : nat) st x :
  Timeline.frames st !! i = Some x →
  Editor.duplicateFrame undefined (Z.of_nat i) st
  = Timeline.State (take (S i) (Timeline.frames st) ++ x :: drop (S i) (Timeline.frames st))
                   (Z.of_nat i + 1).
Proof.
  intros Hx. pose proof (lookup_lt_Some _ _ _ Hx) as Hi.
  unfold Editor.duplicateFrame, Editor.spliceInsert.
  rewrite (get_in_range undefined _ _ _ Hx).
  destruct (Z.of_nat i + 1 <? 0) eqn:E; [apply Z.ltb_lt in E; lia|].
  replace (Z.to_nat (Z.min (Z.of_nat i + 1) (Z.of_nat (length (Timeline.frames st)))))
    with (S i) by lia.
  done.
Qed.

Lemma moveFrame_sound (idx : Z) dir st :
  0 ≤ idx < Z.of_nat (length (Timeline.frames st)) →
  let st' := Timeline.moveFrame undefined idx dir st in
  st' = st
  ∨ (length (Timeline.frames st') = length (Timeline.frames st)
     ∧ 0 ≤ Timeline.selectedFrameIdx st' < Z.of_nat (length (Timeline.frames st))).
Proof.
  intros Hidx st'. subst st'.
  remember (idx + Timeline.offset dir) as t eqn:Et.
  destruct (decide (0 ≤ t < Z.of_nat (length (Timeline.frames st)))) as [Ht|Ht].
  - right.
    destruct (lookup_lt_is_Some_2 (Timeline.frames st) (Z.to_nat idx)) as [x Hx]; [lia|].
    destruct (lookup_lt_is_Some_2 (Timeline.frames st) (Z.to_nat t)) as [y Hy]; [lia|].
    assert (Timeline.moveFrame undefined idx dir st
            = Timeline.State
                (<[Z.to_nat t := x]> (<[Z.to_nat idx := y]> (Timeline.frames st)))
                (Z.of_nat (Z.to_nat t))) as ->.
    { rewrite <- (moveFrame_inside undefined (Z.to_nat idx) (Z.to_nat t) dir st x y);
        [f_equal; lia | lia | done | done]. }
    simpl. rewrite !length_insert. lia.
  - left. unfold Timeline.moveFrame. rewrite <- Et.
    destruct (t <? 0) eqn:E1; [done|].
    destruct (t >=? Z.of_nat (length (Timeline.frames st))) eqn:E2; [done|].
    apply Z.ltb_ge in E1. rewrite Z.geb_leb in E2. apply Z.leb_gt in E2. lia.
Qed.

Lemma duplicateFrame_sound (idx : Z) st :
  0 ≤ idx < Z.of_nat (length (Timeline.frames st)) →
  let st' := Editor.duplicateFrame undefined idx st in
  length (Timeline.frames st') = S (length (Timeline.frames st))
  ∧ Timeline.selectedFrameIdx st' = idx + 1.
Proof.
  intros Hidx st'. subst st'.
  destruct (lookup_lt_is_Some_2 (Timeline.frames st) (Z.to_nat idx)) as [x Hx]; [lia|].
  pose proof (duplicateFrame_inside _ st x Hx) as Hdup.
  replace (Z.of_nat (Z.to_nat idx)) with idx in Hdup by lia.
  rewrite Hdup. simpl.
  rewrite length_app. simpl. rewrite length_take, length_drop. split; lia.
Qed.
End EditorFacts.

(** X1.  Duplicating a frame of the timeline inserts a copy of it right
    after it: the frames up to and including [idx] and the frames after it
    keep their order around the copy, the timeline is one longer and the
    selection moves to the copy. *)
Theorem duplicateFrame_inserts_copy {A : Type} (undefined : A) (idx : Z)
    (st : Timeline.state (A:=A)) :
  0 ≤ idx < Z.of_nat (length (Timeline.frames st)) →
  let i := Z.to_nat idx in
  let st' := Editor.duplicateFrame undefined idx st in
  length (Timeline.frames st') = S (length (Timeline.frames st))
  ∧ Timeline.frames st' !! S i = Timeline.frames st !! i
  ∧ (∀ j, (j ≤ i)%nat → Timeline.frames st' !! j = Timeline.frames st !! j)
  ∧ (∀ j, (i < j)%nat → Timeline.frames st' !! S j = Timeline.frames st !! j)
  ∧ Timeline.selectedFrameIdx st' = idx + 1.
Proof.
  intros Hidx i st'.
  destruct (lookup_lt_is_Some_2 (Timeline.frames st) i) as [x Hx]; [subst i; lia|].
  assert (st' = Timeline.State
            (take (S i) (Timeline.frames st) ++ x :: drop (S i) (Timeline.frames st))
            (idx + 1)) as ->.
  { subst st'. replace idx with (Z.of_nat i) by (subst i; lia).
    by apply duplicateFrame_inside. }
  pose proof (lookup_lt_Some _ _ _ Hx) as Hi. simpl.
  assert (length (take (S i) (Timeline.frames st)) = S i) as Hlen
    by (rewrite length_take; lia).
  split; [|split; [|split; [|split]]].
  - rewrite length_app. simpl. rewrite Hlen, length_drop. lia.
  - rewrite lookup_app_r by lia. rewrite Hlen, Nat.sub_diag. simpl. done.
  - intros j Hj. rewrite lookup_app_l by lia. apply lookup_take_lt. lia.
  - intros j Hj. rewrite lookup_app_r by lia. rewrite Hlen.
    replace (S j - S i)%nat with (S (j - S i)) by lia. simpl.
    rewrite lookup_drop. f_equal. lia.
  - done.
Qed.

Lemma duplicateFrame_inserts_copy_witness :
  Timeline.frames (Editor.duplicateFrame 0%nat 1 (Timeline.State [10; 20; 30]%nat 1))
    !! 2%nat = Some 20%nat.
Proof.
  destruct (duplicateFrame_inserts_copy 0%nat 1 (Timeline.State [10; 20; 30]%nat 1))
    as (_ & Hcopy & _); [simpl; lia|].
  exact Hcopy.
Defined.

(** X2.  Deleting the copy that a duplication has just made gives back the
    frames as they were. *)
Theorem duplicate_then_delete_restores {A : Type} (undefined : A) (idx : Z)
    (st : Timeline.state (A:=A)) :
  0 ≤ idx < Z.of_nat (length (Timeline.frames st)) →
  Timeline.frames
    (Timeline.deleteFrame (idx + 1) (Editor.duplicateFrame undefined idx st))
  = Timeline.frames st.
Proof.
  intros Hidx.
  destruct (lookup_lt_is_Some_2 (Timeline.frames st) (Z.to_nat idx)) as [x Hx]; [lia|].
  pose proof (lookup_lt_Some _ _ _ Hx) as Hi.
  pose proof (duplicateFrame_inside undefined _ st x Hx) as Hdup.
  replace (Z.of_nat (Z.to_nat idx)) with idx in Hdup by lia.
  rewrite Hdup. clear Hdup.
  set (l1 := take (S (Z.to_nat idx)) (Timeline.frames st)).
  set (l2 := drop (S (Z.to_nat idx)) (Timeline.frames st)).
  assert (length l1 = S (Z.to_nat idx)) as Hl1 by (subst l1; rewrite length_take; lia).
  unfold Timeline.deleteFrame. simpl Timeline.frames.
  destruct (length (l1 ++ x :: l2) <=? 1)%nat eqn:E.
  { apply Nat.leb_le in E. rewrite length_app in E. simpl in E. lia. }
  simpl. rewrite filter_delete by lia.
  replace (Z.to_nat (idx + 1)) with (length l1) by lia.
  rewrite delete_middle. subst l1 l2. apply take_drop.
Qed.

Lemma duplicate_then_delete_restores_witness :
  Timeline.frames
    (Timeline.deleteFrame 3 (Editor.duplicateFrame 0%nat 2
                               (Timeline.State [10; 20; 30]%nat 0)))
  = [10; 20; 30]%nat.
Proof.
  apply (duplicate_then_delete_restores 0%nat 2 (Timeline.State [10; 20; 30]%nat 0)).
  simpl. lia.
Defined.

(** X3.  From a session with at least one frame and the selection on one
    of them, every run of editor actions aimed at frames of the timeline
    (clicks, moves, deletions, duplications, play and speed changes) ends in
    a session with at least one frame and the selection on one of them. *)
Theorem editor_actions_keep_selection_valid {A : Type} (undefined : A)
    (s s' : Editor.session A) (actions : list (Editor.action)) :
  Editor.sound s → Editor.run undefined s actions s' → Editor.sound s'.
Proof.
  intros Hs Hrun. induction Hrun as [|s a rest s' Hon Hrun IH]; [done|].
  apply IH. clear IH Hrun. destruct Hs as [Hlen Hsel].
  unfold Editor.onFrame in Hon. unfold Editor.sound.
  destruct a as [idx|idx dir|idx|idx| |fps];
    cbn [Editor.act Editor.timeline Editor.target Timeline.frames
         Timeline.selectedFrameIdx] in *; try done.
  - destruct (moveFrame_sound undefined idx dir (Editor.timeline s) Hon)
      as [Hsame | (Hl & Hs')].
    + by rewrite Hsame.
    + rewrite Hl. lia.
  - unfold Timeline.deleteFrame.
    destruct (length (Timeline.frames (Editor.timeline s)) <=? 1)%nat eqn:E; [done|].
    apply Nat.leb_gt in E. simpl. rewrite filter_delete by lia.
    rewrite length_delete by (apply lookup_lt_is_Some; lia).
    split; [lia|].
    destruct (_ >=? _) eqn:E2; [lia|].
    rewrite Z.geb_leb in E2. apply Z.leb_gt in E2. lia.
  - destruct (duplicateFrame_sound undefined idx (Editor.timeline s) Hon) as [-> ->].
    lia.
Qed.

Lemma editor_actions_keep_selection_valid_witness :
  let s := Editor.Session (Timeline.State [10; 20; 30]%nat 0) true 8 in
  let actions :=
    [Editor.Duplicate 0; Editor.Delete 1; Editor.Move 0 Timeline.Plus1;
     Editor.ClickFrame 2; Editor.Delete 2; Editor.Delete 1; Editor.Delete 0] in
  Editor.sound (foldl (λ s a, Editor.act 0%nat a s) s actions).
Proof.
  intros s actions.
  apply (editor_actions_keep_selection_valid 0%nat s _ actions).
  - unfold Editor.sound. simpl. lia.
  - repeat (apply Editor.run_cons; [unfold Editor.onFrame; simpl; lia|]).
    apply Editor.run_nil.
Defined.

(** ** Slicing and stitching: defaults, any timeline, and the way back *)

Section StripMore.
Context {Px : Type}.
Variable transparent : Px.
Variable over : Px → Px → Px.
Hypothesis over_transparent : ∀ p, over p transparent = p.

(** Slicing, for any declared count: what [slice_loop] gives for the whole
    loop. *)
Lemma initEditor_frames (img : Strip.bitmap Px) (metaFrames : option nat) :
  let n := Strip.frameCountOf metaFrames in
  let fw := (Strip.width img / n)%nat in
  let frames := Strip.initEditor transparent over img metaFrames in
  length frames = n
  ∧ ∀ i f, frames !! i = Some f →
      Strip.is_frame transparent img fw (Strip.height img) i f.
Proof.
  intros n fw frames.
  destruct (slice_loop transparent over over_transparent img fw (Strip.height img)
              n 0%nat (Strip.createCanvas transparent fw (Strip.height img)) []
              eq_refl eq_refl) as (Hlen & _ & Hnew).
  simpl in Hlen, Hnew.
  assert (frames = snd (foldl
            (Strip.sliceStep transparent over img fw (Strip.height img))
            (Strip.createCanvas transparent fw (Strip.height img), [])
            (seq 0 n))) as Hframes by done.
  rewrite <- Hframes in Hlen, Hnew.
  split; [exact Hlen|].
  intros i f Hf. pose proof (lookup_lt_Some _ _ _ Hf) as Hi.
  destruct (Hnew i) as (f' & Hf' & Hfr); [lia|]. congruence.
Qed.

Lemma frameCountOf_pos m : (1 ≤ Strip.frameCountOf m)%nat.
Proof. destruct m as [[|n]|]; simpl; lia. Qed.

(** Stitching keeps the canvas size whatever the frames are, and leaves
    the columns before the first drawn frame alone. *)
Lemma stitch_any (fw : nat) (entries : list (nat * Strip.bitmap Px)) : ∀ c,
  let r := foldl (Strip.stitchStep transparent over fw) c entries in
  Strip.width r = Strip.width c ∧ Strip.height r = Strip.height c
  ∧ ∀ X y, (∀ e, e ∈ entries → (X < e.1 * fw)%nat) →
      Strip.pixel r X y = Strip.pixel c X y.
Proof.
  induction entries as [|[i f] entries IH]; intros c; cbn [foldl].
  - done.
  - destruct (IH (Strip.stitchStep transparent over fw c (i, f))) as (Hw & Hh & Hpx).
    cbv zeta. rewrite Hw, Hh. split; [done|]. split; [done|].
    intros X y Hbefore. rewrite Hpx.
    + simpl.
      destruct (i * fw <=? X)%nat eqn:E.
      * apply Nat.leb_le in E. specialize (Hbefore (i, f) (list_elem_of_here _ _)).
        simpl in Hbefore. lia.
      * by rewrite !andb_false_r.
    + intros e He. apply Hbefore. by apply list_elem_of_further.
Qed.
End StripMore.

(** X4.  The sliced timeline is never empty, and for an asset whose frame
    count is missing or zero it is a single frame that is the whole image. *)
Theorem initEditor_without_frame_count {Px : Type} (transparent : Px)
    (over : Px → Px → Px) (img : Strip.bitmap Px) (metaFrames : option nat) :
  (∀ p, over p transparent = p) →
  let frames := Strip.initEditor transparent over img metaFrames in
  (1 ≤ length frames)%nat
  ∧ (metaFrames = None ∨ metaFrames = Some 0%nat →
     ∃ f, frames = [f]
       ∧ Strip.width f = Strip.width img ∧ Strip.height f = Strip.height img
       ∧ ∀ x y, (x < Strip.width img)%nat → (y < Strip.height img)%nat →
           Strip.pixel f x y = Strip.pixel img x y).
Proof.
  intros Hover frames.
  destruct (initEditor_frames transparent over Hover img metaFrames) as [Hlen Hall].
  fold frames in Hlen, Hall.
  split; [rewrite Hlen; apply frameCountOf_pos|].
  intros Hm.
  assert (Strip.frameCountOf metaFrames = 1%nat) as H1 by (destruct Hm as [->| ->]; done).
  rewrite H1 in Hlen, Hall. rewrite Nat.div_1_r in Hall.
  destruct frames as [|f [|f' rest]]; simpl in Hlen; try lia.
  exists f. split; [done|].
  destruct (Hall 0%nat f eq_refl) as (Hw & Hh & Hpx).
  split; [done|]. split; [done|].
  intros x y Hx Hy. rewrite Hpx by done. simpl.
  unfold Strip.sample, Strip.inside.
  destruct (x <? Strip.width img)%nat eqn:E1; [|apply Nat.ltb_ge in E1; lia].
  destruct (y <? Strip.height img)%nat eqn:E2; [|apply Nat.ltb_ge in E2; lia].
  done.
Qed.

Lemma initEditor_without_frame_count_witness :
  let over := λ p q : nat, match p with O => q | _ => p end in
  let img := Strip.Bitmap 5 2 (λ x y, 1 + x + 10 * y)%nat in
  (1 ≤ length (Strip.initEditor 0%nat over img None))%nat.
Proof.
  intros over img.
  destruct (initEditor_without_frame_count 0%nat over img None) as [Hlen _].
  - intros [|p]; reflexivity.
  - exact Hlen.
Defined.

(** X5.  Saving an empty timeline returns at once and saves nothing.
    Saving a timeline in which every frame has pixels, uniform or not,
    reports its length as the frame count and yields a bitmap as high as the
    first frame and as wide as the first frame times the number of frames,
    whose first columns are the first frame.  A timeline with a frame
    without pixels (width or height 0) is never saved: the save stays
    pending. *)
Theorem handleSave_sizes_by_first_frame {Px : Type} (transparent : Px)
    (over : Px → Px → Px) (f0 : Strip.bitmap Px) (rest : list (Strip.bitmap Px)) :
  (∀ p, over p transparent = p) →
  Strip.handleSave transparent over [] = Strip.Returned
  ∧ (Forall (λ f, (1 ≤ Strip.width f ∧ 1 ≤ Strip.height f)%nat) (f0 :: rest) →
     ∃ out, Strip.handleSave transparent over (f0 :: rest)
            = Strip.Saved out (S (length rest))
       ∧ Strip.width out = (Strip.width f0 * S (length rest))%nat
       ∧ Strip.height out = Strip.height f0
       ∧ ∀ x y, (x < Strip.width f0)%nat → (y < Strip.height f0)%nat →
           Strip.pixel out x y = Strip.pixel f0 x y)
  ∧ (Exists (λ f, Strip.width f = 0 ∨ Strip.height f = 0)%nat (f0 :: rest) →
     Strip.handleSave transparent over (f0 :: rest) = Strip.Pending).
Proof.
  intros Hover. split; [done|]. split; [|apply handleSave_pending].
  intros Hdec.
  eexists. split; [apply (handleSave_decoded transparent over f0 rest Hdec)|].
  cbn [length seq zip zip_with foldl].
  set (c0 := Strip.createCanvas transparent
               (Strip.width f0 * S (length rest)) (Strip.height f0)).
  set (c1 := Strip.stitchStep transparent over (Strip.width f0) c0 (0%nat, f0)).
  destruct (stitch_any transparent over (Strip.width f0)
              (zip (seq 1 (length rest)) rest) c1) as (Hw & Hh & Hpx).
  cbv zeta in Hw, Hh, Hpx.
  destruct (stitchStep_pixel transparent over (Strip.width f0) (Strip.height f0)
              c0 0%nat f0 0%nat 0%nat eq_refl eq_refl) as (Hw1 & Hh1 & _ & _).
  fold c1 in Hw1, Hh1.
  split; [by rewrite Hw, Hw1|]. split; [by rewrite Hh, Hh1|].
  intros x y Hx Hy. rewrite Hpx.
  - destruct (stitchStep_pixel transparent over (Strip.width f0) (Strip.height f0)
                c0 0%nat f0 x y eq_refl eq_refl) as (_ & _ & _ & Hdraw).
    fold c1 in Hdraw.
    assert (Strip.inside c0 x y = true) as Hin.
    { unfold Strip.inside. simpl.
      destruct (x <? Strip.width f0 * S (length rest))%nat eqn:E1;
        [|apply Nat.ltb_ge in E1; nia].
      destruct (y <? Strip.height f0)%nat eqn:E2; [|apply Nat.ltb_ge in E2; lia].
      done. }
    rewrite (Hdraw x eq_refl Hx Hy Hin). simpl. apply Hover.
  - intros [i f] He. simpl. apply elem_of_zip_l in He. simpl in He.
    apply elem_of_seq in He. nia.
Qed.

Lemma handleSave_sizes_by_first_frame_witness :
  let over := λ p q : nat, match p with O => q | _ => p end in
  let f0 := Strip.Bitmap 2 2 (λ x y, 1 + x + 10 * y)%nat in
  let f1 := Strip.Bitmap 3 1 (λ x y, 7)%nat in
  let empty := Strip.Bitmap 0 2 (λ x y, 0)%nat in
  (∃ out, Strip.handleSave 0%nat over [f0; f1] = Strip.Saved out 2%nat
     ∧ Strip.width out = 4%nat)
  ∧ Strip.handleSave 0%nat over [f0; empty] = Strip.Pending.
Proof.
  intros over f0 f1 empty. split.
  - destruct (handleSave_sizes_by_first_frame 0%nat over f0 [f1])
      as (_ & Hsaved & _); [intros [|p]; reflexivity|].
    destruct Hsaved as (out & Hsave & Hw & _);
      [repeat constructor; simpl; lia|].
    exists out. split; [exact Hsave | exact Hw].
  - destruct (handleSave_sizes_by_first_frame 0%nat over f0 [empty])
      as (_ & _ & Hpending); [intros [|p]; reflexivity|].
    apply Hpending. apply Exists_cons_tl, Exists_cons_hd. by left.
Defined.

(** X6.  Slicing what a save has stitched gives the timeline back: for a
    non-empty timeline of frames of one size, at least one pixel wide and
    high, saving and re-opening the result with the reported frame count
    yields as many frames of that size with the same pixels. *)
Theorem stitch_then_slice {Px : Type} (transparent : Px) (over : Px → Px → Px)
    (frames : list (Strip.bitmap Px)) (fw fh : nat) :
  (∀ p, over p transparent = p) →
  frames ≠ [] →
  (1 ≤ fw)%nat → (1 ≤ fh)%nat →
  (∀ i f, frames !! i = Some f → Strip.width f = fw ∧ Strip.height f = fh) →
  ∃ out n, Strip.handleSave transparent over frames = Strip.Saved out n
    ∧ let frames' := Strip.initEditor transparent over out (Some n) in
      length frames' = length frames
      ∧ ∀ i f f', frames !! i = Some f → frames' !! i = Some f' →
          Strip.width f' = fw ∧ Strip.height f' = fh
          ∧ ∀ x y, (x < fw)%nat → (y < fh)%nat →
              Strip.pixel f' x y = Strip.pixel f x y.
Proof.
  intros Hover Hne Hfw1 Hfh1 Hdim.
  destruct frames as [|f0 rest] eqn:Hfs; [done|]. rewrite <- Hfs in *.
  assert (length frames = S (length rest)) as Hn by (by rewrite Hfs).
  destruct (Hdim 0%nat f0) as [Hw0 Hh0]; [by rewrite Hfs|].
  assert (Forall (λ f, (1 ≤ Strip.width f ∧ 1 ≤ Strip.height f)%nat) (f0 :: rest))
    as Hdec.
  { rewrite <- Hfs. apply Forall_lookup. intros i f Hf.
    destruct (Hdim i f Hf) as [-> ->]. lia. }
  set (c0 := Strip.createCanvas transparent (fw * length frames) fh).
  destruct (stitch_loop transparent over fw fh frames 0%nat c0 Hdim)
    as (Hw & Hh & _ & Hhit).
  set (out := foldl (Strip.stitchStep transparent over fw) c0
                (zip (seq 0 (length frames)) frames)) in *.
  exists out, (length frames). split.
  { rewrite Hfs. rewrite (handleSave_decoded transparent over f0 rest Hdec).
    rewrite Hw0, Hh0. subst out c0. rewrite Hfs. reflexivity. }
  intros frames'.
  destruct (initEditor_frames transparent over Hover out (Some (length frames)))
    as [Hlen Hall].
  fold frames' in Hlen, Hall.
  assert (Strip.frameCountOf (Some (length frames)) = length frames) as Hcount
    by (rewrite Hn; done).
  rewrite Hcount in Hlen, Hall.
  assert (Strip.width out / length frames = fw)%nat as Hfw.
  { rewrite Hw. simpl. apply Nat.div_mul. lia. }
  rewrite Hfw, Hh in Hall. simpl in Hall.
  split; [exact Hlen|].
  intros i f f' Hf Hf'. destruct (Hall i f' Hf') as (Hw' & Hh' & Hpx).
  split; [done|]. split; [done|].
  intros x y Hx Hy. rewrite Hpx by done.
  pose proof (lookup_lt_Some _ _ _ Hf) as Hi.
  assert (Strip.inside c0 (i * fw + x) y = true) as Hin.
  { unfold Strip.inside. simpl.
    destruct (i * fw + x <? fw * length frames)%nat eqn:E1;
      [|apply Nat.ltb_ge in E1; nia].
    destruct (y <? fh)%nat eqn:E2; [|apply Nat.ltb_ge in E2; lia]. done. }
  unfold Strip.sample.
  assert (Strip.inside out (i * fw + x) y = true) as ->
    by (unfold Strip.inside in *; by rewrite Hw, Hh).
  specialize (Hhit i f x y Hf Hx Hy). simpl in Hhit.
  rewrite Hhit by done. apply Hover.
Qed.

Lemma stitch_then_slice_witness :
  let over := λ p q : nat, match p with O => q | _ => p end in
  let f0 := Strip.Bitmap 2 1 (λ x y, 1 + x)%nat in
  let f1 := Strip.Bitmap 2 1 (λ x y, 5 + x)%nat in
  ∃ out n, Strip.handleSave 0%nat over [f0; f1] = Strip.Saved out n
    ∧ length (Strip.initEditor 0%nat over out (Some n)) = 2%nat.
Proof.
  intros over f0 f1.
  destruct (stitch_then_slice 0%nat over [f0; f1] 2 1)
    as (out & n & Hsave & Hlen & _).
  - intros [|p]; reflexivity.
  - done.
  - lia.
  - lia.
  - intros [|[|i]] f Hf; simpl in Hf; try done; injection Hf as <-; done.
  - exists out, n. split; [exact Hsave | exact Hlen].
Defined.

(** ** Playback over many ticks *)

Lemma animate_due `{Playback.Number T} cfg (st : Playback.loopState T) time :
  Playback.animate cfg st time
  = if Preview.due cfg st time
    then Playback.LoopState
           (if Playback.isPlaying cfg
            then Z.rem (Playback.currentFrame st + 1) (Playback.framesLength cfg)
            else if Playback.selectedFrameIdx cfg <? Playback.framesLength cfg
                 then Playback.selectedFrameIdx cfg else 0)
           (Some time)
    else Playback.LoopState (Playback.currentFrame st)
           (Some (if Playback.unset (Playback.startTime st) then time
                  else default time (Playback.startTime st))).
Proof. reflexivity. Qed.

(** X7.  While the effect is registered (at least one frame) and the
    selection is not negative, the displayed index stays inside the
    timeline: from an index in [0, frames.length), any sequence of display
    callbacks, at whatever times, playing or paused, leaves it there.  This
    holds in any arithmetic, that of doubles included. *)
Theorem playback_index_in_range `{Playback.Number T} (cfg : Playback.config)
    (times : list T) (st : Playback.loopState T) :
  0 < Playback.framesLength cfg →
  0 ≤ Playback.selectedFrameIdx cfg →
  0 ≤ Playback.currentFrame st < Playback.framesLength cfg →
  0 ≤ Playback.currentFrame (Preview.play cfg times st) < Playback.framesLength cfg.
Proof.
  intros Hlen Hsel. revert st.
  induction times as [|time times IH]; intros st Hcur; [done|].
  unfold Preview.play. cbn [foldl]. apply IH.
  rewrite animate_due. destruct (Preview.due cfg st time); simpl; [|done].
  destruct (Playback.isPlaying cfg).
  - apply Z.rem_bound_pos; lia.
  - destruct (Playback.selectedFrameIdx cfg <? Playback.framesLength cfg) eqn:E; [|lia].
    apply Z.ltb_lt in E. lia.
Qed.

Lemma playback_index_in_range_witness :
  let cfg := Playback.Config 3 8 true 1 in
  let st := Playback.LoopState 0 None in
  0 ≤ Playback.currentFrame
        (Preview.play cfg [10; 200; 210; 400; 1000; 1001]%Q st) < 3.
Proof.
  intros cfg st. apply (playback_index_in_range cfg _ st); simpl; lia.
Defined.

Lemma due_started cfg (st : Playback.loopState Q) time s :
  Playback.startTime st = Some s → ¬ (s == 0)%Q →
  Preview.due cfg st time
  = Qltb (1000 / inject_Z (Z.pos (Playback.fps cfg))) (time - s).
Proof.
  intros Hs Hnz. unfold Preview.due. by rewrite Hs, (unset_false s Hnz).
Qed.

(** X8.  Playback never runs ahead of the frame rate.  Over any sequence
    of display callbacks (at non-zero times) after a recorded reference
    time [s], the reference time ends at some [e] and the callbacks that
    passed the test number [n] with [n · (1000 / fps) ≤ e − s]: each advance
    uses up more than one interval of the time between [s] and [e]. *)
Theorem playback_rate_bounded (cfg : Playback.config) (times : list Q)
    (st : Playback.loopState Q) (s : Q) :
  Playback.startTime st = Some s → ¬ (s == 0)%Q →
  Forall (λ t, ¬ (t == 0)%Q) times →
  ∃ e, Playback.startTime (Preview.play cfg times st) = Some e
    ∧ (inject_Z (Z.of_nat (Preview.advances cfg times st))
       * (1000 / inject_Z (Z.pos (Playback.fps cfg))) <= e - s)%Q.
Proof.
  intros Hs Hnz Htimes. revert st s Hs Hnz.
  induction Htimes as [|time times Htime _ IH]; intros st s Hs Hnz.
  - exists s. split; [done|]. simpl.
    generalize (1000 / inject_Z (Z.pos (Playback.fps cfg)))%Q. intros interval.
    rewrite Qmult_0_l. lra.
  - unfold Preview.play. cbn [foldl Preview.advances].
    rewrite (due_started cfg st time s Hs Hnz).
    pose proof (animate_started cfg st time s Hs Hnz) as Hstep.
    set (interval := (1000 / inject_Z (Z.pos (Playback.fps cfg)))%Q) in *.
    destruct (Qltb interval (time - s)) eqn:Hdue.
    + apply Qltb_lt in Hdue.
      destruct (IH (Playback.animate cfg st time) time) as (e & He & Hbound);
        [by rewrite Hstep | done |].
      exists e. split; [exact He|].
      set (k := Preview.advances cfg times (Playback.animate cfg st time)) in *.
      replace (Z.of_nat (1 + k)) with (1 + Z.of_nat k) by lia.
      rewrite inject_Z_plus.
      assert ((inject_Z 1 + inject_Z (Z.of_nat k)) * interval
              == interval + inject_Z (Z.of_nat k) * interval)%Q as -> by ring.
      clearbody interval.
      generalize dependent (inject_Z (Z.of_nat k) * interval)%Q.
      intros ki Hbound. lra.
    + destruct (IH (Playback.animate cfg st time) s) as (e & He & Hbound);
        [by rewrite Hstep | done |].
      exists e. split; [exact He|]. exact Hbound.
Qed.

Lemma playback_rate_bounded_witness :
  let cfg := Playback.Config 3 8 true 1 in
  let st := Playback.LoopState 0 (Some 1000%Q) in
  let times := [1100; 1126; 1200; 1252; 2000]%Q in
  ∃ e, Playback.startTime (Preview.play cfg times st) = Some e
    ∧ (inject_Z (Z.of_nat (Preview.advances cfg times st)) * (1000 / inject_Z 8)
       <= e - 1000)%Q.
Proof.
  intros cfg st times.
  apply (playback_rate_bounded cfg times st 1000%Q).
  - reflexivity.
  - by intros H.
  - repeat constructor; by intros H.
Defined.

(** ** Where the preview draws the frame *)

(** X9.  The preview draws a frame of positive size with its aspect ratio
    kept, centred on the canvas, inside 80% of the canvas in both directions
    and filling 80% in at least one of them. *)
Theorem place_contains_and_centres (canvasW canvasH imgW imgH : Q) :
  (0 < imgW)%Q → (0 < imgH)%Q →
  let p := Preview.place canvasW canvasH imgW imgH in
  (Preview.drawW p <= (8 # 10) * canvasW
   ∧ Preview.drawH p <= (8 # 10) * canvasH
   ∧ (Preview.drawW p == (8 # 10) * canvasW ∨ Preview.drawH p == (8 # 10) * canvasH)
   ∧ Preview.drawW p * imgH == Preview.drawH p * imgW
   ∧ Preview.drawX p + Preview.drawW p / 2 == canvasW / 2
   ∧ Preview.drawY p + Preview.drawH p / 2 == canvasH / 2)%Q.
Proof.
  intros HW HH p. subst p. unfold Preview.place. simpl.
  set (m := Qmin (canvasW / imgW) (canvasH / imgH)).
  assert (imgW * (canvasW / imgW) == canvasW)%Q as Ha by (field; lra).
  assert (imgH * (canvasH / imgH) == canvasH)%Q as Hb by (field; lra).
  assert (imgW * m <= canvasW)%Q as HmW.
  { rewrite <- Ha. apply Qmult_le_l; [done|]. apply Q.le_min_l. }
  assert (imgH * m <= canvasH)%Q as HmH.
  { rewrite <- Hb. apply Qmult_le_l; [done|]. apply Q.le_min_r. }
  assert (imgW * m == canvasW ∨ imgH * m == canvasH)%Q as Hfill.
  { destruct (Q.min_spec (canvasW / imgW) (canvasH / imgH)) as [[_ Hm]|[_ Hm]];
      fold m in Hm; rewrite Hm; [left|right]; done. }
  assert (imgW * (m * (8 # 10)) == (8 # 10) * (imgW * m))%Q as HdW by ring.
  assert (imgH * (m * (8 # 10)) == (8 # 10) * (imgH * m))%Q as HdH by ring.
  split; [rewrite HdW; lra|]. split; [rewrite HdH; lra|]. split.
  { destruct Hfill as [Hf|Hf]; [left; rewrite HdW, Hf|right; rewrite HdH, Hf]; reflexivity. }
  split; [ring|]. split; field.
Qed.

Lemma place_contains_and_centres_witness :
  let p := Preview.place 800 600 32 64 in
  (Preview.drawH p <= (8 # 10) * 600
   ∧ Preview.drawX p + Preview.drawW p / 2 == 800 / 2)%Q.
Proof.
  intros p.
  destruct (place_contains_and_centres 800 600 32 64)
    as (_ & HdrawH & _ & _ & Hcentre & _); [reflexivity | reflexivity |].
  split; [exact HdrawH | exact Hcentre].
Defined.

(** ** Runtime preview: what every tick keeps *)

Section RuntimeMore.
Import Runtime.

(** The fields the later phases of a tick do not touch. *)
Lemma floorCollision_horizontal p :
  x (floorCollision p) = x p ∧ vx (floorCollision p) = vx p
  ∧ height (floorCollision p) = height p
  ∧ facingRight (floorCollision p) = facingRight p.
Proof. unfold floorCollision. destruct (Qltb _ _); done. Qed.

Lemma applyJump_horizontal k p :
  x (applyJump k p) = x p ∧ vx (applyJump k p) = vx p
  ∧ height (applyJump k p) = height p
  ∧ facingRight (applyJump k p) = facingRight p.
Proof. unfold applyJump. destruct (space k && grounded p); done. Qed.

Lemma stateMachine_horizontal p :
  x (stateMachine p) = x p ∧ vx (stateMachine p) = vx p
  ∧ height (stateMachine p) = height p
  ∧ facingRight (stateMachine p) = facingRight p.
Proof.
  unfold stateMachine. destruct (negb (grounded p)); [done|].
  destruct (Qltb _ _); done.
Qed.

Lemma platformCollision_horizontal tile p :
  x (platformCollision tile p) = x p ∧ vx (platformCollision tile p) = vx p
  ∧ height (platformCollision tile p) = height p
  ∧ facingRight (platformCollision tile p) = facingRight p.
Proof.
  unfold platformCollision. destruct tile; [|done].
  destruct (platformHit p); done.
Qed.

Lemma animatePlayer_horizontal img n p :
  x (animatePlayer img n p) = x p ∧ vx (animatePlayer img n p) = vx p
  ∧ height (animatePlayer img n p) = height p
  ∧ facingRight (animatePlayer img n p) = facingRight p.
Proof.
  unfold animatePlayer. destruct img; [|done]. simpl.
  destruct (8 <? _)%nat; done.
Qed.

Lemma loop_horizontal k g :
  let q := applyPhysics (applyInput k (player_of g)) in
  let p' := player_of (loop k g) in
  x p' = x q ∧ vx p' = vx q ∧ height p' = height q
  ∧ facingRight p' = facingRight q.
Proof.
  intros q p'. subst p'. rewrite loop_unfold.
  cbn [player_of]. unfold settled. fold q.
  set (f := floorCollision q).
  set (j := applyJump k f).
  set (m := stateMachine j).
  set (c := platformCollision (a_tile (assets_of g)) m).
  destruct (animatePlayer_horizontal
              (fst (activeSprite (assets_of g) (meta_of g) (state c)))
              (snd (activeSprite (assets_of g) (meta_of g) (state c))) c)
    as (Ha1 & Ha2 & Ha3 & Ha4).
  destruct (platformCollision_horizontal (a_tile (assets_of g)) m)
    as (Hc1 & Hc2 & Hc3 & Hc4).
  destruct (stateMachine_horizontal j) as (Hm1 & Hm2 & Hm3 & Hm4).
  destruct (applyJump_horizontal k f) as (Hj1 & Hj2 & Hj3 & Hj4).
  destruct (floorCollision_horizontal q) as (Hf1 & Hf2 & Hf3 & Hf4).
  fold f in Hf1, Hf2, Hf3, Hf4. fold j in Hj1, Hj2, Hj3, Hj4.
  fold m in Hm1, Hm2, Hm3, Hm4. fold c in Hc1, Hc2, Hc3, Hc4.
  repeat split; congruence.
Qed.

Lemma moved_fields k p :
  let q := applyPhysics (applyInput k p) in
  let push := ((if right k then 1 else 0) - (if left k then 1 else 0))%Q in
  (vx q == (vx p + push) * friction)%Q
  ∧ (x q == x p + vx q)%Q
  ∧ (vy q == vy p + gravity)%Q
  ∧ (y q == y p + vy q)%Q
  ∧ height q = height p
  ∧ facingRight q = (if left k then false else if right k then true else facingRight p).
Proof.
  unfold applyPhysics, applyInput.
  destruct (right k), (left k); simpl; repeat split; try reflexivity; ring.
Qed.

(** How a tick ends, by the three ways through its collision code. *)
Lemma loop_outcome k g :
  let q := applyPhysics (applyInput k (player_of g)) in
  let p' := player_of (loop k g) in
  ((floorY < y q + height q)%Q ∧ y p' = (floorY - height q)%Q
   ∧ ((space k = false ∧ vy p' = 0%Q ∧ grounded p' = true)
      ∨ (space k = true ∧ vy p' = jumpForce ∧ grounded p' = false)))
  ∨ ((y q + height q <= floorY)%Q
     ∧ is_Some (a_tile (assets_of g))
     ∧ platformHit (set_grounded false q) = true
     ∧ y p' = (floorY - 100 - 32)%Q ∧ vy p' = 0%Q ∧ grounded p' = true)
  ∨ ((y q + height q <= floorY)%Q
     ∧ (a_tile (assets_of g) = None ∨ platformHit (set_grounded false q) = false)
     ∧ y p' = y q ∧ vy p' = vy q ∧ grounded p' = false).
Proof.
  intros q p'.
  destruct (settled_motion k g) as (_ & Hy & Hvy & Hg).
  fold q p' in Hy, Hvy, Hg. rewrite Hy, Hvy, Hg. clear Hy Hvy Hg.
  unfold floorCollision.
  destruct (Qltb floorY (y q + height q)) eqn:Hfloor.
  - left. apply Qltb_lt in Hfloor. split; [done|].
    unfold applyJump. simpl grounded. rewrite andb_true_r.
    destruct (space k);
      rewrite !platformCollision_miss by (by apply platformHit_rising); simpl.
    + split; [done|]. right. done.
    + split; [done|]. left. done.
  - apply Qltb_ge in Hfloor.
    unfold applyJump. simpl grounded. rewrite andb_false_r.
    unfold platformCollision.
    destruct (a_tile (assets_of g)) as [t|] eqn:Htile.
    + destruct (platformHit (set_grounded false q)) eqn:Hhit.
      * right. left. simpl. repeat split; done.
      * right. right. split; [done|]. split; [by right|]. done.
    + right. right. split; [done|]. split; [by left|]. done.
Qed.

(** The state a tick shows: decided before the platform is looked at. *)
Lemma loop_state_cases k g :
  let q := applyPhysics (applyInput k (player_of g)) in
  state (player_of (loop k g))
  = if Qltb floorY (y q + height q)
    then if space k then jump
         else if Qltb (1 # 2) (Qabs (vx q)) then run else idle
    else jump.
Proof.
  intros q. rewrite loop_state. unfold settled. fold q.
  destruct (platformCollision_anim (a_tile (assets_of g))
              (stateMachine (applyJump k (floorCollision q)))) as (_ & _ & ->).
  unfold stateMachine, applyJump, floorCollision.
  destruct (Qltb floorY (y q + height q));
    cbn [grounded set_grounded set_vy set_y].
  - rewrite andb_true_r.
    destruct (space k); cbn [grounded vx state set_grounded set_vy set_y set_state negb];
      [done|].
    destruct (Qltb (1 # 2) (Qabs (vx q))); done.
  - rewrite andb_false_r. done.
Qed.

(** The animation fields never leave their ranges. *)
Lemma loop_animation_bounds k g (bound : nat) :
  (1 ≤ idleFrames (meta_of g) ≤ bound)%nat →
  (1 ≤ runFrames (meta_of g) ≤ bound)%nat →
  (1 ≤ jumpFrames (meta_of g) ≤ bound)%nat →
  (frameTimer (player_of g) ≤ 8)%nat →
  (frameIndex (player_of g) < bound)%nat →
  (frameTimer (player_of (loop k g)) ≤ 8)%nat
  ∧ (frameIndex (player_of (loop k g)) < bound)%nat.
Proof.
  intros Hi Hr Hj Ht Hidx. rewrite loop_unfold. cbn [player_of].
  destruct (settled_anim k g) as [Hsi Hst].
  set (s := state (settled k g)).
  assert (1 ≤ snd (activeSprite (assets_of g) (meta_of g) s) ≤ bound)%nat as Hn
    by (destruct s; simpl; done).
  unfold animatePlayer.
  destruct (fst (activeSprite (assets_of g) (meta_of g) s)); [|by rewrite Hsi, Hst].
  simpl. rewrite Hsi, Hst.
  destruct (8 <? frameTimer (player_of g) + 1)%nat eqn:E; simpl.
  - split; [lia|].
    pose proof (Nat.mod_upper_bound (frameIndex (player_of g) + 1)
                  (snd (activeSprite (assets_of g) (meta_of g) s))). lia.
  - apply Nat.ltb_ge in E. rewrite Hsi. lia.
Qed.
End RuntimeMore.

(** X10.  Horizontal speed is capped: a tick turns the held direction keys
    into a push of +1, −1 or (both or none) 0 and applies friction 0.8, so a
    speed within [−4, 4] stays within [−4, 4]; with both keys held the
    pushes cancel and the player faces left. *)
Theorem horizontal_speed_capped (k : Runtime.keys) (g : Runtime.gameState) :
  let p := Runtime.player_of g in
  let p' := Runtime.player_of (Runtime.loop k g) in
  let push := ((if Runtime.right k then 1 else 0)
               - (if Runtime.left k then 1 else 0))%Q in
  (Runtime.vx p' == (Runtime.vx p + push) * (8 # 10))%Q
  ∧ ((Qabs (Runtime.vx p) <= 4)%Q → (Qabs (Runtime.vx p') <= 4)%Q)
  ∧ (Runtime.left k = true → Runtime.facingRight p' = false).
Proof.
  intros p p' push. subst p p' push.
  destruct (loop_horizontal k g) as (_ & Hvx & _ & Hface).
  destruct (moved_fields k (Runtime.player_of g)) as (Hq & _ & _ & _ & _ & Hfq).
  cbv zeta in Hvx, Hface, Hq, Hfq. rewrite Hvx, Hface. clear Hvx Hface.
  split; [exact Hq|]. split.
  - intros Hcap. rewrite Hq. apply Qabs_Qle_condition in Hcap.
    apply Qabs_Qle_condition. unfold Runtime.friction.
    destruct (Runtime.right k), (Runtime.left k); lra.
  - intros Hl. by rewrite Hfq, Hl.
Qed.

Lemma horizontal_speed_capped_witness :
  let g := Runtime.ticks (replicate 30 Scenario.holdRight) Scenario.hero in
  (Qabs (Runtime.vx (Runtime.player_of (Runtime.loop Scenario.holdRight g))) <= 4)%Q.
Proof.
  intros g.
  destruct (horizontal_speed_capped Scenario.holdRight g) as (_ & Hcap & _).
  apply Hcap. vm_compute. discriminate.
Defined.

(** X11.  A tick never leaves the player below the floor: whatever the
    state before, a player 32 high ends the tick with its feet on or above
    the floor line. *)
Theorem never_below_floor (k : Runtime.keys) (g : Runtime.gameState) :
  Runtime.height (Runtime.player_of g) = 32%Q →
  let p' := Runtime.player_of (Runtime.loop k g) in
  Runtime.height p' = 32%Q
  ∧ (Runtime.y p' + Runtime.height p' <= Runtime.floorY)%Q.
Proof.
  intros Hh p'.
  destruct (loop_horizontal k g) as (_ & _ & Hh' & _).
  destruct (moved_fields k (Runtime.player_of g)) as (_ & _ & _ & _ & Hhq & _).
  fold p' in Hh'. rewrite Hhq, Hh in Hh'.
  split; [exact Hh'|]. rewrite Hh'.
  destruct (loop_outcome k g)
    as [(_ & Hy & _) | [(_ & _ & _ & Hy & _) | (Hair & _ & Hy & _)]];
    fold p' in Hy; rewrite Hy.
  - rewrite Hhq, Hh. lra.
  - unfold Runtime.floorY, Runtime.canvasHeight. lra.
  - rewrite Hhq, Hh in Hair. exact Hair.
Qed.

Lemma never_below_floor_witness :
  let g := Runtime.ticks (take 60 Scenario.leap) Scenario.heroTiled in
  let p' := Runtime.player_of (Runtime.loop Scenario.holdRightJump g) in
  (Runtime.y p' + Runtime.height p' <= Runtime.floorY)%Q.
Proof.
  intros g p'.
  destruct (never_below_floor Scenario.holdRightJump g) as [_ Hfloor].
  - vm_compute. reflexivity.
  - exact Hfloor.
Defined.

(** X12.  After the first load of any catalog, at every tick of any input:
    the three frame counts are at least 1, the frame timer is at most 8 and
    the frame index is below the largest of the three frame counts. *)
Theorem animation_fields_bounded
    (idleAsset runAsset jumpAsset : option (Runtime.image * option nat))
    (tileAsset bgAsset enemyAsset : option Runtime.image)
    (ks : list Runtime.keys) :
  let g := Runtime.ticks ks
             (Runtime.loadGameAssets idleAsset runAsset jumpAsset
                tileAsset bgAsset enemyAsset Runtime.initialState) in
  let m := Runtime.meta_of g in
  (1 ≤ Runtime.idleFrames m ∧ 1 ≤ Runtime.runFrames m ∧ 1 ≤ Runtime.jumpFrames m)%nat
  ∧ (Runtime.frameTimer (Runtime.player_of g) ≤ 8)%nat
  ∧ (Runtime.frameIndex (Runtime.player_of g)
     < Runtime.idleFrames m `max` (Runtime.runFrames m `max` Runtime.jumpFrames m))%nat.
Proof.
  set (g0 := Runtime.loadGameAssets idleAsset runAsset jumpAsset
               tileAsset bgAsset enemyAsset Runtime.initialState).
  assert (∀ n, (1 ≤ Runtime.framesOr1 n)%nat) as Hor1
    by (intros [[|n]|]; simpl; lia).
  assert ((1 ≤ Runtime.idleFrames (Runtime.meta_of g0)
           ∧ 1 ≤ Runtime.runFrames (Runtime.meta_of g0)
           ∧ 1 ≤ Runtime.jumpFrames (Runtime.meta_of g0))%nat
          ∧ Runtime.frameTimer (Runtime.player_of g0) = 0%nat
          ∧ Runtime.frameIndex (Runtime.player_of g0) = 0%nat) as Hload.
  { subst g0. unfold Runtime.loadGameAssets.
    destruct idleAsset as [[ii ni]|], runAsset as [[ir nr]|], jumpAsset as [[ij nj]|];
      simpl; repeat split;
      try apply Hor1; try lia. }
  intros g m. subst g m.
  induction ks as [|k ks IH] using rev_ind.
  - simpl. fold g0. destruct Hload as ((Hi & Hr & Hj) & -> & ->).
    split; [done|]. split; lia.
  - rewrite ticks_snoc.
    set (g := Runtime.ticks ks g0) in *.
    destruct IH as ((Hi & Hr & Hj) & Ht & Hidx).
    destruct (loop_assets k g) as [_ Hm]. rewrite Hm.
    split; [done|].
    apply loop_animation_bounds; lia.
Qed.

(** X13.  A player standing on the platform stays on it and cannot jump
    from it.  With the tile bitmap loaded, a player 32 high at rest on the
    platform top whose tick's movement keeps it over the platform ends the
    tick on the platform top again, at rest and grounded, whether or not the
    jump key is held, and is shown in the jump state. *)
Theorem platform_holds_player (k : Runtime.keys) (g : Runtime.gameState) :
  is_Some (Runtime.a_tile (Runtime.assets_of g)) →
  let p := Runtime.player_of g in
  Runtime.height p = 32%Q →
  (Runtime.y p == Runtime.floorY - 100 - 32)%Q →
  (Runtime.vy p == 0)%Q →
  let q := Runtime.applyPhysics (Runtime.applyInput k p) in
  (300 < Runtime.x q + 32 ∧ Runtime.x q < 396)%Q →
  let p' := Runtime.player_of (Runtime.loop k g) in
  Runtime.y p' = (Runtime.floorY - 100 - 32)%Q
  ∧ Runtime.vy p' = 0%Q
  ∧ Runtime.grounded p' = true
  ∧ Runtime.state p' = Runtime.jump.
Proof.
  intros [t Ht] p Hh Hy Hvy q Hx p'. subst p p' q.
  destruct (moved_fields k (Runtime.player_of g)) as (_ & _ & Hqvy & Hqy & Hqh & _).
  cbv zeta in Hqvy, Hqy, Hqh.
  set (q := Runtime.applyPhysics (Runtime.applyInput k (Runtime.player_of g))) in *.
  unfold Runtime.gravity in Hqvy. unfold Runtime.floorY, Runtime.canvasHeight in Hy.
  assert (Runtime.vy q == 8 # 10)%Q as Hvq by (rewrite Hqvy, Hvy; ring).
  assert (Runtime.y q == 2548 # 10)%Q as Hyq by (rewrite Hqy, Hvq, Hy; ring).
  assert (Runtime.platformHit (Runtime.set_grounded false q) = true) as Hhit.
  { apply platformHit_iff.
    cbn [Runtime.x Runtime.y Runtime.vy Runtime.set_grounded].
    unfold Runtime.floorY, Runtime.canvasHeight.
    destruct Hx as [Hx1 Hx2]. repeat split; lra. }
  assert (Qltb Runtime.floorY (Runtime.y q + Runtime.height q) = false) as Hair.
  { apply Qltb_ge. rewrite Hqh, Hh.
    unfold Runtime.floorY, Runtime.canvasHeight. lra. }
  clear Hvq Hyq Hqvy Hqy Hqh. subst q.
  split; [|split; [|split]].
  - destruct (loop_outcome k g)
      as [(Hc & _) | [(_ & _ & _ & Hr & _) | (_ & [Hn|Hn] & _)]].
    + apply Qltb_lt in Hc. congruence.
    + exact Hr.
    + congruence.
    + congruence.
  - destruct (loop_outcome k g)
      as [(Hc & _) | [(_ & _ & _ & _ & Hr & _) | (_ & [Hn|Hn] & _)]].
    + apply Qltb_lt in Hc. congruence.
    + exact Hr.
    + congruence.
    + congruence.
  - destruct (loop_outcome k g)
      as [(Hc & _) | [(_ & _ & _ & _ & _ & Hr) | (_ & [Hn|Hn] & _)]].
    + apply Qltb_lt in Hc. congruence.
    + exact Hr.
    + congruence.
    + congruence.
  - rewrite loop_state_cases. cbv zeta. by rewrite Hair.
Qed.

Lemma platform_holds_player_witness :
  let g74 := Runtime.ticks (take 74 Scenario.leap) Scenario.heroTiled in
  let p' := Runtime.player_of (Runtime.loop Scenario.holdRightJump g74) in
  Runtime.vy p' = 0%Q ∧ Runtime.state p' = Runtime.jump.
Proof.
  intros g74 p'.
  destruct (platform_holds_player Scenario.holdRightJump g74)
    as (_ & Hvy & _ & Hstate).
  - vm_compute. eauto.
  - vm_compute. reflexivity.
  - vm_compute. reflexivity.
  - vm_compute. reflexivity.
  - vm_compute. split; reflexivity.
  - split; [exact Hvy | exact Hstate].
Defined.

(** X14.  The state a tick shows is derived from the tick's physics: with
    [q] the player after the tick's movement, floor contact without the jump
    key shows run when [|vx| > 0.5] and idle otherwise; floor contact with
    the jump key, and no floor contact at all, show jump. *)
Theorem state_derived_from_physics (k : Runtime.keys) (g : Runtime.gameState) :
  let q := Runtime.applyPhysics (Runtime.applyInput k (Runtime.player_of g)) in
  let s' := Runtime.state (Runtime.player_of (Runtime.loop k g)) in
  ((Runtime.y q + Runtime.height q <= Runtime.floorY)%Q → s' = Runtime.jump)
  ∧ ((Runtime.floorY < Runtime.y q + Runtime.height q)%Q →
     (Runtime.space k = true → s' = Runtime.jump)
     ∧ (Runtime.space k = false → (1 # 2 < Qabs (Runtime.vx q))%Q → s' = Runtime.run)
     ∧ (Runtime.space k = false → (Qabs (Runtime.vx q) <= 1 # 2)%Q → s' = Runtime.idle)).
Proof.
  intros q s'. subst s'. rewrite loop_state_cases. fold q. split.
  - intros Hair. apply Qltb_ge in Hair. by rewrite Hair.
  - intros Hfloor. apply Qltb_lt in Hfloor. rewrite Hfloor.
    split; [by intros ->|]. split; intros -> Hv.
    + apply Qltb_lt in Hv. by rewrite Hv.
    + apply Qltb_ge in Hv. by rewrite Hv.
Qed.

Lemma state_derived_from_physics_witness :
  let g := Runtime.ticks (replicate 30 Runtime.noKeys) Scenario.hero in
  Runtime.state (Runtime.player_of (Runtime.loop Scenario.holdRight g)) = Runtime.run.
Proof.
  intros g.
  destruct (state_derived_from_physics Scenario.holdRight g) as (_ & Hfloor).
  destruct Hfloor as (_ & Hrun & _); [vm_compute; reflexivity|].
  apply Hrun; vm_compute; reflexivity.
Defined.

(** X15.  Loading resets the player to (100, 200) at rest, and once an
    idle bitmap is there the run and jump bitmaps are there too, so the
    player is never drawn as the fallback box: a run or jump entry that is
    missing (now and before) takes the idle bitmap and the idle frame
    count. *)
Theorem loadGameAssets_fallbacks
    (idleAsset runAsset jumpAsset : option (Runtime.image * option nat))
    (tileAsset bgAsset enemyAsset : option Runtime.image) (g : Runtime.gameState) :
  let g' := Runtime.loadGameAssets idleAsset runAsset jumpAsset
              tileAsset bgAsset enemyAsset g in
  let a' := Runtime.assets_of g' in
  let m' := Runtime.meta_of g' in
  let p' := Runtime.player_of g' in
  (Runtime.x p' = 100%Q ∧ Runtime.y p' = 200%Q
   ∧ Runtime.vx p' = 0%Q ∧ Runtime.vy p' = 0%Q)
  ∧ (is_Some (Runtime.a_idle a') →
     is_Some (Runtime.a_run a') ∧ is_Some (Runtime.a_jump a'))
  ∧ (runAsset = None → Runtime.a_run (Runtime.assets_of g) = None →
     Runtime.a_run a' = Runtime.a_idle a' ∧ Runtime.runFrames m' = Runtime.idleFrames m')
  ∧ (jumpAsset = None → Runtime.a_jump (Runtime.assets_of g) = None →
     Runtime.a_jump a' = Runtime.a_idle a' ∧ Runtime.jumpFrames m' = Runtime.idleFrames m').
Proof.
  intros g' a' m' p'. subst g' a' m' p'. unfold Runtime.loadGameAssets.
  destruct idleAsset as [[ii ni]|], runAsset as [[ir nr]|], jumpAsset as [[ij nj]|];
    destruct (Runtime.a_idle (Runtime.assets_of g)) as [pi|],
             (Runtime.a_run (Runtime.assets_of g)) as [pr|],
             (Runtime.a_jump (Runtime.assets_of g)) as [pj|];
    simpl; repeat split; try done; try (intros [? ?]; done); eauto.
Qed.

Lemma loadGameAssets_fallbacks_witness :
  let g := Runtime.loadGameAssets (Some (Runtime.Image 32 32, Some 2%nat)) None None
             None None None Runtime.initialState in
  Runtime.a_run (Runtime.assets_of g) = Runtime.a_idle (Runtime.assets_of g)
  ∧ Runtime.runFrames (Runtime.meta_of g) = Runtime.idleFrames (Runtime.meta_of g).
Proof.
  intros g.
  destruct (loadGameAssets_fallbacks (Some (Runtime.Image 32 32, Some 2%nat)) None None
              None None None Runtime.initialState) as (_ & _ & Hrun & _).
  apply Hrun; reflexivity.
Defined.

(** ** Pixel editor: color texts *)

Section HexFacts.
Import Pixel.

Lemma shl_small v k : 0 ≤ k → 0 ≤ v * 2 ^ k < 2 ^ 31 → shl v k = v * 2 ^ k.
Proof.
  intros Hk Hv. unfold shl, toInt32.
  rewrite Z.mod_small; lia.
Qed.

Lemma hexDigits_step fuel q d acc :
  0 ≤ d < 16 → 0 < q →
  hexDigits (S fuel) (q * 16 + d) acc = hexDigits fuel q (String (hexChar d) acc).
Proof.
  intros Hd Hq. cbn [hexDigits].
  replace ((q * 16 + d) mod 16) with d by (apply Z.mod_unique with q; lia).
  replace ((q * 16 + d) / 16) with q by (apply Z.div_unique with d; lia).
  destruct (q =? 0) eqn:E; [apply Z.eqb_eq in E; lia|]. done.
Qed.

Lemma hexDigits_one fuel acc : hexDigits (S fuel) 1 acc = String "1" acc.
Proof. reflexivity. Qed.

(** The text of a color: [#] and the six hex digits of the three bytes. *)
Lemma colorHex_digits r g b :
  0 ≤ r ≤ 255 → 0 ≤ g ≤ 255 → 0 ≤ b ≤ 255 →
  colorHex r g b
  = String "#"
      (String (hexChar (r / 16)) (String (hexChar (r mod 16))
      (String (hexChar (g / 16)) (String (hexChar (g mod 16))
      (String (hexChar (b / 16)) (String (hexChar (b mod 16)) "")))))).
Proof.
  intros Hr Hg Hb. unfold colorHex.
  rewrite (shl_small 1 24), (shl_small r 16), (shl_small g 8) by lia.
  set (n := 1 * 2 ^ 24 + r * 2 ^ 16 + g * 2 ^ 8 + b).
  assert (Z.log2 n = 24) as Hlog by (apply Z.log2_unique; subst n; lia).
  unfold toString16.
  destruct (n <? 0) eqn:E; [apply Z.ltb_lt in E; subst n; lia|].
  rewrite Hlog. change (Z.to_nat 24) with 24%nat.
  replace n with
    ((((((1 * 16 + r / 16) * 16 + r mod 16) * 16 + g / 16) * 16 + g mod 16)
        * 16 + b / 16) * 16 + b mod 16).
  2: { subst n. change (2 ^ 24) with 16777216. change (2 ^ 16) with 65536.
       change (2 ^ 8) with 256.
       pose proof (Z.div_mod r 16). pose proof (Z.div_mod g 16).
       pose proof (Z.div_mod b 16). lia. }
  assert (∀ v, 0 ≤ v ≤ 255 → 0 ≤ v / 16 < 16 ∧ 0 ≤ v mod 16 < 16) as Hnib.
  { intros v Hv. split; [|apply Z.mod_pos_bound; lia].
    split; [apply Z.div_pos; lia|]. apply Z.div_lt_upper_bound; lia. }
  destruct (Hnib r Hr) as [Hr1 Hr0]. destruct (Hnib g Hg) as [Hg1 Hg0].
  destruct (Hnib b Hb) as [Hb1 Hb0].
  rewrite !hexDigits_step by lia.
  rewrite hexDigits_one. reflexivity.
Qed.

Lemma nibble_cases d :
  0 ≤ d < 16 →
  d = 0 ∨ d = 1 ∨ d = 2 ∨ d = 3 ∨ d = 4 ∨ d = 5 ∨ d = 6 ∨ d = 7 ∨ d = 8
  ∨ d = 9 ∨ d = 10 ∨ d = 11 ∨ d = 12 ∨ d = 13 ∨ d = 14 ∨ d = 15.
Proof. lia. Qed.

Lemma hexValue_hexChar d : 0 ≤ d < 16 → hexValue (hexChar d) = Some d.
Proof.
  intros Hd. destruct (nibble_cases d Hd) as
    [->|[->|[->|[->|[->|[->|[->|[->|[->|[->|[->|[->|[->|[->|[->| ->]]]]]]]]]]]]]]];
    reflexivity.
Qed.

Lemma hexChar_plain d :
  0 ≤ d < 16 →
  isSpace (hexChar d) = false
  ∧ hexChar d ≠ "-"%char ∧ hexChar d ≠ "+"%char
  ∧ hexChar d ≠ "x"%char ∧ hexChar d ≠ "X"%char.
Proof.
  intros Hd. destruct (nibble_cases d Hd) as
    [->|[->|[->|[->|[->|[->|[->|[->|[->|[->|[->|[->|[->|[->|[->| ->]]]]]]]]]]]]]]];
    repeat split; done.
Qed.

(** Two hex digits read back as the byte they spell. *)
Lemma parseInt16_two d1 d0 :
  0 ≤ d1 < 16 → 0 ≤ d0 < 16 →
  parseInt16 (String (hexChar d1) (String (hexChar d0) "")) = Some (d1 * 16 + d0).
Proof.
  intros H1 H0.
  destruct (nibble_cases d1 H1) as
    [->|[->|[->|[->|[->|[->|[->|[->|[->|[->|[->|[->|[->|[->|[->| ->]]]]]]]]]]]]]]];
  destruct (nibble_cases d0 H0) as
    [->|[->|[->|[->|[->|[->|[->|[->|[->|[->|[->|[->|[->|[->|[->| ->]]]]]]]]]]]]]]];
  reflexivity.
Qed.

Lemma parseColor_colorHex r g b :
  0 ≤ r ≤ 255 → 0 ≤ g ≤ 255 → 0 ≤ b ≤ 255 →
  parseColor (colorHex r g b) = Some (Flood.Color r g b)
  ∧ fillStyleColor (colorHex r g b) = Some (Flood.Color r g b).
Proof.
  intros Hr Hg Hb. rewrite colorHex_digits by done.
  assert (∀ v, 0 ≤ v ≤ 255 → 0 ≤ v / 16 < 16 ∧ 0 ≤ v mod 16 < 16
                               ∧ v / 16 * 16 + v mod 16 = v) as Hnib.
  { intros v Hv. pose proof (Z.div_mod v 16).
    split; [split; [apply Z.div_pos; lia|apply Z.div_lt_upper_bound; lia]|].
    split; [apply Z.mod_pos_bound; lia|lia]. }
  destruct (Hnib r Hr) as (Hr1 & Hr0 & Hre).
  destruct (Hnib g Hg) as (Hg1 & Hg0 & Hge).
  destruct (Hnib b Hb) as (Hb1 & Hb0 & Hbe).
  assert (parseColor
            (String "#"
               (String (hexChar (r / 16)) (String (hexChar (r mod 16))
               (String (hexChar (g / 16)) (String (hexChar (g mod 16))
               (String (hexChar (b / 16)) (String (hexChar (b mod 16)) "")))))))
          = Some (Flood.Color r g b)) as Hparse.
  { unfold parseColor, slice. cbn [String.substring Nat.sub].
    rewrite !parseInt16_two by done. by rewrite Hre, Hge, Hbe. }
  split; [exact Hparse|].
  unfold fillStyleColor. cbn [String.length Nat.eqb list_ascii_of_string forallb andb].
  rewrite !hexValue_hexChar by done.
  rewrite !bool_decide_eq_true_2 by eauto. exact Hparse.
Qed.
End HexFacts.

(** X16.  A color text written from three bytes reads back as those
    bytes: it is [#] followed by six hex digits, [floodFill]'s parsing and
    the fill style give back the three channels, and so different colors
    have different texts. *)
Theorem colorHex_round_trip (r g b r' g' b' : Z) :
  0 ≤ r ≤ 255 → 0 ≤ g ≤ 255 → 0 ≤ b ≤ 255 →
  String.length (Pixel.colorHex r g b) = 7%nat
  ∧ Pixel.parseColor (Pixel.colorHex r g b) = Some (Flood.Color r g b)
  ∧ Pixel.fillStyleColor (Pixel.colorHex r g b) = Some (Flood.Color r g b)
  ∧ (0 ≤ r' ≤ 255 → 0 ≤ g' ≤ 255 → 0 ≤ b' ≤ 255 →
     Pixel.colorHex r g b = Pixel.colorHex r' g' b' → (r, g, b) = (r', g', b')).
Proof.
  intros Hr Hg Hb.
  destruct (parseColor_colorHex r g b Hr Hg Hb) as [Hparse Hstyle].
  split; [by rewrite colorHex_digits|]. split; [done|]. split; [done|].
  intros Hr' Hg' Hb' Heq.
  destruct (parseColor_colorHex r' g' b' Hr' Hg' Hb') as [Hparse' _].
  rewrite Heq, Hparse' in Hparse. congruence.
Qed.

Lemma colorHex_round_trip_witness :
  Pixel.parseColor (Pixel.colorHex 255 10 171) = Some (Flood.Color 255 10 171).
Proof.
  destruct (colorHex_round_trip 255 10 171 0 0 0) as (_ & Hparse & _); try lia.
  exact Hparse.
Defined.

(** ** Pixel editor: the palette *)

Section PaletteFacts.
Import Pixel.

Lemma foldl_setAdd (keys : list string) : ∀ acc,
  NoDup acc →
  let r := foldl setAdd acc keys in
  NoDup r ∧ (∀ c, c ∈ r ↔ c ∈ acc ∨ c ∈ keys) ∧ acc `prefix_of` r.
Proof.
  induction keys as [|k keys IH]; intros acc Hnd; cbn [foldl].
  - split; [done|]. split; [|done].
    intros c. rewrite elem_of_nil. tauto.
  - assert (NoDup (setAdd acc k) ∧ (∀ c, c ∈ setAdd acc k ↔ c ∈ acc ∨ c = k)
            ∧ acc `prefix_of` setAdd acc k) as (Hnd' & Hin' & Hpre').
    { unfold setAdd. destruct (decide (k ∈ acc)) as [Hk|Hk].
      - split; [done|]. split; [|done]. intros c. split; [tauto|].
        intros [H| ->]; done.
      - split; [|split].
        + apply NoDup_app. split; [done|]. split; [|apply NoDup_singleton].
          intros c Hc Hck. apply list_elem_of_singleton in Hck. by subst.
        + intros c. rewrite elem_of_app, list_elem_of_singleton. tauto.
        + by apply prefix_app_r. }
    destruct (IH (setAdd acc k) Hnd') as (Hr & Hin & Hpre).
    split; [done|]. split.
    + intros c. rewrite Hin, Hin', elem_of_cons. tauto.
    + by transitivity (setAdd acc k).
Qed.

(** Pixel [i] of a buffer: its four bytes. *)
Lemma paletteKeys_elem (c : string) : ∀ data,
  c ∈ paletteKeys data
  ↔ ∃ (i : nat) r g b a,
      data !! (4 * i)%nat = Some r ∧ data !! (4 * i + 1)%nat = Some g
      ∧ data !! (4 * i + 2)%nat = Some b ∧ data !! (4 * i + 3)%nat = Some a
      ∧ 0 < a ∧ c = colorHex r g b.
Proof.
  assert (∀ n data, (length data ≤ n)%nat →
    (c ∈ paletteKeys data
     ↔ ∃ (i : nat) r g b a,
         data !! (4 * i)%nat = Some r ∧ data !! (4 * i + 1)%nat = Some g
         ∧ data !! (4 * i + 2)%nat = Some b ∧ data !! (4 * i + 3)%nat = Some a
         ∧ 0 < a ∧ c = colorHex r g b)) as Hall.
  { induction n as [|n IH]; intros data Hlen.
    - destruct data; [|simpl in Hlen; lia]. simpl. split.
      + intros H. by apply elem_of_nil in H.
      + intros (i & r & g & b & a & H & _). by rewrite lookup_nil in H.
    - destruct data as [|r0 [|g0 [|b0 [|a0 rest]]]];
        try (simpl; split;
             [intros H; by apply elem_of_nil in H
             |intros (i & r & g & b & a & _ & _ & _ & H3 & _);
              apply lookup_lt_Some in H3; simpl in H3; lia]).
      change (paletteKeys (r0 :: g0 :: b0 :: a0 :: rest))
        with ((if 0 <? a0 then [colorHex r0 g0 b0] else []) ++ paletteKeys rest).
      rewrite elem_of_app.
      assert (length rest ≤ n)%nat as Hrest by (simpl in Hlen; lia).
      rewrite (IH rest Hrest). split.
      + intros [Hhere | (i & r & g & b & a & H0 & H1 & H2 & H3 & Ha & Hc)].
        * destruct (0 <? a0) eqn:E; [|by apply elem_of_nil in Hhere].
          apply Z.ltb_lt in E. apply list_elem_of_singleton in Hhere.
          exists 0%nat, r0, g0, b0, a0. done.
        * exists (S i), r, g, b, a.
          replace (4 * S i)%nat with (S (S (S (S (4 * i))))) by lia.
          simpl. done.
      + intros (i & r & g & b & a & H0 & H1 & H2 & H3 & Ha & Hc).
        destruct i as [|i].
        * left. simpl in H0, H1, H2, H3.
          injection H0 as ->. injection H1 as ->. injection H2 as ->.
          injection H3 as ->.
          destruct (0 <? a) eqn:E; [|apply Z.ltb_ge in E; lia].
          by apply list_elem_of_singleton.
        * right. exists i, r, g, b, a.
          replace (4 * S i)%nat with (S (S (S (S (4 * i))))) in * by lia.
          simpl in H0, H1, H2, H3. done. }
  intros data. by apply (Hall (length data)).
Qed.

Lemma paletteKeys_app (k : nat) : ∀ d1 d2,
  length d1 = (4 * k)%nat →
  paletteKeys (d1 ++ d2) = paletteKeys d1 ++ paletteKeys d2.
Proof.
  induction k as [|k IH]; intros d1 d2 Hlen.
  - destruct d1; [done|simpl in Hlen; lia].
  - destruct d1 as [|r [|g [|b [|a rest]]]]; try (simpl in Hlen; lia).
    change (paletteKeys ((r :: g :: b :: a :: rest) ++ d2))
      with ((if 0 <? a then [colorHex r g b] else []) ++ paletteKeys (rest ++ d2)).
    change (paletteKeys (r :: g :: b :: a :: rest))
      with ((if 0 <? a then [colorHex r g b] else []) ++ paletteKeys rest).
    rewrite (IH rest d2) by (simpl in Hlen; lia).
    by rewrite app_assoc.
Qed.

Lemma take_prefix {A} (n : nat) (l1 l2 : list A) :
  l1 `prefix_of` l2 → take n l1 `prefix_of` take n l2.
Proof.
  intros [k ->]. rewrite take_app. by apply prefix_app_r.
Qed.
End PaletteFacts.

(** X17.  The palette has no repeated color and at most 20 entries; every
    entry is the color text of some pixel with alpha above 0 (transparent
    pixels contribute nothing); and every pixel with alpha above 0 has its
    color in the palette unless the palette is full. *)
Theorem extractPalette_content (img : Flood.imageData) :
  let palette := Pixel.extractPalette img in
  let pixel (i : nat) r g b a :=
    Flood.data img !! (4 * i)%nat = Some r
    ∧ Flood.data img !! (4 * i + 1)%nat = Some g
    ∧ Flood.data img !! (4 * i + 2)%nat = Some b
    ∧ Flood.data img !! (4 * i + 3)%nat = Some a in
  NoDup palette
  ∧ (length palette ≤ 20)%nat
  ∧ (∀ c, c ∈ palette →
       ∃ i r g b a, pixel i r g b a ∧ 0 < a ∧ c = Pixel.colorHex r g b)
  ∧ (∀ i r g b a, pixel i r g b a → 0 < a →
       Pixel.colorHex r g b ∈ palette ∨ length palette = 20%nat).
Proof.
  intros palette pixel. subst palette pixel. unfold Pixel.extractPalette.
  set (keys := Pixel.paletteKeys (Flood.data img)).
  destruct (foldl_setAdd keys [] (NoDup_nil_2)) as (Hnd & Hin & _).
  fold (Pixel.colorSetOf keys) in Hnd, Hin.
  split; [by apply (sublist_NoDup _ (Pixel.colorSetOf keys)), sublist_take|].
  split; [rewrite length_take; lia|]. split.
  - intros c Hc. apply elem_of_take in Hc as (j & Hj & _).
    apply list_elem_of_lookup_2 in Hj. apply Hin in Hj as [Hc|Hc].
    + by apply elem_of_nil in Hc.
    + apply paletteKeys_elem in Hc as (i & r & g & b & a & H0 & H1 & H2 & H3 & Ha & Hc).
      exists i, r, g, b, a. done.
  - intros i r g b a (H0 & H1 & H2 & H3) Ha.
    assert (Pixel.colorHex r g b ∈ Pixel.colorSetOf keys) as Hset.
    { apply Hin. right. apply paletteKeys_elem. exists i, r, g, b, a. done. }
    destruct (decide (length (Pixel.colorSetOf keys) ≤ 20)%nat) as [Hfew|Hmany].
    + left. by rewrite take_ge.
    + right. rewrite length_take. lia.
Qed.

Lemma extractPalette_content_witness :
  let img := Flood.ofRows 3 2
               [[(1, 2, 3, 255); (0, 0, 0, 0); (9, 9, 9, 128)];
                [(1, 2, 3, 255); (4, 5, 6, 255); (9, 9, 9, 128)]] in
  Pixel.colorHex 4 5 6 ∈ Pixel.extractPalette img
  ∨ length (Pixel.extractPalette img) = 20%nat.
Proof.
  intros img.
  destruct (extractPalette_content img) as (_ & _ & _ & Hvisible).
  apply (Hvisible 4%nat 4 5 6 255); [|lia].
  repeat split; reflexivity.
Defined.

(** X18.  The palette lists colors in the order the scan first meets them:
    the palette of the first pixels of a buffer is the beginning of the
    palette of the whole buffer. *)
Theorem extractPalette_scan_order (w h w' h' : Z) (d1 d2 : list Z) :
  (length d1 mod 4 = 0)%nat →
  Pixel.extractPalette (Flood.ImageData w h d1)
    `prefix_of` Pixel.extractPalette (Flood.ImageData w' h' (d1 ++ d2)).
Proof.
  intros Hlen. unfold Pixel.extractPalette. simpl.
  apply take_prefix.
  rewrite (paletteKeys_app (length d1 / 4) d1 d2).
  - unfold Pixel.colorSetOf. rewrite foldl_app.
    apply foldl_setAdd.
    apply (foldl_setAdd (Pixel.paletteKeys d1) [] NoDup_nil_2).
  - pose proof (Nat.div_mod_eq (length d1) 4). lia.
Qed.

Lemma extractPalette_scan_order_witness :
  Pixel.extractPalette (Flood.ImageData 1 1 [1; 2; 3; 255])
    `prefix_of`
  Pixel.extractPalette (Flood.ImageData 2 1 ([1; 2; 3; 255] ++ [4; 5; 6; 255])).
Proof.
  apply (extractPalette_scan_order 1 1 2 1 [1; 2; 3; 255] [4; 5; 6; 255]).
  reflexivity.
Defined.

(** ** Pixel editor: the tools *)

Section ToolFacts.
Import Flood Pixel.

Lemma pixelAt_resized img d cx cy :
  pixelAt (ImageData (width img) (height img) d) cx cy
  = quad d (getPixel (width img) (height img) cx cy).
Proof. reflexivity. Qed.

Lemma setPixel_outside img x y r g b a :
  ¬ inBounds img x y → setPixel img x y r g b a = img.
Proof.
  intros Hout. unfold setPixel. by rewrite (getPixel_outside img x y Hout).
Qed.

Lemma setPixel_inside img x y r g b a :
  wellFormed img → inBounds img x y →
  0 ≤ r ≤ 255 → 0 ≤ g ≤ 255 → 0 ≤ b ≤ 255 → 0 ≤ a ≤ 255 →
  let img' := setPixel img x y r g b a in
  width img' = width img ∧ height img' = height img ∧ wellFormed img'
  ∧ pixelAt img' x y = (Some r, Some g, Some b, Some a)
  ∧ ∀ cx cy, inBounds img cx cy → (cx, cy) ≠ (x, y) →
      pixelAt img' cx cy = pixelAt img cx cy.
Proof.
  intros Hwf Hin Hr Hg Hb Ha img'. subst img'. unfold setPixel.
  destruct (getPixel_inside img x y Hin) as [Hidx Hrange]. rewrite Hidx.
  destruct ((y * width img + x) * 4 =? -1) eqn:E; [apply Z.eqb_eq in E; lia|].
  destruct Hwf as (Hw & Hh & Hlen).
  split; [done|]. split; [done|]. split.
  { unfold wellFormed. simpl. by rewrite length_paint. }
  split.
  - rewrite pixelAt_resized, Hidx, quad_paint_same by lia.
    unfold clamp8. repeat f_equal; lia.
  - intros cx cy Hinc Hdiff. rewrite pixelAt_resized.
    destruct (getPixel_inside img cx cy Hinc) as [Hidxc Hrangec]. rewrite Hidxc.
    rewrite quad_paint_other.
    + unfold pixelAt. by rewrite Hidxc.
    + assert (cy * width img + cx ≠ y * width img + x) as Hne
        by (intros Heq; by apply Hdiff, (pixel_index_inj img)).
      lia.
Qed.

(** A pixel inside a well-formed buffer has four bytes, the ones
    [getImageData] hands out. *)
Lemma pixel_inside img x y :
  wellFormed img → inBounds img x y →
  ∃ r g b a, pixelAt img x y = (Some r, Some g, Some b, Some a)
    ∧ pixelData img x y = [r; g; b; a]
    ∧ (bytesOnly img → 0 ≤ r ≤ 255 ∧ 0 ≤ g ≤ 255 ∧ 0 ≤ b ≤ 255 ∧ 0 ≤ a ≤ 255).
Proof.
  intros (Hw & Hh & Hlen) Hin.
  destruct (getPixel_inside img x y Hin) as [Hidx Hrange].
  set (i := (y * width img + x) * 4) in *.
  assert (∀ k, 0 ≤ k ≤ 3 → ∃ v, read (data img) (i + k) = Some v
                                ∧ (bytesOnly img → 0 ≤ v ≤ 255)) as Hread.
  { intros k Hk. unfold read.
    destruct (i + k <? 0) eqn:E; [apply Z.ltb_lt in E; lia|].
    destruct (lookup_lt_is_Some_2 (data img) (Z.to_nat (i + k))) as [v Hv]; [lia|].
    exists v. split; [done|]. intros Hbytes.
    by apply (Forall_lookup_1 _ _ _ _ Hbytes Hv). }
  destruct (Hread 0) as (r & Hr & Hrb); [lia|].
  destruct (Hread 1) as (g & Hg & Hgb); [lia|].
  destruct (Hread 2) as (b & Hb & Hbb); [lia|].
  destruct (Hread 3) as (a & Ha & Hab); [lia|].
  exists r, g, b, a. split; [|split].
  - unfold pixelAt. rewrite Hidx. rewrite Z.add_0_r in Hr. by rewrite Hr, Hg, Hb, Ha.
  - unfold pixelData. rewrite Hidx.
    destruct (i =? -1) eqn:E; [apply Z.eqb_eq in E; lia|].
    simpl. by rewrite Hr, Hg, Hb, Ha.
  - intros Hbytes. auto.
Qed.

(** One event of the brush or the eraser. *)
Lemma drawPixel_sets_pixel ed x y r g b :
  wellFormed (canvas ed) →
  0 ≤ r ≤ 255 → 0 ≤ g ≤ 255 → 0 ≤ b ≤ 255 →
  (tool ed = brush ∧ color ed = colorHex r g b) ∨ tool ed = eraser →
  let painted :=
    match tool ed with
    | brush => (Some r, Some g, Some b, Some 255)
    | _ => (Some 0, Some 0, Some 0, Some 0)
    end in
  ∃ ed', drawPixel x y ed = Some ed'
    ∧ tool ed' = tool ed ∧ color ed' = color ed ∧ isDrawing ed' = isDrawing ed
    ∧ wellFormed (canvas ed')
    ∧ width (canvas ed') = width (canvas ed)
    ∧ height (canvas ed') = height (canvas ed)
    ∧ (inBounds (canvas ed) x y →
       pixelAt (canvas ed') x y = painted
       ∧ ∀ cx cy, inBounds (canvas ed) cx cy → (cx, cy) ≠ (x, y) →
           pixelAt (canvas ed') cx cy = pixelAt (canvas ed) cx cy)
    ∧ (¬ inBounds (canvas ed) x y → canvas ed' = canvas ed).
Proof.
  intros Hwf Hr Hg Hb Htool painted.
  assert (∃ c1 c2 c3 c4,
            drawPixel x y ed
            = Some (Editor (tool ed) (color ed) (isDrawing ed)
                      (setPixel (canvas ed) x y c1 c2 c3 c4))
            ∧ painted = (Some c1, Some c2, Some c3, Some c4)
            ∧ 0 ≤ c1 ≤ 255 ∧ 0 ≤ c2 ≤ 255 ∧ 0 ≤ c3 ≤ 255 ∧ 0 ≤ c4 ≤ 255)
    as (c1 & c2 & c3 & c4 & Hdraw & Hpainted & H1 & H2 & H3 & H4).
  { subst painted. unfold drawPixel.
    destruct Htool as [[Ht Hc]|Ht]; rewrite Ht.
    - destruct (parseColor_colorHex r g b Hr Hg Hb) as [_ Hstyle].
      rewrite Hc, Hstyle. simpl. exists r, g, b, 255. repeat split; try done; lia.
    - exists 0, 0, 0, 0. repeat split; try done; lia. }
  eexists. split; [exact Hdraw|]. simpl.
  split; [done|]. split; [done|]. split; [done|].
  destruct (decide (inBounds (canvas ed) x y)) as [Hin|Hout].
  - destruct (setPixel_inside (canvas ed) x y c1 c2 c3 c4 Hwf Hin H1 H2 H3 H4)
      as (Hw & Hh & Hwf' & Hpx & Hothers).
    split; [done|]. split; [done|]. split; [done|]. split; [|done].
    intros _. by rewrite Hpainted.
  - rewrite (setPixel_outside _ _ _ _ _ _ _ Hout).
    split; [done|]. split; [done|]. split; [done|]. split; [done|]. done.
Qed.

(** The moves of a drag with the brush held down. *)
Lemma brush_moves r g b (points : list (Z * Z)) : ∀ ed,
  wellFormed (canvas ed) →
  0 ≤ r ≤ 255 → 0 ≤ g ≤ 255 → 0 ≤ b ≤ 255 →
  tool ed = brush → color ed = colorHex r g b → isDrawing ed = true →
  ∃ ed', moves points ed = Some ed'
    ∧ tool ed' = brush ∧ color ed' = color ed
    ∧ wellFormed (canvas ed')
    ∧ width (canvas ed') = width (canvas ed)
    ∧ height (canvas ed') = height (canvas ed)
    ∧ ∀ cx cy, inBounds (canvas ed) cx cy →
        ((cx, cy) ∈ points →
           pixelAt (canvas ed') cx cy = (Some r, Some g, Some b, Some 255))
        ∧ ((cx, cy) ∉ points →
           pixelAt (canvas ed') cx cy = pixelAt (canvas ed) cx cy).
Proof.
  induction points as [|[x y] points IH]; intros ed Hwf Hr Hg Hb Ht Hc Hd.
  - exists ed. simpl. split; [done|]. split; [done|]. split; [done|].
    split; [done|]. split; [done|]. split; [done|].
    intros cx cy Hin. split; [|done]. intros H. by apply elem_of_nil in H.
  - destruct (drawPixel_sets_pixel ed x y r g b Hwf Hr Hg Hb (or_introl (conj Ht Hc)))
      as (ed1 & Hdraw & Ht1 & Hc1 & Hd1 & Hwf1 & Hw1 & Hh1 & Hin1 & Hout1).
    rewrite Ht in Hin1.
    destruct (IH ed1 Hwf1 Hr Hg Hb) as (ed' & Hmoves & Ht' & Hc' & Hwf' & Hw' & Hh' & Hpx);
      [congruence..|].
    exists ed'. split.
    { cbn [moves]. unfold handleMouseMove. rewrite Hd, Ht. simpl. by rewrite Hdraw. }
    split; [done|]. split; [congruence|]. split; [done|].
    split; [congruence|]. split; [congruence|].
    intros cx cy Hin.
    assert (inBounds (canvas ed1) cx cy) as Hinc
      by (unfold inBounds in *; by rewrite Hw1, Hh1).
    destruct (Hpx cx cy Hinc) as [Hhit Hmiss].
    assert (pixelAt (canvas ed1) cx cy
            = if decide ((cx, cy) = (x, y))
              then (Some r, Some g, Some b, Some 255)
              else pixelAt (canvas ed) cx cy) as Hfirst.
    { destruct (decide ((cx, cy) = (x, y))) as [Heq|Hne].
      - injection Heq as -> ->. by apply Hin1.
      - destruct (decide (inBounds (canvas ed) x y)) as [Hinxy|Houtxy].
        + by apply Hin1.
        + by rewrite (Hout1 Houtxy). }
    split.
    + intros Hel. destruct (decide ((cx, cy) ∈ points)) as [Hlater|Hnot].
      * by apply Hhit.
      * rewrite (Hmiss Hnot), Hfirst.
        apply elem_of_cons in Hel as [Heq|Hel]; [|done].
        by rewrite decide_True.
    + intros Hnot. apply not_elem_of_cons in Hnot as [Hne Hnot].
      rewrite (Hmiss Hnot), Hfirst. by rewrite decide_False.
Qed.

(** Click-only tools: with the bucket held the moves do nothing. *)
Lemma bucket_moves (points : list (Z * Z)) ed :
  tool ed = bucket → moves points ed = Some ed.
Proof.
  intros Ht. induction points as [|[x y] points IH]; [done|].
  cbn [moves]. unfold handleMouseMove. rewrite Ht.
  destruct (negb (isDrawing ed)); exact IH.
Qed.

(** A fill started outside the canvas. *)
Lemma floodFill_outside img x y c :
  ¬ inBounds img x y → floodFill img x y c = Some img.
Proof.
  intros Hout. unfold floodFill. rewrite (getPixel_outside img x y Hout).
  change (read (data img) (-1)) with (@None Z).
  unfold same at 1. rewrite bool_decide_eq_false_2 by done.
  cbn [andb fillLoop]. rewrite (getPixel_outside img x y Hout).
  unfold isSource. cbn [Z.eqb negb andb].
  destruct img as [w h d]. simpl. by destruct (length d).
Qed.

(** A fill started inside always returns a buffer of the same shape. *)
Lemma floodFill_inside img x y c :
  wellFormed img → isColor c → inBounds img x y →
  ∃ img', floodFill img x y c = Some img'
    ∧ width img' = width img ∧ height img' = height img ∧ wellFormed img'.
Proof.
  intros Hwf Hc Hin.
  destruct (decide (pixelAt img x y = opaque c)) as [Hsame|Hne].
  - exists img. split; [by apply floodFill_noop|]. done.
  - destruct (floodFill_filled img x y c Hwf Hc Hin Hne)
      as (img' & Hrun & Hw & Hh & Hlen & _).
    exists img'. split; [done|]. split; [done|]. split; [done|].
    destruct Hwf as (H1 & H2 & H3). unfold wellFormed. by rewrite Hw, Hh, Hlen.
Qed.
End ToolFacts.

(** X19.  One event of the brush or the eraser changes exactly the pixel
    hit: with the brush and a color text of three bytes the pixel becomes
    that color, fully opaque; with the eraser it becomes transparent black;
    every other pixel, the size of the canvas, the tool and the color stay;
    an event outside the canvas changes nothing. *)
Theorem brush_and_eraser_set_one_pixel (ed : Pixel.editor) (x y r g b : Z) :
  Flood.wellFormed (Pixel.canvas ed) →
  0 ≤ r ≤ 255 → 0 ≤ g ≤ 255 → 0 ≤ b ≤ 255 →
  (Pixel.tool ed = Pixel.brush ∧ Pixel.color ed = Pixel.colorHex r g b)
  ∨ Pixel.tool ed = Pixel.eraser →
  let painted :=
    match Pixel.tool ed with
    | Pixel.brush => (Some r, Some g, Some b, Some 255)
    | _ => (Some 0, Some 0, Some 0, Some 0)
    end in
  ∃ ed', Pixel.drawPixel x y ed = Some ed'
    ∧ Pixel.tool ed' = Pixel.tool ed ∧ Pixel.color ed' = Pixel.color ed
    ∧ Pixel.isDrawing ed' = Pixel.isDrawing ed
    ∧ Flood.wellFormed (Pixel.canvas ed')
    ∧ Flood.width (Pixel.canvas ed') = Flood.width (Pixel.canvas ed)
    ∧ Flood.height (Pixel.canvas ed') = Flood.height (Pixel.canvas ed)
    ∧ (Flood.inBounds (Pixel.canvas ed) x y →
       Flood.pixelAt (Pixel.canvas ed') x y = painted
       ∧ ∀ cx cy, Flood.inBounds (Pixel.canvas ed) cx cy → (cx, cy) ≠ (x, y) →
           Flood.pixelAt (Pixel.canvas ed') cx cy
           = Flood.pixelAt (Pixel.canvas ed) cx cy)
    ∧ (¬ Flood.inBounds (Pixel.canvas ed) x y → Pixel.canvas ed' = Pixel.canvas ed).
Proof. apply drawPixel_sets_pixel. Qed.

Lemma brush_and_eraser_set_one_pixel_witness :
  let img := Flood.checkerboard (10, 20, 30, 255) (1, 2, 3, 255) in
  let ed := Pixel.Editor Pixel.eraser "#ffffff" true img in
  ∃ ed', Pixel.drawPixel 1 1 ed = Some ed'
    ∧ Flood.pixelAt (Pixel.canvas ed') 1 1 = (Some 0, Some 0, Some 0, Some 0).
Proof.
  intros img ed.
  destruct (brush_and_eraser_set_one_pixel ed 1 1 0 0 0)
    as (ed' & Hdraw & _ & _ & _ & _ & _ & _ & Hin & _); try lia.
  - unfold Flood.wellFormed. simpl. repeat split; lia.
  - by right.
  - exists ed'. split; [exact Hdraw|]. apply Hin.
    unfold Flood.inBounds. simpl. lia.
Defined.

(** X20.  The picker leaves the canvas alone and switches to the brush.
    Inside the canvas it sets the color to the text of the pixel's red,
    green and blue, which reads back as those three bytes; when the pixel is
    fully opaque, a bucket fill with the picked color at that pixel changes
    nothing.  Outside the canvas it picks black. *)
Theorem picker_reads_color (ed : Pixel.editor) (x y : Z) :
  Flood.wellFormed (Pixel.canvas ed) → Pixel.bytesOnly (Pixel.canvas ed) →
  Pixel.tool ed = Pixel.picker →
  (Flood.inBounds (Pixel.canvas ed) x y →
   ∃ r g b a,
     Flood.pixelAt (Pixel.canvas ed) x y = (Some r, Some g, Some b, Some a)
     ∧ Pixel.drawPixel x y ed
       = Some (Pixel.Editor Pixel.brush (Pixel.colorHex r g b)
                 (Pixel.isDrawing ed) (Pixel.canvas ed))
     ∧ Pixel.parseColor (Pixel.colorHex r g b) = Some (Flood.Color r g b)
     ∧ (a = 255 →
        Flood.floodFill (Pixel.canvas ed) x y (Flood.Color r g b)
        = Some (Pixel.canvas ed)))
  ∧ (¬ Flood.inBounds (Pixel.canvas ed) x y →
     Pixel.drawPixel x y ed
     = Some (Pixel.Editor Pixel.brush (Pixel.colorHex 0 0 0)
               (Pixel.isDrawing ed) (Pixel.canvas ed))).
Proof.
  intros Hwf Hbytes Htool. split.
  - intros Hin.
    destruct (pixel_inside (Pixel.canvas ed) x y Hwf Hin)
      as (r & g & b & a & Hpx & Hdata & Hrange).
    destruct (Hrange Hbytes) as (Hr & Hg & Hb & Ha).
    exists r, g, b, a. split; [done|]. split.
    { unfold Pixel.drawPixel. by rewrite Htool, Hdata. }
    split; [by apply parseColor_colorHex|].
    intros ->. apply floodFill_noop. by rewrite Hpx.
  - intros Hout. unfold Pixel.drawPixel, Pixel.pixelData.
    by rewrite Htool, (getPixel_outside _ x y Hout).
Qed.

Lemma picker_reads_color_witness :
  let img := Flood.checkerboard (10, 20, 30, 255) (1, 2, 3, 255) in
  let ed := Pixel.Editor Pixel.picker "#ffffff" true img in
  Pixel.drawPixel 7 7 ed
  = Some (Pixel.Editor Pixel.brush (Pixel.colorHex 0 0 0) true img).
Proof.
  intros img ed.
  destruct (picker_reads_color ed 7 7) as [_ Hout].
  - unfold Flood.wellFormed. simpl. repeat split; lia.
  - unfold Pixel.bytesOnly. simpl. repeat constructor; lia.
  - reflexivity.
  - apply Hout. unfold Flood.inBounds. simpl. lia.
Defined.

(** X21.  The bucket is a click-only tool: a whole gesture with the bucket
    (button down, any moves, button up) with a color text of three bytes
    leaves exactly the canvas of one fill at the button-down pixel. *)
Theorem bucket_fills_once (ed : Pixel.editor) (start : Z * Z)
    (points : list (Z * Z)) (r g b : Z) :
  Flood.wellFormed (Pixel.canvas ed) →
  0 ≤ r ≤ 255 → 0 ≤ g ≤ 255 → 0 ≤ b ≤ 255 →
  Pixel.tool ed = Pixel.bucket → Pixel.color ed = Pixel.colorHex r g b →
  ∃ img, Flood.floodFill (Pixel.canvas ed) start.1 start.2 (Flood.Color r g b)
         = Some img
    ∧ Pixel.gesture start points ed
      = Some (Pixel.Editor Pixel.bucket (Pixel.color ed) false img).
Proof.
  intros Hwf Hr Hg Hb Htool Hcolor.
  assert (∃ img, Flood.floodFill (Pixel.canvas ed) start.1 start.2 (Flood.Color r g b)
                 = Some img) as [img Hfill].
  { destruct (decide (Flood.inBounds (Pixel.canvas ed) start.1 start.2)) as [Hin|Hout].
    - destruct (floodFill_inside (Pixel.canvas ed) start.1 start.2 (Flood.Color r g b))
        as (img & Hrun & _); try done. exists img. done.
    - exists (Pixel.canvas ed). by apply floodFill_outside. }
  exists img. split; [done|].
  destruct (parseColor_colorHex r g b Hr Hg Hb) as [Hparse _].
  unfold Pixel.gesture, Pixel.handleMouseDown, Pixel.drawPixel. simpl.
  rewrite Htool, Hcolor, Hparse, Hfill.
  rewrite bucket_moves by done. done.
Qed.

Lemma bucket_fills_once_witness :
  let img := Flood.checkerboard (10, 20, 30, 255) (1, 2, 3, 255) in
  let ed := Pixel.Editor Pixel.bucket (Pixel.colorHex 7 8 9) false img in
  ∃ img', Flood.floodFill img 0 0 (Flood.Color 7 8 9) = Some img'
    ∧ Pixel.gesture (0, 0) [(1, 1); (2, 2)] ed
      = Some (Pixel.Editor Pixel.bucket (Pixel.colorHex 7 8 9) false img').
Proof.
  intros img ed.
  apply (bucket_fills_once ed (0, 0) [(1, 1); (2, 2)] 7 8 9);
    [unfold Flood.wellFormed; simpl; repeat split; lia
    | lia | lia | lia | reflexivity | reflexivity].
Defined.

(** X22.  A brush stroke is not interpolated: after a gesture with the
    brush and a color text of three bytes, the pixels under the button-down
    and move events have that color, fully opaque, and every other pixel of
    the canvas is what it was. *)
Theorem brush_stroke_paints_event_pixels (ed : Pixel.editor) (start : Z * Z)
    (points : list (Z * Z)) (r g b : Z) :
  Flood.wellFormed (Pixel.canvas ed) →
  0 ≤ r ≤ 255 → 0 ≤ g ≤ 255 → 0 ≤ b ≤ 255 →
  Pixel.tool ed = Pixel.brush → Pixel.color ed = Pixel.colorHex r g b →
  ∃ ed', Pixel.gesture start points ed = Some ed'
    ∧ Pixel.isDrawing ed' = false
    ∧ ∀ cx cy, Flood.inBounds (Pixel.canvas ed) cx cy →
        ((cx, cy) ∈ start :: points →
           Flood.pixelAt (Pixel.canvas ed') cx cy = (Some r, Some g, Some b, Some 255))
        ∧ ((cx, cy) ∉ start :: points →
           Flood.pixelAt (Pixel.canvas ed') cx cy
           = Flood.pixelAt (Pixel.canvas ed) cx cy).
Proof.
  intros Hwf Hr Hg Hb Htool Hcolor.
  set (ed0 := Pixel.Editor (Pixel.tool ed) (Pixel.color ed) true (Pixel.canvas ed)).
  destruct (brush_moves r g b (start :: points) ed0)
    as (ed' & Hmoves & _ & _ & _ & _ & _ & Hpx); try done.
  exists (Pixel.handleMouseUp ed'). split; [|split; [done|exact Hpx]].
  unfold Pixel.gesture, Pixel.handleMouseDown. fold ed0.
  destruct start as [x y]. cbn [Pixel.moves] in Hmoves.
  unfold Pixel.handleMouseMove in Hmoves.
  replace (Pixel.tool ed0) with Pixel.brush in Hmoves by done.
  simpl in Hmoves. simpl.
  destruct (Pixel.drawPixel x y ed0); [|done]. by rewrite Hmoves.
Qed.

Lemma brush_stroke_paints_event_pixels_witness :
  let img := Flood.checkerboard (10, 20, 30, 255) (1, 2, 3, 255) in
  let ed := Pixel.Editor Pixel.brush (Pixel.colorHex 7 8 9) false img in
  ∃ ed', Pixel.gesture (0, 0) [(2, 2)] ed = Some ed'
    ∧ Flood.pixelAt (Pixel.canvas ed') 1 1 = Flood.pixelAt img 1 1.
Proof.
  intros img ed.
  destruct (brush_stroke_paints_event_pixels ed (0, 0) [(2, 2)] 7 8 9)
    as (ed' & Hrun & _ & Hpx);
    [unfold Flood.wellFormed; simpl; repeat split; lia
    | lia | lia | lia | reflexivity | reflexivity |].
  - exists ed'. split; [exact Hrun|]. apply (Hpx 1 1).
    + unfold Flood.inBounds. simpl. lia.
    + intros Hel. apply elem_of_cons in Hel as [Heq|Hel]; [done|].
      apply list_elem_of_singleton in Hel. done.
Defined.

(** X23.  A fill started outside the canvas changes nothing. *)
Theorem floodFill_outside_canvas (img : Flood.imageData) (x y : Z) (fc : Flood.color) :
  ¬ Flood.inBounds img x y → Flood.floodFill img x y fc = Some img.
Proof. apply floodFill_outside. Qed.

Lemma floodFill_outside_canvas_witness :
  let img := Flood.checkerboard (10, 20, 30, 255) (1, 2, 3, 255) in
  Flood.floodFill img 3 0 (Flood.Color 7 8 9) = Some img.
Proof.
  intros img. apply (floodFill_outside_canvas img 3 0 (Flood.Color 7 8 9)).
  unfold Flood.inBounds. simpl. lia.
Defined.

(** X24.  Dragging after a pick paints: the picker's button-down switches
    to the brush while the button is still held, so the moves that follow in
    the same gesture paint the pixels they pass with the picked color, fully
    opaque, and leave the others. *)
Theorem picker_drag_paints (ed : Pixel.editor) (start : Z * Z)
    (points : list (Z * Z)) :
  Flood.wellFormed (Pixel.canvas ed) → Pixel.bytesOnly (Pixel.canvas ed) →
  Pixel.tool ed = Pixel.picker →
  Flood.inBounds (Pixel.canvas ed) start.1 start.2 →
  ∃ r g b a ed',
    Flood.pixelAt (Pixel.canvas ed) start.1 start.2 = (Some r, Some g, Some b, Some a)
    ∧ Pixel.gesture start points ed = Some ed'
    ∧ Pixel.tool ed' = Pixel.brush ∧ Pixel.color ed' = Pixel.colorHex r g b
    ∧ ∀ cx cy, Flood.inBounds (Pixel.canvas ed) cx cy →
        ((cx, cy) ∈ points →
           Flood.pixelAt (Pixel.canvas ed') cx cy = (Some r, Some g, Some b, Some 255))
        ∧ ((cx, cy) ∉ points →
           Flood.pixelAt (Pixel.canvas ed') cx cy
           = Flood.pixelAt (Pixel.canvas ed) cx cy).
Proof.
  intros Hwf Hbytes Htool Hin.
  destruct (pixel_inside (Pixel.canvas ed) start.1 start.2 Hwf Hin)
    as (r & g & b & a & Hpx & Hdata & Hrange).
  destruct (Hrange Hbytes) as (Hr & Hg & Hb & Ha).
  set (ed1 := Pixel.Editor Pixel.brush (Pixel.colorHex r g b) true (Pixel.canvas ed)).
  destruct (brush_moves r g b points ed1)
    as (ed' & Hmoves & Ht' & Hc' & _ & _ & _ & Hpaint); try done.
  exists r, g, b, a, (Pixel.handleMouseUp ed').
  split; [done|]. split.
  { unfold Pixel.gesture, Pixel.handleMouseDown, Pixel.drawPixel. simpl.
    rewrite Htool, Hdata. fold ed1. by rewrite Hmoves. }
  split; [done|]. split; [done|]. exact Hpaint.
Qed.

Lemma picker_drag_paints_witness :
  let img := Flood.checkerboard (10, 20, 30, 255) (1, 2, 3, 255) in
  let ed := Pixel.Editor Pixel.picker "#ffffff" false img in
  ∃ r g b a ed',
    Flood.pixelAt img 0 0 = (Some r, Some g, Some b, Some a)
    ∧ Pixel.gesture (0, 0) [(1, 0)] ed = Some ed'
    ∧ Flood.pixelAt (Pixel.canvas ed') 1 0 = (Some r, Some g, Some b, Some 255).
Proof.
  intros img ed.
  destruct (picker_drag_paints ed (0, 0) [(1, 0)])
    as (r & g & b & a & ed' & Hpx & Hrun & _ & _ & Hpaint).
  - unfold Flood.wellFormed. simpl. repeat split; lia.
  - unfold Pixel.bytesOnly. simpl. repeat constructor; lia.
  - reflexivity.
  - unfold Flood.inBounds. simpl. lia.
  - exists r, g, b, a, ed'. split; [exact Hpx|]. split; [exact Hrun|].
    apply (Hpaint 1 0).
    + unfold Flood.inBounds. simpl. lia.
    + apply list_elem_of_singleton. done.
Defined.

(** ** The catalog after a save *)

(** X25.  A save rewrites the catalog entries with the saved id and no
    others, in place: the catalog keeps its length, order and ids; an entry
    with another id is untouched; an entry with the saved id gets the new
    image, status done, and the reported frame count when there is one (an
    animation save) or its old frame count when there is none (a pixel-edit
    save), so that re-opening it after an animation save of [n ≥ 1] frames
    slices it into [n] frames. *)
Theorem handleSaveAsset_updates_entry (assetId newImageUrl : string)
    (newFrameCount : option nat) (prev : Catalog.plan) :
  ∃ next, Catalog.handleSaveAsset assetId newImageUrl newFrameCount (Some prev)
          = Some next
    ∧ map Catalog.id (Catalog.assets next) = map Catalog.id (Catalog.assets prev)
    ∧ ∀ i a, Catalog.assets prev !! i = Some a →
        ∃ a', Catalog.assets next !! i = Some a'
          ∧ (Catalog.id a ≠ assetId → a' = a)
          ∧ (Catalog.id a = assetId →
             Catalog.imageUrl a' = Some newImageUrl
             ∧ Catalog.assetStatus a' = Catalog.done
             ∧ Catalog.name a' = Catalog.name a
             ∧ Catalog.filename a' = Catalog.filename a
             ∧ (newFrameCount = None → Catalog.framesOf a' = Catalog.framesOf a)
             ∧ (∀ n, newFrameCount = Some n →
                  Catalog.framesOf a' = Some n
                  ∧ ((1 ≤ n)%nat →
                     Strip.frameCountOf (Catalog.framesOf a') = n))).
Proof.
  eexists. split; [reflexivity|]. simpl. split.
  - rewrite <- list_fmap_compose. apply list_fmap_ext.
    intros i a _. simpl. by destruct (bool_decide (Catalog.id a = assetId)).
  - intros i a Ha. rewrite list_lookup_fmap, Ha. simpl.
    eexists. split; [reflexivity|].
    destruct (bool_decide (Catalog.id a = assetId)) eqn:E.
    + apply bool_decide_eq_true in E. split; [done|]. intros _.
      simpl. repeat split; try done.
      * intros ->. unfold Catalog.framesOf. simpl.
        by destruct (Catalog.assetMetadata a).
      * destruct newFrameCount as [m|]; [|done]. injection H as ->.
        unfold Catalog.framesOf. simpl. by destruct (Catalog.assetMetadata a).
      * intros Hn. destruct newFrameCount as [m|]; [|done]. injection H as ->.
        unfold Catalog.framesOf. simpl.
        destruct (Catalog.assetMetadata a); simpl; destruct n; done || lia.
    + apply bool_decide_eq_false in E. split; [done|]. done.
Qed.

Lemma handleSaveAsset_updates_entry_witness :
  let hero := Catalog.GameAsset "hero" Catalog.Characters None "hero_run"
                "spr_hero_run_strip8.png" "a hero" Catalog.pending None None in
  let tile := Catalog.GameAsset "tile" Catalog.Environment None "tile_floor"
                "tile_floor.png" "a tile" Catalog.done (Some "tile0") None in
  let prev := Catalog.Plan "t" "p" "d" [tile; hero] (Some "tile0") in
  ∃ next, Catalog.handleSaveAsset "hero" "strip" (Some 4%nat) (Some prev) = Some next
    ∧ Catalog.assets next !! 0%nat = Some tile
    ∧ ∃ hero', Catalog.assets next !! 1%nat = Some hero'
        ∧ Catalog.imageUrl hero' = Some "strip"
        ∧ Strip.frameCountOf (Catalog.framesOf hero') = 4%nat.
Proof.
  intros hero tile prev.
  destruct (handleSaveAsset_updates_entry "hero" "strip" (Some 4%nat) prev)
    as (next & Hsave & _ & Hentry).
  exists next. split; [exact Hsave|].
  destruct (Hentry 0%nat tile eq_refl) as (tile' & Ht & Hsame & _).
  destruct (Hentry 1%nat hero eq_refl) as (hero' & Hh & _ & Hnew).
  destruct (Hnew eq_refl) as (Hurl & _ & _ & _ & _ & Hcount).
  destruct (Hcount 4%nat eq_refl) as (_ & Hslice).
  split.
  - rewrite Ht. f_equal. by apply Hsame.
  - exists hero'. repeat split; [exact Hh | exact Hurl | apply Hslice; lia].
Defined.

(** X26.  The master style image follows a save exactly when the first
    catalog entry with the saved id showed the master image before the save;
    both being absent counts as showing it, so with no master image set, a
    save for an entry without an image (or for an id the catalog does not
    have) installs the saved image as master. *)
Theorem handleSaveAsset_master_image (assetId newImageUrl : string)
    (newFrameCount : option nat) (prev next : Catalog.plan)
    (Hsave : Catalog.handleSaveAsset assetId newImageUrl newFrameCount (Some prev)
             = Some next) :
  let found := List.find (λ a, bool_decide (Catalog.id a = assetId))
                 (Catalog.assets prev) in
  let shown := match found with Some a => Catalog.imageUrl a | None => None end in
  (shown = Catalog.masterStyleImage prev →
     Catalog.masterStyleImage next = Some newImageUrl)
  ∧ (shown ≠ Catalog.masterStyleImage prev →
     Catalog.masterStyleImage next = Catalog.masterStyleImage prev)
  ∧ (found = None → Catalog.masterStyleImage prev = None →
     Catalog.masterStyleImage next = Some newImageUrl).
Proof.
  intros found shown. injection Hsave as <-. simpl. fold found. fold shown.
  repeat split.
  - intros H. by rewrite bool_decide_eq_true_2.
  - intros H. by rewrite bool_decide_eq_false_2.
  - intros Hf Hm. rewrite bool_decide_eq_true_2; [done|].
    subst shown. by rewrite Hf, Hm.
Qed.

Lemma handleSaveAsset_master_image_witness :
  let hero := Catalog.GameAsset "hero" Catalog.Characters None "hero_idle"
                "spr_hero_idle.png" "a hero" Catalog.done (Some "old") None in
  let prev := Catalog.Plan "t" "p" "d" [hero] (Some "old") in
  ∃ next, Catalog.handleSaveAsset "hero" "new" (Some 4%nat) (Some prev) = Some next
    ∧ Catalog.masterStyleImage next = Some "new".
Proof.
  intros hero prev. eexists. split; [reflexivity|].
  destruct (handleSaveAsset_master_image "hero" "new" (Some 4%nat) prev _ eq_refl)
    as (Hshown & _).
  apply Hshown. reflexivity.
Defined.

